(** * The capstone review pipeline: text repair, enrichment, lake, warehouse

    A shallow embedding of [main-pipeline.py] and [sql_queries.py].

    Conventions.
    - A Python or Spark string is a [string]; a character is a code point
      below 256.
    - A nullable column value is an [option]: [None] is SQL null.
    - A Spark data frame is the [list] of its rows.
    - A Python exception is a value of [exn]; a function that may raise
      returns a [result].
    - [Places] takes the places whose address is an array of strings;
      [NullablePlaces] takes null addresses and null lines as well. *)

From Stdlib Require Import List String Ascii Bool Arith ZArith QArith Lia.
From Equations Require Import Equations.
Import ListNotations.

Local Close Scope Q_scope.
Local Close Scope Z_scope.
Local Open Scope string_scope.
Local Open Scope nat_scope.
Local Open Scope list_scope.

(* ===================================================================== *)
(** * Python exceptions *)
(* ===================================================================== *)

Inductive exn : Type :=
| ValueError (msg : string)
| IndexError (msg : string)
| DatabaseError (msg : string)
| TypeError (msg : string)
| AttributeError (msg : string).

Inductive result (A : Type) : Type :=
| Ok (a : A)
| Raise (e : exn).
Arguments Ok {A} a.
Arguments Raise {A} e.

Definition bind {A B : Type} (m : result A) (k : A -> result B) : result B :=
  match m with
  | Ok a => k a
  | Raise e => Raise e
  end.

Notation "x <- m ;; k" := (bind m (fun x => k))
  (at level 61, m at next level, right associativity).

(** [str(err)] *)
Definition str (e : exn) : string :=
  match e with
  | ValueError m | IndexError m | DatabaseError m
  | TypeError m | AttributeError m => m
  end.

(* ===================================================================== *)
(** * Strings *)
(* ===================================================================== *)

Module Text.

(** [strip_prefix pat s] is what is left of [s] after a leading [pat]. *)
Fixpoint strip_prefix (pat s : string) : option string :=
  match pat, s with
  | EmptyString, _ => Some s
  | String a p, String b t => if Ascii.eqb a b then strip_prefix p t else None
  | String _ _, EmptyString => None
  end.

Definition inspect {A : Type} (a : A) : {b : A | a = b} := exist _ a eq_refl.

(** The termination argument of the scans below: what [strip_prefix]
    leaves is shorter than the subject by the length of the pattern. *)
Ltac strip_prefix_length_tac :=
  let pat := fresh "pat" in
  let IH := fresh "IH" in
  intros pat; induction pat as [|? ? IH]; intros [|? ?] ? ?; simpl in *;
  try discriminate;
  match goal with
  | H : Some _ = Some _ |- _ => injection H as <-; reflexivity
  | H : (if ?b then _ else _) = Some _ |- _ =>
      destruct b; [f_equal; now apply IH | discriminate]
  end.

(** [F.regexp_replace(col, pat, rep)] for a pattern without
    metacharacters: every match, leftmost first and not overlapping, is
    replaced; the scan goes on after the match. The pipeline only uses
    non-empty patterns; the empty pattern is outside this model, which
    returns the string as it is. *)
Equations? replace_all (pat rep s : string) : string
  by wf (String.length s) lt :=
  replace_all EmptyString rep s := s;
  replace_all (String p ps) rep EmptyString := EmptyString;
  replace_all (String p ps) rep (String c t)
    with inspect (strip_prefix (String p ps) (String c t)) := {
    | exist _ (Some rest) _ => rep ++ replace_all (String p ps) rep rest;
    | exist _ None _ => String c (replace_all (String p ps) rep t) }.
Proof.
  change (strip_prefix (String p ps) (String c t) = Some rest) in e.
  assert (L : forall pat s rest, strip_prefix pat s = Some rest ->
                String.length s = String.length pat + String.length rest)
    by strip_prefix_length_tac.
  apply L in e. simpl in *. lia.
Qed.

(** ** The text normaliser

    [to_spark_friendly_json] reads the raw file as one [value] column of
    lines and chains six [regexp_replace] calls over it. *)

Definition dquote : string := String "034"%char EmptyString.
Definition u_dquote : string := String "u"%char dquote.

Definition fix_value (value : string) : string :=
  let value := replace_all "False" "false" value in
  let value := replace_all "True" "true" value in
  let value := replace_all "None" "null" value in
  let value := replace_all "u'" "'" value in
  let value := replace_all u_dquote dquote value in
  replace_all "\x" "\u00" value.

Definition to_spark_friendly_json (text_df : list string) : list string :=
  map fix_value text_df.

(** ** The rewrite as the specification words it

    One pass over the line: where a token of the table starts, its
    replacement is written and the scan goes on behind the token; any other
    byte is copied. *)

Definition token_table : list (string * string) :=
  [ ("False", "false"); ("True", "true"); ("None", "null");
    ("u'", "'"); (u_dquote, dquote); ("\x", "\u00") ].

Fixpoint token_at (table : list (string * string)) (s : string)
  : option (string * string) :=
  match table with
  | [] => None
  | (EmptyString, _) :: table' => token_at table' s
  | (tok, rep) :: table' =>
      match strip_prefix tok s with
      | Some rest => Some (rep, rest)
      | None => token_at table' s
      end
  end.

Equations? spec_rewrite (table : list (string * string)) (s : string) : string
  by wf (String.length s) lt :=
  spec_rewrite table EmptyString := EmptyString;
  spec_rewrite table (String c t) with inspect (token_at table (String c t)) := {
    | exist _ (Some (rep, rest)) _ => rep ++ spec_rewrite table rest;
    | exist _ None _ => String c (spec_rewrite table t) }.
Proof.
  assert (L : forall pat s rest, strip_prefix pat s = Some rest ->
                String.length s = String.length pat + String.length rest)
    by strip_prefix_length_tac.
  assert (T : forall tb s rep rest, token_at tb s = Some (rep, rest) ->
                String.length rest < String.length s).
  { intros tb. induction tb as [|[[|a tok] r] tb IH]; intros s0 rep0 rest0;
      cbn [token_at]; try discriminate; try apply IH.
    destruct (strip_prefix (String a tok) s0) as [rest'|] eqn:E; [|apply IH].
    intros [= <- <-]. apply L in E. simpl in E. lia. }
  change (token_at table (String c t) = Some (rep, rest)) in e.
  apply T in e. simpl in e. lia.
Qed.

(** ** Splitting

    [s.split(sep)] of Python for a non-empty [sep], which is also
    [F.split(col, sep)] of Spark for a separator without metacharacters:
    the fields between the matches of [sep], leftmost first, empty fields
    kept. The result is never empty. The pipeline never splits on the empty
    separator, which is outside this model: the string is returned as its
    only field. *)
Equations? split (sep s : string) : list string
  by wf (String.length s) lt :=
  split EmptyString s := [s];
  split (String p ps) EmptyString := [EmptyString];
  split (String p ps) (String c t)
    with inspect (strip_prefix (String p ps) (String c t)) := {
    | exist _ (Some rest) _ => EmptyString :: split (String p ps) rest;
    | exist _ None _ =>
        match split (String p ps) t with
        | [] => [String c EmptyString]
        | field :: fields => String c field :: fields
        end }.
Proof.
  change (strip_prefix (String p ps) (String c t) = Some rest) in e.
  assert (L : forall pat s rest, strip_prefix pat s = Some rest ->
                String.length s = String.length pat + String.length rest)
    by strip_prefix_length_tac.
  apply L in e. simpl in *. lia.
Qed.

(** [F.concat_ws(sep, array)] *)
Fixpoint concat_ws (sep : string) (fields : list string) : string :=
  match fields with
  | [] => EmptyString
  | [field] => field
  | field :: fields' => field ++ sep ++ concat_ws sep fields'
  end.

(** ** Regular expressions of the shape the pipeline uses

    A pattern is a sequence of one-character atoms, matched at the start of
    the subject ([^], no MULTILINE flag). Character classes are those of
    Python 3 on [str]: [\s] is every character for which [str.isspace]
    holds, [\d] every decimal digit; below code point 256 these are the
    sets written out here. *)
Inductive atom : Type :=
| Upper            (* [A-Z] *)
| Space            (* \s *)
| Digit            (* \d *)
| Lit (c : ascii). (* the character itself *)

Definition is_upper (c : ascii) : bool :=
  let n := nat_of_ascii c in ((65 <=? n) && (n <=? 90))%nat.

Definition is_digit (c : ascii) : bool :=
  let n := nat_of_ascii c in ((48 <=? n) && (n <=? 57))%nat.

Definition is_space (c : ascii) : bool :=
  let n := nat_of_ascii c in
  (((9 <=? n) && (n <=? 13)) || ((28 <=? n) && (n <=? 32))
   || (n =? 133) || (n =? 160))%nat.

Definition atom_test (a : atom) (c : ascii) : bool :=
  match a with
  | Upper => is_upper c
  | Space => is_space c
  | Digit => is_digit c
  | Lit c' => Ascii.eqb c' c
  end.

(** [re.search("^...", s)]: [None], or [Some] of [match.group()]. *)
Fixpoint re_search (pattern : list atom) (s : string) : option string :=
  match pattern with
  | [] => Some EmptyString
  | a :: pattern' =>
      match s with
      | EmptyString => None
      | String c t =>
          if atom_test a c
          then option_map (String c) (re_search pattern' t)
          else None
      end
  end.

(** ** Tests on patterns, for the comparison of the two rewrites *)

(** [clash pat u]: [pat] and [u] differ at a position both have, so [pat]
    cannot start where [u] starts, whatever follows [u]. *)
Fixpoint clash (pat u : string) : bool :=
  match pat, u with
  | String a p, String b v => if Ascii.eqb a b then clash p v else true
  | _, _ => false
  end.

(** No match of [pat] starts inside [w]. *)
Fixpoint inert (pat w : string) : bool :=
  match w with
  | EmptyString => true
  | String _ w' => clash pat w && inert pat w'
  end.

(** [a] occurs in [s]. *)
Fixpoint occurs (a : ascii) (s : string) : bool :=
  match s with
  | EmptyString => false
  | String b t => Ascii.eqb a b || occurs a t
  end.

End Text.

(* ===================================================================== *)
(** * Python sequences and Spark columns *)
(* ===================================================================== *)

(** [l[-1]] *)
Fixpoint last_item {A : Type} (l : list A) : result A :=
  match l with
  | [] => Raise (IndexError "list index out of range")
  | [x] => Ok x
  | _ :: l' => last_item l'
  end.

(** [F.split(col, sep)] on a nullable column *)
Definition F_split (col : option string) (sep : string) : option (list string) :=
  option_map (Text.split sep) col.

(** [col.getItem(i)]: null on a null array and past its end *)
Definition getItem (col : option (list string)) (i : nat) : option string :=
  match col with
  | None => None
  | Some fields => nth_error fields i
  end.

(** [F.length(col)] *)
Definition F_length (col : option string) : option nat :=
  option_map String.length col.

(* ===================================================================== *)
(** * Places enrichment *)
(* ===================================================================== *)

Module Places.

(** A parsed place, after [drop("phone", "closed", "gps", "hours")]. The
    address is an array of strings, possibly without elements. *)
Record raw : Type := {
  raw_gPlusPlaceId : option string;
  raw_name : option string;
  raw_address : list string;
  raw_price : option string
}.

(** A row of [prepped/places]. *)
Record row : Type := {
  gPlusPlaceId : option string;
  name : option string;
  address : string;
  price : option nat;
  state : option string;
  postcode : option string;
  country : option string;
  population : option Z
}.

(** ["^[A-Z]{2}\s\d{5}"] *)
Definition usa_pattern : list Text.atom :=
  [Text.Upper; Text.Upper; Text.Space;
   Text.Digit; Text.Digit; Text.Digit; Text.Digit; Text.Digit].

(** The pattern as the specification words it: two uppercase letters, one
    space, five digits, anchored at the start. *)
Definition spec_pattern : list Text.atom :=
  [Text.Upper; Text.Upper; Text.Lit " ";
   Text.Digit; Text.Digit; Text.Digit; Text.Digit; Text.Digit].

Definition extract_usa (address : list string) : result (option string) :=
  line <- last_item address ;;
  segment <- last_item (Text.split ", " line) ;;
  Ok (Text.re_search usa_pattern segment).

(** The three columns derived from the address. *)
Definition geo_columns (address : list string)
  : result (option string * option string * option string) :=
  state_and_zip_usa <- extract_usa address ;;
  let state := getItem (F_split state_and_zip_usa " ") 0 in
  let postcode := getItem (F_split state_and_zip_usa " ") 1 in
  let country := match state with None => None | Some _ => Some "USA" end in
  Ok (state, postcode, country).

(** [pop_df.groupby("Zip Code ZCTA").agg({"2010 Census Population": "sum"})] *)
Definition population_by_zip (pop_df : list (string * Z)) : list (string * Z) :=
  map (fun zip =>
         (zip, fold_right Z.add 0%Z
                 (map snd (filter (fun r => String.eqb (fst r) zip) pop_df))))
      (nodup string_dec (map fst pop_df)).

(** The left join of one place with the population table on the postcode:
    one row per match, one row with a null population when there is none. *)
Definition join_population (pop : list (string * Z)) (postcode : option string)
  : list (option Z) :=
  let found :=
    match postcode with
    | None => []
    | Some zip => filter (fun r => String.eqb (fst r) zip) pop
    end in
  match found with
  | [] => [None]
  | _ => map (fun r => Some (snd r)) found
  end.

Definition enrich (pop : list (string * Z)) (p : raw) : result (list row) :=
  geo <- geo_columns (raw_address p) ;;
  let '(state, postcode, country) := geo in
  Ok (map (fun population =>
             {| gPlusPlaceId := raw_gPlusPlaceId p;
                name := raw_name p;
                address := Text.concat_ws "," (raw_address p);
                price := F_length (raw_price p);
                state := state;
                postcode := postcode;
                country := country;
                population := population |})
          (join_population pop postcode)).

(** The rows written to [prepped/places]; the job fails when the UDF
    raises on any row. *)
Fixpoint enrich_all (pop : list (string * Z)) (places_df : list raw)
  : result (list row) :=
  match places_df with
  | [] => Ok []
  | p :: places_df' =>
      rows <- enrich pop p ;;
      rest <- enrich_all pop places_df' ;;
      Ok (rows ++ rest)
  end.

Definition process_places (places_df : list raw) (pop_df : list (string * Z))
  : result (list row) :=
  enrich_all (population_by_zip pop_df) places_df.

End Places.

(* ===================================================================== *)
(** * Column expressions with SQL nulls *)
(* ===================================================================== *)

Definition col_lt (a b : option Z) : option bool :=
  match a, b with
  | Some x, Some y => Some (x <? y)%Z
  | _, _ => None
  end.

Definition col_ge (a b : option Z) : option bool :=
  match a, b with
  | Some x, Some y => Some (x >=? y)%Z
  | _, _ => None
  end.

(** [a | b] *)
Definition col_or (a b : option bool) : option bool :=
  match a, b with
  | Some true, _ | _, Some true => Some true
  | Some false, Some false => Some false
  | _, _ => None
  end.

(** [F.when(c1, v1).when(c2, v2)...otherwise(v)]: the value of the first
    branch whose condition is true. *)
Fixpoint F_when {A : Type} (branches : list (option bool * option A))
         (otherwise : option A) : option A :=
  match branches with
  | [] => otherwise
  | (Some true, v) :: _ => v
  | _ :: branches' => F_when branches' otherwise
  end.

(** [F.avg(col)] over the rows of one window: nulls are skipped, and the
    average of no value is null. Doubles are idealised as rationals. *)
Fixpoint non_null {A : Type} (xs : list (option A)) : list A :=
  match xs with
  | [] => []
  | Some x :: xs' => x :: non_null xs'
  | None :: xs' => non_null xs'
  end.

Definition Qsum (xs : list Q) : Q := fold_right Qplus 0%Q xs.

Definition F_avg (xs : list (option Q)) : option Q :=
  match non_null xs with
  | [] => None
  | vs => Some (Qsum vs / inject_Z (Z.of_nat (List.length vs)))%Q
  end.

(** Two values fall into the same [Window.partitionBy] partition, or are
    the same for [distinct()]: nulls group together. *)
Definition same_group (a b : option string) : bool :=
  match a, b with
  | Some x, Some y => String.eqb x y
  | None, None => true
  | _, _ => false
  end.

(** The equality of a join key: a null key matches nothing. *)
Definition key_eq (a b : option string) : bool :=
  match a, b with
  | Some x, Some y => String.eqb x y
  | _, _ => false
  end.

(* ===================================================================== *)
(** * Reviews enrichment *)
(* ===================================================================== *)

Module Reviews.

(** A parsed review, after [drop("reviewerName")]. *)
Record raw : Type := {
  raw_gPlusPlaceId : option string;
  raw_gPlusUserId : option string;
  raw_rating : option Q;
  raw_unixReviewTime : option Z;
  raw_categories : option (list string);
  raw_reviewText : option string
}.

(** A row of [prepped/reviews]. [reviewTime] is kept as the instant, in
    seconds since the epoch. *)
Record row : Type := {
  gPlusPlaceId : option string;
  gPlusUserId : option string;
  rating : option Q;
  categories : option (list string);
  reviewText : option string;
  reviewTime : option Z;
  weekday : option string;
  day_night : option string;
  userAvgRating : option Q
}.

(** The mean as the specification words it: the sum of the values over
    their number; no value, no mean. *)
Definition arithmetic_mean (values : list Q) : option Q :=
  match values with
  | [] => None
  | _ => Some (Qsum values / inject_Z (Z.of_nat (List.length values)))%Q
  end.

(** All the ratings a user has given in the frame. *)
Definition ratings_of_user (reviews_df : list raw) (user : option string) : list Q :=
  non_null (map raw_rating
                (filter (fun r => same_group (raw_gPlusUserId r) user) reviews_df)).

Section Session.

(** The session time zone: seconds east of UTC at a given instant. *)
Variable utc_offset : Z -> Z.

(** [F.hour(col)] *)
Definition F_hour (ts : option Z) : option Z :=
  option_map (fun t => ((t + utc_offset t) / 3600) mod 24)%Z ts.

(** [F.date_format(col, "E")]; the epoch began on a Thursday. *)
Definition F_date_format_E (ts : option Z) : option string :=
  option_map
    (fun t => nth (Z.to_nat ((((t + utc_offset t) / 86400) + 4) mod 7)%Z)
                  ["Sun"; "Mon"; "Tue"; "Wed"; "Thu"; "Fri"; "Sat"] "")
    ts.

Definition day_night_of (reviewTime : option Z) : option string :=
  F_when
    [ (col_or (col_lt (F_hour reviewTime) (Some 8%Z))
              (col_ge (F_hour reviewTime) (Some 18%Z)), Some "night");
      (col_or (col_ge (F_hour reviewTime) (Some 8%Z))
              (col_lt (F_hour reviewTime) (Some 18%Z)), Some "day") ]
    None.

(** The ratings in the window of [r]: those of all rows of the frame with
    the [gPlusUserId] of [r]. *)
Definition user_window (reviews_df : list raw) (r : raw) : list (option Q) :=
  map raw_rating
      (filter (fun r' => same_group (raw_gPlusUserId r') (raw_gPlusUserId r))
              reviews_df).

Definition enrich (reviews_df : list raw) (r : raw) : row :=
  let reviewTime := raw_unixReviewTime r in
  {| gPlusPlaceId := raw_gPlusPlaceId r;
     gPlusUserId := raw_gPlusUserId r;
     rating := raw_rating r;
     categories := raw_categories r;
     reviewText := raw_reviewText r;
     reviewTime := reviewTime;
     weekday := F_date_format_E reviewTime;
     day_night := day_night_of reviewTime;
     userAvgRating := F_avg (user_window reviews_df r) |}.

(** The rows written to [prepped/reviews]. *)
Definition process_reviews (reviews_df : list raw) : list row :=
  map (enrich reviews_df) reviews_df.

End Session.

End Reviews.

(* ===================================================================== *)
(** * The data lake *)
(* ===================================================================== *)

Module Lake.

(** A row of the lake after [explode]: one per review, place and category. *)
Record row : Type := {
  review : Reviews.row;
  place : Places.row;
  category : string
}.

(** The join key column of a lake row. *)
Definition gPlusPlaceId (r : row) : option string :=
  Reviews.gPlusPlaceId (review r).

(** A row of [temp_lake]. *)
Record staging_row : Type := {
  st_gPlusPlaceId : option string;
  st_category : string;
  st_day_night : option string;
  st_gPlusUserId : option string;
  st_rating : option Q;
  st_reviewTime : option Z;
  st_userAvgRating : option Q;
  st_weekday : option string;
  st_address : string;
  st_country : option string;
  st_name : option string;
  st_population : option Z;
  st_postcode : option string;
  st_price : option nat;
  st_state : option string
}.

Definition select_staging (r : row) : staging_row :=
  {| st_gPlusPlaceId := gPlusPlaceId r;
     st_category := category r;
     st_day_night := Reviews.day_night (review r);
     st_gPlusUserId := Reviews.gPlusUserId (review r);
     st_rating := Reviews.rating (review r);
     st_reviewTime := Reviews.reviewTime (review r);
     st_userAvgRating := Reviews.userAvgRating (review r);
     st_weekday := Reviews.weekday (review r);
     st_address := Places.address (place r);
     st_country := Places.country (place r);
     st_name := Places.name (place r);
     st_population := Places.population (place r);
     st_postcode := Places.postcode (place r);
     st_price := Places.price (place r);
     st_state := Places.state (place r) |}.

(** [reviews_df.filter(reviews_df.categories.isNotNull())] *)
Definition with_categories (reviews_df : list Reviews.row) : list Reviews.row :=
  filter (fun r => match Reviews.categories r with Some _ => true | None => false end)
         reviews_df.

(** [places_df.filter(places_df.country == "USA")] *)
Definition usa_places (places_df : list Places.row) : list Places.row :=
  filter (fun p => match Places.country p with
                   | Some c => String.eqb c "USA"
                   | None => false
                   end)
         places_df.

(** [reviews_df.join(places_df, "gPlusPlaceId", how="inner")] *)
Definition inner_join (reviews_df : list Reviews.row) (places_df : list Places.row)
  : list (Reviews.row * Places.row) :=
  flat_map (fun r =>
              map (pair r)
                  (filter (fun p => key_eq (Reviews.gPlusPlaceId r)
                                           (Places.gPlusPlaceId p))
                          places_df))
           reviews_df.

(** [F.explode(F.col("categories"))], renamed to [category] *)
Definition explode (lake : list (Reviews.row * Places.row)) : list row :=
  flat_map (fun rp =>
              match Reviews.categories (fst rp) with
              | None => []
              | Some cats =>
                  map (fun c => {| review := fst rp; place := snd rp; category := c |})
                      cats
              end)
           lake.

(** [lake.select("category").distinct().count()] *)
Definition distinct_categories (lake : list row) : nat :=
  List.length (nodup string_dec (map category lake)).

(** [F.count("gPlusPlaceId").over(Window.partitionBy("category"))] at row
    [r]: the rows of its category whose [gPlusPlaceId] is not null. *)
Definition num_reviews_for_cat (lake : list row) (r : row) : nat :=
  List.length (filter (fun r' => match gPlusPlaceId r' with Some _ => true | None => false end)
                 (filter (fun r' => String.eqb (category r') (category r)) lake)).

(** [lake.filter(lake.num_reviews_for_cat > 10)] *)
Definition drop_rare (lake : list row) : list row :=
  filter (fun r => 10 <? num_reviews_for_cat lake r) lake.

(** The lake as it stands before the first check and after the explosion. *)
Definition joined (reviews_df : list Reviews.row) (places_df : list Places.row)
  : list (Reviews.row * Places.row) :=
  inner_join (with_categories reviews_df) (usa_places places_df).

Definition exploded (reviews_df : list Reviews.row) (places_df : list Places.row)
  : list row :=
  explode (joined reviews_df places_df).

(** The number of places a review is joined with. *)
Definition matching_places (places_df : list Places.row) (r : Reviews.row) : nat :=
  List.length (filter (fun p => key_eq (Reviews.gPlusPlaceId r)
                                       (Places.gPlusPlaceId p))
                      places_df).

Record lakes : Type := {
  reviews_lake : list row;
  temp_lake : list staging_row
}.

Definition too_many_rows : exn := ValueError "Join resulted in too many rows".
Definition filtered_incorrectly : exn :=
  ValueError "Categories were incorrectly filtered".
Definition not_populated : exn := ValueError "Data lakes were not populated".

(** The result is what the run leaves in [reviews_lake] and [temp_lake];
    reading a lake back gives the rows that were written. *)
Definition create_data_lake (reviews_df : list Reviews.row)
           (places_df : list Places.row) : result lakes :=
  let reviews_df := with_categories reviews_df in
  let places_df := usa_places places_df in
  let lake := inner_join reviews_df places_df in
  let reviews_count := List.length reviews_df in
  let lake_count := List.length lake in
  if reviews_count <? lake_count then Raise too_many_rows else
  let lake := explode lake in
  let pre_filter_count := distinct_categories lake in
  let lake := drop_rare lake in
  let post_filter_count := distinct_categories lake in
  if pre_filter_count <=? post_filter_count then Raise filtered_incorrectly else
  let written := {| reviews_lake := lake; temp_lake := map select_staging lake |} in
  let count_reviews := List.length (reviews_lake written) in
  let count_temp := List.length (temp_lake written) in
  if (count_reviews =? 0) || (count_temp =? 0) then Raise not_populated
  else Ok written.

End Lake.

(* ===================================================================== *)
(** * Warehouse synchronisation *)
(* ===================================================================== *)

Module Warehouse.

(** The statements of [sql_queries.py], by the names they have there. *)
Inductive statement : Type :=
| staging_table_drop
| users_table_drop
| places_table_drop
| population_table_drop
| reviews_table_drop
| staging_table_create
| staging_table_copy (source iam_role : string)
| staging_table_filter (category : string)
| users_table_create
| places_table_create
| population_table_create
| reviews_table_create
| users_table_insert
| places_table_insert
| population_table_insert
| reviews_table_insert
| sql_check_filled (table : string).

Definition create_table_queries : list statement :=
  [users_table_create; places_table_create; population_table_create;
   reviews_table_create].
Definition drop_table_queries : list statement :=
  [reviews_table_drop; users_table_drop; places_table_drop;
   population_table_drop].
Definition insert_table_queries : list statement :=
  [users_table_insert; places_table_insert; population_table_insert;
   reviews_table_insert].

(** The connection and its cursor, as the pipeline sees them: each call
    moves the session on and may raise. *)
Record driver (session : Type) : Type := {
  execute : statement -> session -> session * option exn;
  commit : session -> session * option exn;
  fetchall : session -> session * list (list Z)
}.
Arguments execute {session} _ _ _.
Arguments commit {session} _ _.
Arguments fetchall {session} _ _.

(** What a run does that can be observed from outside. *)
Inductive event : Type :=
| Printed (line : string)
| Executed (query : statement) (raised : option exn)
| Committed (raised : option exn).

(** The statements a log shows as sent, in order. *)
Fixpoint statements_sent (log : list event) : list statement :=
  match log with
  | [] => []
  | Executed query _ :: log' => query :: statements_sent log'
  | _ :: log' => statements_sent log'
  end.

(** Every exception a log shows is followed at once by its printed text. *)
Fixpoint failures_logged (log : list event) : Prop :=
  match log with
  | [] => True
  | Executed _ (Some err) :: log' | Committed (Some err) :: log' =>
      match log' with
      | Printed line :: log'' => line = str err /\ failures_logged log''
      | _ => False
      end
  | _ :: log' => failures_logged log'
  end.

Section Sync.

Context {session : Type} (db : driver session).

(** The configuration values the statements are formatted with. *)
Variable s3_bucket : string.
Variable CATEGORY : string.

(** A computation on the session that logs its events and may raise. *)
Definition io (A : Type) : Type := session -> result A * session * list event.

Definition ret {A : Type} (a : A) : io A := fun s => (Ok a, s, []).

Definition raise {A : Type} (e : exn) : io A := fun s => (Raise e, s, []).

Definition seq {A B : Type} (m : io A) (k : A -> io B) : io B :=
  fun s =>
    match m s with
    | (Ok a, s1, log1) =>
        match k a s1 with
        | (r, s2, log2) => (r, s2, log1 ++ log2)
        end
    | (Raise e, s1, log1) => (Raise e, s1, log1)
    end.

(** [try: body except Exception as err: handler(err)] *)
Definition try_except (body : io unit) (handler : exn -> io unit) : io unit :=
  fun s =>
    match body s with
    | (Ok tt, s1, log1) => (Ok tt, s1, log1)
    | (Raise err, s1, log1) =>
        match handler err s1 with
        | (r, s2, log2) => (r, s2, log1 ++ log2)
        end
    end.

Definition print (line : string) : io unit :=
  fun s => (Ok tt, s, [Printed line]).

Definition cur_execute (query : statement) : io unit :=
  fun s =>
    match execute db query s with
    | (s1, None) => (Ok tt, s1, [Executed query None])
    | (s1, Some err) => (Raise err, s1, [Executed query (Some err)])
    end.

Definition conn_commit : io unit :=
  fun s =>
    match commit db s with
    | (s1, None) => (Ok tt, s1, [Committed None])
    | (s1, Some err) => (Raise err, s1, [Committed (Some err)])
    end.

Definition cur_fetchall : io (list (list Z)) :=
  fun s => match fetchall db s with (s1, rows) => (Ok rows, s1, []) end.

Notation "m1 ;;; m2" := (seq m1 (fun _ => m2))
  (at level 62, right associativity).

(** [for x in xs: body(x)] *)
Fixpoint for_each {A : Type} (xs : list A) (body : A -> io unit) : io unit :=
  match xs with
  | [] => ret tt
  | x :: xs' => body x ;;; for_each xs' body
  end.

Definition load_staging_table (arn : string) : io unit :=
  print "Dropping staging table" ;;;
  try_except (cur_execute staging_table_drop ;;; conn_commit)
             (fun err => print (str err)) ;;;
  print "Creating staging table" ;;;
  try_except (cur_execute staging_table_create ;;; conn_commit)
             (fun e => print (str e)) ;;;
  print ("Copying staging table from S3 location: " ++ s3_bucket ++ "/temp_lake")%string ;;;
  try_except (cur_execute (staging_table_copy (s3_bucket ++ "/temp_lake")%string arn) ;;;
              conn_commit)
             (fun e => print (str e)) ;;;
  print "Filtering irrelevant categories from staging table" ;;;
  try_except (cur_execute (staging_table_filter CATEGORY) ;;; conn_commit)
             (fun err => print (str err)).

Definition load_final_tables : io unit :=
  for_each drop_table_queries
    (fun query => try_except (cur_execute query ;;; conn_commit)
                             (fun err => print (str err))) ;;;
  for_each create_table_queries
    (fun query => try_except (cur_execute query ;;; conn_commit)
                             (fun err => print (str err))) ;;;
  for_each insert_table_queries
    (fun query => try_except (cur_execute query ;;; conn_commit)
                             (fun err => print (str err))).

Definition check_data_quality (tables : list string) : io unit :=
  for_each tables
    (fun table =>
       cur_execute (sql_check_filled table) ;;;
       seq cur_fetchall (fun rows =>
       if List.length rows =? 0
       then raise (ValueError ("Data quality check failed. Table " ++ table
                               ++ " is empty")%string)
       else print ("Data quality check passed, " ++ table ++ " is filled")%string)).

Definition drop_staging_table : io unit :=
  try_except (cur_execute staging_table_drop ;;; conn_commit)
             (fun err => print (str err)).

(** The table list of [main]. *)
Definition tables : list string := ["reviews"; "places"; "population"; "users"].

(** The warehouse part of [main], from the open connection to the drop of
    the staging table. *)
Definition sync (arn : string) : io unit :=
  print "Connected to Redshift" ;;;
  load_staging_table arn ;;;
  load_final_tables ;;;
  check_data_quality tables ;;;
  drop_staging_table.

(** [m] raises nothing, sends exactly the statements [queries] in this
    order, and prints every exception it meets. *)
Definition runs_through (m : io unit) (queries : list statement) : Prop :=
  forall s, exists s' log,
      m s = (Ok tt, s', log)
      /\ statements_sent log = queries
      /\ failures_logged log.

End Sync.

(** A warehouse at rest, described by the number of rows of each of its
    relations: [SELECT COUNT( * )] answers one row holding that number and
    fails on a relation that does not exist; the other statements are
    accepted and leave the numbers alone. The session is the pending
    result set of the cursor. *)
Definition at_rest (rows_in : string -> option nat) : driver (list (list Z)) :=
  {| execute := fun query pending =>
       match query with
       | sql_check_filled table =>
           match rows_in table with
           | Some n => ([[Z.of_nat n]], None)
           | None => (pending, Some (DatabaseError
                        ("relation public." ++ table ++ " does not exist")%string))
           end
       | _ => ([], None)
       end;
     commit := fun pending => (pending, None);
     fetchall := fun pending => ([], pending) |}.

End Warehouse.

(* ===================================================================== *)
(** * Occurrences of a pattern in a line *)
(* ===================================================================== *)

(** [pat in s] of Python: [pat] matches somewhere in [s]. *)
Fixpoint contains (pat s : string) : bool :=
  match Text.strip_prefix pat s with
  | Some _ => true
  | None =>
      match s with
      | EmptyString => false
      | String _ t => contains pat t
      end
  end.

(** No token of the table occurs in the line. *)
Definition token_free (table : list (string * string)) (s : string) : bool :=
  forallb (fun entry => negb (contains (fst entry) s)) table.

(** Every suffix of [t] differs from every replacement at a position both
    have: no replacement can carry on a match that has come as far as a
    suffix of [t]. *)
Fixpoint resists (reps : list string) (t : string) : bool :=
  match t with
  | EmptyString => true
  | String _ t' => forallb (Text.clash t) reps && resists reps t'
  end.

(* ===================================================================== *)
(** * The census total of a postcode *)
(* ===================================================================== *)

(** The sum of the census rows of a zip code; absent when it has none. *)
Definition census_total (pop_df : list (string * Z)) (zip : string) : option Z :=
  match filter (fun r => String.eqb (fst r) zip) pop_df with
  | [] => None
  | rows => Some (fold_right Z.add 0%Z (map snd rows))
  end.

(** The row that the enrichment makes of a place. *)
Definition row_of (pop_df : list (string * Z)) (p : Places.raw) (r : Places.row) : Prop :=
  Places.gPlusPlaceId r = Places.raw_gPlusPlaceId p
  /\ Places.name r = Places.raw_name p
  /\ Places.address r = Text.concat_ws "," (Places.raw_address p)
  /\ Places.price r = F_length (Places.raw_price p)
  /\ Places.geo_columns (Places.raw_address p)
     = Ok (Places.state r, Places.postcode r, Places.country r)
  /\ Places.population r = match Places.postcode r with
                           | None => None
                           | Some zip => census_total pop_df zip
                           end.

(* ===================================================================== *)
(** * Rare and frequent categories of a lake *)
(* ===================================================================== *)

(** The number of rows of the lake that have the category of [r]. *)
Definition rows_of_category (lake : list Lake.row) (r : Lake.row) : nat :=
  count_occ string_dec (map Lake.category lake) (Lake.category r).

(** Some row of the lake has a category of at most 10 rows. *)
Definition has_rare (lake : list Lake.row) : bool :=
  existsb (fun r => rows_of_category lake r <=? 10) lake.

(** Some row of the lake has a category of more than 10 rows. *)
Definition has_frequent (lake : list Lake.row) : bool :=
  existsb (fun r => 10 <? rows_of_category lake r) lake.

(* ===================================================================== *)
(** * The Spark part of [main] *)
(* ===================================================================== *)

(** [process_places], [process_reviews] and [create_data_lake] in the order
    of [main]. Each step reads what the step before has written; the
    prepped frames are read back as they were written. *)
Definition spark_stage (utc_offset : Z -> Z) (places_raw : list Places.raw)
           (pop_df : list (string * Z)) (reviews_raw : list Reviews.raw)
  : result Lake.lakes :=
  places_df <- Places.process_places places_raw pop_df ;;
  let reviews_df := Reviews.process_reviews utc_offset reviews_raw in
  Lake.create_data_lake reviews_df places_df.

(* ===================================================================== *)
(** * Places whose address is null or holds null lines *)
(* ===================================================================== *)

(** The schema that [spark.read.json] infers lets [address] be null and
    lets an array hold null lines. [Places] above takes the addresses that
    are arrays of strings; here the same steps are taken on any address. *)
Module NullablePlaces.

Record raw : Type := {
  raw_gPlusPlaceId : option string;
  raw_name : option string;
  raw_address : option (list (option string));
  raw_price : option string
}.

Definition not_subscriptable : exn :=
  TypeError "'NoneType' object is not subscriptable".
Definition no_split : exn :=
  AttributeError "'NoneType' object has no attribute 'split'".

(** The UDF is called with [None] for a null array, and a null line is
    [None] in the list: [None[-1]] and [None.split] raise. *)
Definition extract_usa (address : option (list (option string)))
  : result (option string) :=
  match address with
  | None => Raise not_subscriptable
  | Some lines =>
      line <- last_item lines ;;
      match line with
      | None => Raise no_split
      | Some line =>
          segment <- last_item (Text.split ", " line) ;;
          Ok (Text.re_search Places.usa_pattern segment)
      end
  end.

(** [F.concat_ws(sep, col)] on an array column: null lines are skipped, a
    null array gives the empty string. *)
Definition F_concat_ws (sep : string) (col : option (list (option string)))
  : string :=
  match col with
  | None => EmptyString
  | Some lines => Text.concat_ws sep (non_null lines)
  end.

Definition geo_columns (address : option (list (option string)))
  : result (option string * option string * option string) :=
  state_and_zip_usa <- extract_usa address ;;
  let state := getItem (F_split state_and_zip_usa " ") 0 in
  let postcode := getItem (F_split state_and_zip_usa " ") 1 in
  let country := match state with None => None | Some _ => Some "USA" end in
  Ok (state, postcode, country).

Definition enrich (pop : list (string * Z)) (p : raw) : result (list Places.row) :=
  geo <- geo_columns (raw_address p) ;;
  let '(state, postcode, country) := geo in
  Ok (map (fun population =>
             {| Places.gPlusPlaceId := raw_gPlusPlaceId p;
                Places.name := raw_name p;
                Places.address := F_concat_ws "," (raw_address p);
                Places.price := F_length (raw_price p);
                Places.state := state;
                Places.postcode := postcode;
                Places.country := country;
                Places.population := population |})
          (Places.join_population pop postcode)).

Fixpoint enrich_all (pop : list (string * Z)) (places_df : list raw)
  : result (list Places.row) :=
  match places_df with
  | [] => Ok []
  | p :: places_df' =>
      rows <- enrich pop p ;;
      rest <- enrich_all pop places_df' ;;
      Ok (rows ++ rest)
  end.

Definition process_places (places_df : list raw) (pop_df : list (string * Z))
  : result (list Places.row) :=
  enrich_all (Places.population_by_zip pop_df) places_df.

(** A place of [Places] as a place without nulls in its address. *)
Definition of_strings (p : Places.raw) : raw :=
  {| raw_gPlusPlaceId := Places.raw_gPlusPlaceId p;
     raw_name := Places.raw_name p;
     raw_address := Some (map Some (Places.raw_address p));
     raw_price := Places.raw_price p |}.

(** The Spark part of [main] on such places. *)
Definition spark_stage (utc_offset : Z -> Z) (places_raw : list raw)
           (pop_df : list (string * Z)) (reviews_raw : list Reviews.raw)
  : result Lake.lakes :=
  places_df <- process_places places_raw pop_df ;;
  let reviews_df := Reviews.process_reviews utc_offset reviews_raw in
  Lake.create_data_lake reviews_df places_df.

End NullablePlaces.

(* ===================================================================== *)
(** * The calls to the cloud: [launch_redshift_cluster], [clear_temp_data] *)
(* ===================================================================== *)

Module Cloud.

Local Set Warnings "-register-all".

(** What the service calls take and answer: strings, integers, lists and
    dictionaries with string keys. *)
Inductive value : Type :=
| Str (s : string)
| Num (n : Z)
| Items (items : list value)
| Dict (entries : list (string * value)).

Inductive error : Type :=
| KeyError (key : value)
| IndexError
| TypeError
| ValueError            (* of [int] *)
| ClientError (message : string).

Inductive res (A : Type) : Type :=
| Val (a : A)
| Exc (e : error).
Arguments Val {A} a.
Arguments Exc {A} e.

(** [v[key]] for a string [key] *)
Definition item (v : value) (key : string) : res value :=
  match v with
  | Dict entries =>
      match find (fun entry => String.eqb (fst entry) key) entries with
      | Some entry => Val (snd entry)
      | None => Exc (KeyError (Str key))
      end
  | _ => Exc TypeError
  end.

(** [v[i]] for a natural number [i] *)
Definition index (v : value) (i : nat) : res value :=
  match v with
  | Items items =>
      match nth_error items i with
      | Some x => Val x
      | None => Exc IndexError
      end
  | Str s =>
      match String.get i s with
      | Some c => Val (Str (String c EmptyString))
      | None => Exc IndexError
      end
  | Dict _ => Exc (KeyError (Num (Z.of_nat i)))
  | Num _ => Exc TypeError
  end.

Fixpoint chars (s : string) : list value :=
  match s with
  | EmptyString => []
  | String c t => Str (String c EmptyString) :: chars t
  end.

(** The elements that [for x in v] and [list(v)] go through. *)
Definition elements (v : value) : res (list value) :=
  match v with
  | Items items => Val items
  | Dict entries => Val (map (fun entry => Str (fst entry)) entries)
  | Str s => Val (chars s)
  | Num _ => Exc TypeError
  end.

(** [status != 'available'] is false on this string only. *)
Definition is_available (status : value) : bool :=
  match status with
  | Str s => String.eqb s "available"
  | _ => false
  end.

(** The calls of the two functions, with the arguments that are not
    constants of the source. The policy document of [create_role] is the
    JSON text of a constant. *)
Inductive call : Type :=
| create_role (RoleName : string)
| attach_role_policy (RoleName PolicyArn : string)
| get_role (RoleName : string)
| create_cluster (ClusterType NodeType : string) (NumberOfNodes : Z)
                 (DBName ClusterIdentifier MasterUsername MasterUserPassword : string)
                 (IamRoles : list value)
| describe_clusters (ClusterIdentifier : string)
| security_groups_all (VpcId : value)
| authorize_ingress (group : value) (FromPort ToPort : Z)
| list_objects_v2 (Bucket Prefix : string)
| delete_object (Bucket : string) (Key : value).

Inductive printed : Type :=
| Text (v : value)
| Raised (e : error).

Inductive event : Type :=
| Print (args : list printed)
| Call (c : call) (answer : res value)
| Sleep (seconds : nat).

(** The options read from [credentials.cfg]. *)
Record config : Type := {
  DWH_CLUSTER_TYPE : string;
  DWH_NUM_NODES : string;
  DWH_NODE_TYPE : string;
  DWH_CLUSTER_IDENTIFIER : string;
  DWH_DB : string;
  DWH_DB_USER : string;
  DWH_DB_PASSWORD : string;
  DWH_PORT : string;
  DWH_IAM_ROLE_NAME : string;
  S3_BUCKET : string
}.

(** The calls a log shows, in order. *)
Fixpoint calls (log : list event) : list call :=
  match log with
  | [] => []
  | Call c _ :: log' => c :: calls log'
  | _ :: log' => calls log'
  end.

(** The seconds a log shows as slept. *)
Fixpoint slept (log : list event) : nat :=
  match log with
  | [] => 0
  | Sleep seconds :: log' => seconds + slept log'
  | _ :: log' => slept log'
  end.

(** The cluster state an event shows, when it is a print of the polling
    loop. *)
Definition state_shown (e : event) : option value :=
  match e with
  | Print [Text (Str label); Text status; _] =>
      if String.eqb label "Cluster status is:" then Some status else None
  | _ => None
  end.

(** The cluster states a log shows as printed, in order. *)
Fixpoint states_printed (log : list event) : list value :=
  match log with
  | [] => []
  | e :: log' =>
      match state_shown e with
      | Some status => status :: states_printed log'
      | None => states_printed log'
      end
  end.

Section Calls.

(** The services: a call moves the cloud on and answers or raises. *)
Context {cloud : Type} (aws : call -> cloud -> cloud * res value).

(** [int(s)] of Python on a string. *)
Variable int : string -> res Z.

Variable cfg : config.

Definition io (A : Type) : Type := cloud -> res A * cloud * list event.

Definition ret {A : Type} (a : A) : io A := fun s => (Val a, s, []).

Definition lift {A : Type} (r : res A) : io A := fun s => (r, s, []).

Definition seq {A B : Type} (m : io A) (k : A -> io B) : io B :=
  fun s =>
    match m s with
    | (Val a, s1, log1) =>
        match k a s1 with
        | (r, s2, log2) => (r, s2, log1 ++ log2)
        end
    | (Exc e, s1, log1) => (Exc e, s1, log1)
    end.

(** [try: body except Exception as e: handler(e)] *)
Definition try_except (body : io unit) (handler : error -> io unit) : io unit :=
  fun s =>
    match body s with
    | (Val tt, s1, log1) => (Val tt, s1, log1)
    | (Exc e, s1, log1) =>
        match handler e s1 with
        | (r, s2, log2) => (r, s2, log1 ++ log2)
        end
    end.

Definition print (args : list printed) : io unit :=
  fun s => (Val tt, s, [Print args]).

Definition sleep (seconds : nat) : io unit :=
  fun s => (Val tt, s, [Sleep seconds]).

Definition request (c : call) : io value :=
  fun s => match aws c s with (s1, answer) => (answer, s1, [Call c answer]) end.

Notation "x <-- m ;;; k" := (seq m (fun x => k))
  (at level 62, m at next level, right associativity).
Notation "m1 ;;; m2" := (seq m1 (fun _ => m2))
  (at level 62, right associativity).

Fixpoint for_each {A : Type} (xs : list A) (body : A -> io unit) : io unit :=
  match xs with
  | [] => ret tt
  | x :: xs' => body x ;;; for_each xs' body
  end.

(** [redshift.describe_clusters(...)['Clusters'][0]['ClusterStatus']] *)
Definition cluster_status : io value :=
  answer <-- request (describe_clusters (DWH_CLUSTER_IDENTIFIER cfg)) ;;;
  clusters <-- lift (item answer "Clusters") ;;;
  cluster <-- lift (index clusters 0) ;;;
  lift (item cluster "ClusterStatus").

Definition waiting (status : value) : list printed :=
  [Text (Str "Cluster status is:"); Text status;
   Text (Str "- Waiting until cluster becomes available")].

(** The [while status != 'available'] loop, run for [fuel] rounds at most:
    [None] when the rounds are used up. *)
Fixpoint wait_until_available (fuel : nat) (status : value) : io (option unit) :=
  if is_available status then ret (Some tt)
  else
    match fuel with
    | 0 => ret None
    | S fuel' =>
        sleep 60 ;;;
        status' <-- cluster_status ;;;
        print (waiting status') ;;;
        wait_until_available fuel' status'
    end.

(** Polling from [s], the cluster is reported available at the poll
    number [n + 1] at the latest, every answer before having a state. *)
Fixpoint available_within (n : nat) (s : cloud) : Prop :=
  match cluster_status s with
  | (Val status, s1, _) =>
      is_available status = true
      \/ match n with
         | 0 => False
         | S n' => available_within n' s1
         end
  | _ => False
  end.

Definition launch_redshift_cluster (fuel : nat) : io (option (value * value)) :=
  try_except
    (print [Text (Str "Creating a new IAM Role")] ;;;
     dwhRole <-- request (create_role (DWH_IAM_ROLE_NAME cfg)) ;;;
     ret tt)
    (fun e => print [Raised e]) ;;;
  print [Text (Str "Attaching AmazonS3ReadOnlyAccess Policy")] ;;;
  attached <-- request (attach_role_policy (DWH_IAM_ROLE_NAME cfg)
                          "arn:aws:iam::aws:policy/AmazonS3ReadOnlyAccess") ;;;
  metadata <-- lift (item attached "ResponseMetadata") ;;;
  code <-- lift (item metadata "HTTPStatusCode") ;;;
  got <-- request (get_role (DWH_IAM_ROLE_NAME cfg)) ;;;
  role <-- lift (item got "Role") ;;;
  roleArn <-- lift (item role "Arn") ;;;
  print [Text (Str "Role ARN is "); Text roleArn] ;;;
  print [Text (Str "Creating Redshift cluster")] ;;;
  try_except
    (nodes <-- lift (int (DWH_NUM_NODES cfg)) ;;;
     created <-- request (create_cluster (DWH_CLUSTER_TYPE cfg) (DWH_NODE_TYPE cfg)
                            nodes (DWH_DB cfg) (DWH_CLUSTER_IDENTIFIER cfg)
                            (DWH_DB_USER cfg) (DWH_DB_PASSWORD cfg) [roleArn]) ;;;
     ret tt)
    (fun e => print [Raised e]) ;;;
  status <-- cluster_status ;;;
  print (waiting status) ;;;
  available <-- wait_until_available fuel status ;;;
  match available with
  | None => ret None
  | Some _ =>
      print [Text (Str "Retrieving endpoint and role arn")] ;;;
      answer <-- request (describe_clusters (DWH_CLUSTER_IDENTIFIER cfg)) ;;;
      clusters <-- lift (item answer "Clusters") ;;;
      cluster_desc <-- lift (index clusters 0) ;;;
      endpoint <-- lift (item cluster_desc "Endpoint") ;;;
      DWH_ENDPOINT <-- lift (item endpoint "Address") ;;;
      roles <-- lift (item cluster_desc "IamRoles") ;;;
      first_role <-- lift (index roles 0) ;;;
      DWH_ROLE_ARN <-- lift (item first_role "IamRoleArn") ;;;
      print [Text (Str "Opening incoming TCP port to access cluster endpoint")] ;;;
      try_except
        (vpc_id <-- lift (item cluster_desc "VpcId") ;;;
         groups <-- request (security_groups_all vpc_id) ;;;
         group_list <-- lift (elements groups) ;;;
         default_sg <-- lift (index (Items group_list) 0) ;;;
         print [Text default_sg] ;;;
         from_port <-- lift (int (DWH_PORT cfg)) ;;;
         to_port <-- lift (int (DWH_PORT cfg)) ;;;
         authorized <-- request (authorize_ingress default_sg from_port to_port) ;;;
         ret tt)
        (fun e => print [Raised e]) ;;;
      ret (Some (DWH_ENDPOINT, DWH_ROLE_ARN))
  end.

(** One round of the two loops of [clear_temp_data]. *)
Definition delete_file (file : value) : io unit :=
  shown <-- lift (item file "Key") ;;;
  print [Text (Str "Deleting"); Text shown] ;;;
  key <-- lift (item file "Key") ;;;
  deleted <-- request (delete_object (S3_BUCKET cfg) key) ;;;
  ret tt.

Definition clear_temp_data : io unit :=
  temp_lake <-- request (list_objects_v2 (S3_BUCKET cfg) "temp_lake/") ;;;
  contents <-- lift (item temp_lake "Contents") ;;;
  files <-- lift (elements contents) ;;;
  for_each files delete_file ;;;
  fixed_files <-- request (list_objects_v2 (S3_BUCKET cfg) "fixed/") ;;;
  contents <-- lift (item fixed_files "Contents") ;;;
  files <-- lift (elements contents) ;;;
  for_each files delete_file.

(** Nothing in the log of [m] is a sleep or a print of the polling loop. *)
Definition quiet {A : Type} (m : io A) : Prop :=
  forall s, states_printed (snd (m s)) = [] /\ slept (snd (m s)) = 0.

End Calls.

End Cloud.

(* ===================================================================== *)
(** * Small frames and warehouses to run the pipeline on *)
(* ===================================================================== *)

Definition tab : string := String "009"%char EmptyString.


Definition utc (_ : Z) : Z := 0%Z.

Definition usa_place (id : string) : Places.row :=
  {| Places.gPlusPlaceId := Some id;
     Places.name := Some "Joe's";
     Places.address := "123 Main St,Los Angeles, CA 90210";
     Places.price := Some 2;
     Places.state := Some "CA";
     Places.postcode := Some "90210";
     Places.country := Some "USA";
     Places.population := None |}.

Definition review_of (place user category : string) (stars : Q) : Reviews.raw :=
  {| Reviews.raw_gPlusPlaceId := Some place;
     Reviews.raw_gPlusUserId := Some user;
     Reviews.raw_rating := Some stars;
     Reviews.raw_unixReviewTime := Some 32400%Z;
     Reviews.raw_categories := Some [category];
     Reviews.raw_reviewText := None |}.

(** Two reviews of a place listed twice, two reviews of a place that is not
    listed. *)
Definition duplicated_places : list Places.row := [usa_place "p1"; usa_place "p1"].
Definition offset_reviews : list Reviews.row :=
  Reviews.process_reviews utc
    [review_of "p1" "u1" "Cafe" 4; review_of "p1" "u2" "Cafe" 5;
     review_of "p2" "u3" "Cafe" 3; review_of "p2" "u4" "Cafe" 1].

(** Two reviews of a place listed twice. *)
Definition doubled_reviews : list Reviews.row :=
  Reviews.process_reviews utc
    [review_of "p1" "u1" "Cafe" 4; review_of "p1" "u2" "Cafe" 5].

(** Eleven reviews of one category: the filter drops nothing. *)
Definition one_category : list Reviews.row :=
  Reviews.process_reviews utc (repeat (review_of "p1" "u1" "Cafe" 4) 11).

(** Eleven reviews of cafes and one of a bar by the same user: the bar row
    is dropped from the lake, its rating stays in the average. *)
Definition cafes_and_a_bar : list Reviews.raw :=
  repeat (review_of "p1" "u1" "Cafe" 4) 11 ++ [review_of "p1" "u1" "Bar" 1].

Definition bar_row : Reviews.row :=
  Reviews.enrich utc cafes_and_a_bar (review_of "p1" "u1" "Bar" 1).

(** [reviews] has no rows, the other three tables have five each. *)
Definition empty_reviews (table : string) : option nat :=
  if String.eqb table "reviews" then Some 0
  else if existsb (String.eqb table) Warehouse.tables then Some 5
  else None.

Definition tab_place : Places.raw :=
  {| Places.raw_gPlusPlaceId := Some "p1";
     Places.raw_name := Some "Joe's";
     Places.raw_address := ["123 Main St"; ("Los Angeles, CA" ++ tab ++ "90210")%string];
     Places.raw_price := Some "$$" |}.

(** A cafe in Los Angeles and three census rows. *)
Definition la_place : Places.raw :=
  {| Places.raw_gPlusPlaceId := Some "p1";
     Places.raw_name := Some "Joe's";
     Places.raw_address := ["123 Main St"; "Los Angeles, CA 90210"];
     Places.raw_price := Some "$$" |}.

Definition census : list (string * Z) :=
  [("90210", 100); ("90210", 50); ("10001", 30)]%Z.

Definition la_row : Places.row :=
  {| Places.gPlusPlaceId := Some "p1";
     Places.name := Some "Joe's";
     Places.address := "123 Main St,Los Angeles, CA 90210";
     Places.price := Some 2;
     Places.state := Some "CA";
     Places.postcode := Some "90210";
     Places.country := Some "USA";
     Places.population := Some 150%Z |}.

(** The reviews of the cafes and the bar, enriched, and the lake they
    give with one place: the eleven cafe rows. *)
Definition cafe_reviews : list Reviews.row :=
  Reviews.process_reviews utc cafes_and_a_bar.

Definition cafe_row : Lake.row :=
  {| Lake.review := Reviews.enrich utc cafes_and_a_bar
                      (review_of "p1" "u1" "Cafe" 4);
     Lake.place := usa_place "p1";
     Lake.category := "Cafe" |}.

Definition bar_lake_row : Lake.row :=
  {| Lake.review := bar_row;
     Lake.place := usa_place "p1";
     Lake.category := "Bar" |}.

Definition cafe_lake : Lake.lakes :=
  {| Lake.reviews_lake := repeat cafe_row 11;
     Lake.temp_lake := map Lake.select_staging (repeat cafe_row 11) |}.

(** The lake of the cafe reviews joined with the enriched Los Angeles
    place. *)
Definition la_lake_row : Lake.row :=
  {| Lake.review := Reviews.enrich utc cafes_and_a_bar
                      (review_of "p1" "u1" "Cafe" 4);
     Lake.place := la_row;
     Lake.category := "Cafe" |}.

Definition la_lake : Lake.lakes :=
  {| Lake.reviews_lake := repeat la_lake_row 11;
     Lake.temp_lake := map Lake.select_staging (repeat la_lake_row 11) |}.

(** A cloud whose cluster is [creating] at the first two polls and
    [available] from the third on; its state counts the polls. *)
Definition cluster_answer (status : string) : Cloud.value :=
  Cloud.Dict
    [("Clusters",
      Cloud.Items
        [Cloud.Dict
           [("ClusterStatus", Cloud.Str status);
            ("Endpoint", Cloud.Dict [("Address", Cloud.Str "dwh.eu-west-1.example")]);
            ("IamRoles",
             Cloud.Items [Cloud.Dict [("IamRoleArn", Cloud.Str "arn:aws:iam::1:role/dwh")]]);
            ("VpcId", Cloud.Str "vpc-1")]])].

Definition slow_cloud (c : Cloud.call) (polls : nat) : nat * Cloud.res Cloud.value :=
  match c with
  | Cloud.describe_clusters _ =>
      (S polls,
       Cloud.Val (cluster_answer (if Nat.ltb polls 2 then "creating" else "available")))
  | Cloud.create_role _ => (polls, Cloud.Exc (Cloud.ClientError "EntityAlreadyExists"))
  | Cloud.attach_role_policy _ _ =>
      (polls,
       Cloud.Val (Cloud.Dict
                    [("ResponseMetadata", Cloud.Dict [("HTTPStatusCode", Cloud.Num 200%Z)])]))
  | Cloud.get_role _ =>
      (polls,
       Cloud.Val (Cloud.Dict
                    [("Role", Cloud.Dict [("Arn", Cloud.Str "arn:aws:iam::1:role/dwh")])]))
  | Cloud.security_groups_all _ => (polls, Cloud.Val (Cloud.Items [Cloud.Str "sg-1"]))
  | _ => (polls, Cloud.Val (Cloud.Dict []))
  end.

Definition int_of_options (s : string) : Cloud.res Z :=
  if String.eqb s "4" then Cloud.Val 4%Z
  else if String.eqb s "5439" then Cloud.Val 5439%Z
  else Cloud.Exc Cloud.ValueError.

Definition options : Cloud.config :=
  {| Cloud.DWH_CLUSTER_TYPE := "multi-node";
     Cloud.DWH_NUM_NODES := "4";
     Cloud.DWH_NODE_TYPE := "dc2.large";
     Cloud.DWH_CLUSTER_IDENTIFIER := "dwhCluster";
     Cloud.DWH_DB := "dwh";
     Cloud.DWH_DB_USER := "dwhuser";
     Cloud.DWH_DB_PASSWORD := "Passw0rd";
     Cloud.DWH_PORT := "5439";
     Cloud.DWH_IAM_ROLE_NAME := "dwhRole";
     Cloud.S3_BUCKET := "capstone" |}.

Definition slow_launch_log : list Cloud.event :=
  Eval vm_compute in
    snd (Cloud.launch_redshift_cluster slow_cloud int_of_options options 5 0).

(** A place without address and a place whose last address line is null. *)
Definition null_address_place : NullablePlaces.raw :=
  {| NullablePlaces.raw_gPlusPlaceId := Some "p2";
     NullablePlaces.raw_name := Some "Nowhere";
     NullablePlaces.raw_address := None;
     NullablePlaces.raw_price := None |}.

Definition null_line_place : NullablePlaces.raw :=
  {| NullablePlaces.raw_gPlusPlaceId := Some "p3";
     NullablePlaces.raw_name := Some "Half an address";
     NullablePlaces.raw_address := Some [Some "1 Main St"; None];
     NullablePlaces.raw_price := None |}.

(* ===================================================================== *)
(** * Facts about the text normaliser *)
(* ===================================================================== *)

Section TextFacts.
Import Text.
Local Open Scope string_scope.

Lemma strip_prefix_length (pat s rest : string) :
  strip_prefix pat s = Some rest ->
  String.length s = String.length pat + String.length rest.
Proof. revert pat s rest. strip_prefix_length_tac. Qed.

Lemma token_at_shorter (table : list (string * string)) (s rep rest : string) :
  token_at table s = Some (rep, rest) -> String.length rest < String.length s.
Proof.
  induction table as [|[[|a tok] r] table IH]; cbn [token_at];
    try discriminate; try exact IH.
  destruct (strip_prefix (String a tok) s) as [rest'|] eqn:E; [|exact IH].
  intros [= <- <-]. apply strip_prefix_length in E. simpl in E. lia.
Qed.

Lemma strip_prefix_app (pat rest : string) :
  strip_prefix pat (pat ++ rest) = Some rest.
Proof.
  induction pat as [|a p IH]; simpl; [reflexivity|].
  now rewrite Ascii.eqb_refl.
Qed.

Lemma strip_prefix_inv (pat s rest : string) :
  strip_prefix pat s = Some rest -> s = pat ++ rest.
Proof.
  revert s; induction pat as [|a p IH]; intros s H; simpl in *.
  - now injection H.
  - destruct s as [|b t]; [discriminate|].
    destruct (Ascii.eqb_spec a b) as [->|]; [|discriminate].
    f_equal. now apply IH.
Qed.

Lemma replace_all_match (p : ascii) (ps rep s rest : string) :
  strip_prefix (String p ps) s = Some rest ->
  replace_all (String p ps) rep s = rep ++ replace_all (String p ps) rep rest.
Proof.
  intros H. destruct s as [|c t]; [discriminate|].
  simp replace_all.
  destruct (inspect (strip_prefix (String p ps) (String c t))) as [[r|] E];
    simpl; congruence.
Qed.

Lemma replace_all_nomatch (p : ascii) (ps rep : string) (c : ascii) (t : string) :
  strip_prefix (String p ps) (String c t) = None ->
  replace_all (String p ps) rep (String c t)
  = String c (replace_all (String p ps) rep t).
Proof.
  intros H. simp replace_all.
  destruct (inspect (strip_prefix (String p ps) (String c t))) as [[r|] E];
    simpl; congruence.
Qed.

Lemma clash_no_match (pat u x : string) :
  clash pat u = true -> strip_prefix pat (u ++ x) = None.
Proof.
  revert u; induction pat as [|a p IH]; intros [|b v]; simpl;
    try discriminate.
  destruct (Ascii.eqb a b); [apply IH | reflexivity].
Qed.

Lemma replace_all_inert (p : ascii) (ps rep w x : string) :
  inert (String p ps) w = true ->
  replace_all (String p ps) rep (w ++ x)
  = w ++ replace_all (String p ps) rep x.
Proof.
  induction w as [|c w IH]; [reflexivity|].
  intros H. apply andb_prop in H as [Hc Hw].
  change (String c w ++ x) with (String c (w ++ x)).
  rewrite replace_all_nomatch.
  - simpl. f_equal. now apply IH.
  - exact (clash_no_match _ _ x Hc).
Qed.

(** A pass whose replacement starts with a character foreign to [q] cannot
    complete a match of [q] that the input did not have. *)
Lemma strip_prefix_after_pass (p : ascii) (ps : string) (r : ascii) (rs q s : string) :
  occurs r q = false ->
  strip_prefix q s = None ->
  strip_prefix q (replace_all (String p ps) (String r rs) s) = None.
Proof.
  revert s; induction q as [|a q IH]; intros s Hr Hs; [discriminate|].
  simpl in Hr. apply orb_false_elim in Hr as [Ha Hq].
  destruct s as [|c t]; [now simp replace_all|].
  destruct (strip_prefix (String p ps) (String c t)) as [rest|] eqn:E.
  - rewrite (replace_all_match _ _ _ _ _ E). simpl.
    rewrite Ascii.eqb_sym, Ha. reflexivity.
  - rewrite (replace_all_nomatch _ _ _ _ _ E). simpl in *.
    destruct (Ascii.eqb a c); [now apply IH | reflexivity].
Qed.

Lemma head_after_pass (p : ascii) (ps : string) (r : ascii) (rs : string)
      (a : ascii) (q : string) (c : ascii) (s : string) :
  occurs r q = false ->
  strip_prefix (String a q) (String c s) = None ->
  strip_prefix (String a q) (String c (replace_all (String p ps) (String r rs) s))
  = None.
Proof.
  simpl. intros Hr H. destruct (Ascii.eqb a c); [|reflexivity].
  now apply strip_prefix_after_pass.
Qed.

Lemma replace_all_token (p : ascii) (ps rep x : string) :
  replace_all (String p ps) rep (String p ps ++ x)
  = rep ++ replace_all (String p ps) rep x.
Proof. apply replace_all_match, strip_prefix_app. Qed.

Lemma token_at_some (table : list (string * string)) (s rep rest : string) :
  token_at table s = Some (rep, rest) ->
  exists tok, In (tok, rep) table /\ s = tok ++ rest.
Proof.
  induction table as [|[tok r] table IH]; simpl; [discriminate|].
  destruct tok as [|a tok].
  - intros H. destruct (IH H) as (tok' & Hin & Hs). eauto.
  - destruct (strip_prefix (String a tok) s) as [rest'|] eqn:E.
    + intros [= <- <-]. apply strip_prefix_inv in E. eauto.
    + intros H. destruct (IH H) as (tok' & Hin & Hs). eauto.
Qed.

Lemma token_at_none (table : list (string * string)) (s : string) :
  token_at table s = None ->
  forall a tok rep, In (String a tok, rep) table ->
                    strip_prefix (String a tok) s = None.
Proof.
  induction table as [|[tok r] table IH]; simpl; [contradiction|].
  destruct tok as [|b tok].
  - intros H a tok' rep [[=]|Hin]. now apply (IH H a tok' rep).
  - destruct (strip_prefix (String b tok) s) as [rest'|] eqn:E; [discriminate|].
    intros H a tok' rep [[= -> -> _]|Hin]; [exact E|]. now apply (IH H a tok' rep).
Qed.

Ltac push_pass :=
  first [ rewrite replace_all_inert by reflexivity
        | rewrite replace_all_token ].

Ltac head_clean Hnone :=
  repeat (apply head_after_pass; [reflexivity|]);
  eapply Hnone; simpl; tauto.

(** C8. For every raw line, the six chained replacements of
    [to_spark_friendly_json] produce exactly the one-pass rewrite of the
    line in which [False], [True] and [None] become [false], [true] and
    [null], the [u] in front of a single or a double quote is dropped,
    [\x] becomes [\u00], and every other byte is copied unchanged. *)
Theorem to_spark_friendly_json_rewrites_tokens :
  forall text_df : list string,
    to_spark_friendly_json text_df = map (spec_rewrite token_table) text_df.
Proof.
  intros text_df. unfold to_spark_friendly_json. apply map_ext.
  intros value.
  remember (String.length value) as n eqn:Hn. revert value Hn.
  induction n as [n IH] using lt_wf_ind. intros [|c t] Hn.
  - reflexivity.
  - simp spec_rewrite.
    destruct (inspect (token_at token_table (String c t)))
      as [[[rep rest]|] E]; simpl.
    + assert (Hlen : String.length rest < n).
      { apply token_at_shorter in E. simpl in *. lia. }
      rewrite <- (IH _ Hlen rest eq_refl).
      destruct (token_at_some _ _ _ _ E) as (tok & Hin & ->).
      unfold token_table, u_dquote, dquote in Hin. simpl in Hin.
      unfold fix_value, u_dquote, dquote.
      repeat destruct Hin as [[= <- <-]|Hin]; try contradiction;
        repeat push_pass; reflexivity.
    + pose proof (token_at_none _ _ E) as Hnone.
      assert (Ht : String.length t < n) by (simpl in Hn; lia).
      rewrite <- (IH _ Ht t eq_refl).
      unfold fix_value, u_dquote, dquote.
      unfold token_table, u_dquote, dquote in Hnone.
      rewrite (replace_all_nomatch "F" "alse") by head_clean Hnone.
      rewrite (replace_all_nomatch "T" "rue") by head_clean Hnone.
      rewrite (replace_all_nomatch "N" "one") by head_clean Hnone.
      rewrite (replace_all_nomatch "u" "'") by head_clean Hnone.
      rewrite (replace_all_nomatch "u" (String "034" "")) by head_clean Hnone.
      rewrite (replace_all_nomatch "\" "x") by head_clean Hnone.
      reflexivity.
Qed.

End TextFacts.

Example replace_all_ex :
  Text.replace_all "u'" "'" "{u'a': uu'b'}" = "{'a': u'b'}".
Proof. reflexivity. Qed.

Example fix_value_ex :
  Text.fix_value "{'closed': False, 'name': u'Caf\xe9', 'price': None}"
  = "{'closed': false, 'name': 'Caf\u00e9', 'price': null}".
Proof. reflexivity. Qed.

Example spec_rewrite_ex :
  Text.spec_rewrite Text.token_table
    "{'closed': False, 'name': u'Caf\xe9', 'price': None}"
  = "{'closed': false, 'name': 'Caf\u00e9', 'price': null}".
Proof. reflexivity. Qed.

(* ===================================================================== *)
(** * Facts about the places enrichment *)
(* ===================================================================== *)

Section PlacesFacts.
Import Text Places.

Lemma split_sep_head (c : ascii) (t : string) :
  split (String c "") (String c t) = "" :: split (String c "") t.
Proof.
  simp split.
  destruct (inspect (strip_prefix (String c "") (String c t))) as [[r|] E];
    simpl in *; rewrite Ascii.eqb_refl in E; [|discriminate].
  now injection E as <-.
Qed.

Lemma split_other_head (sep c : ascii) (t : string) :
  Ascii.eqb sep c = false ->
  split (String sep "") (String c t)
  = match split (String sep "") t with
    | [] => [String c ""]
    | field :: fields => String c field :: fields
    end.
Proof.
  intros H. simp split.
  destruct (inspect (strip_prefix (String sep "") (String c t))) as [[r|] E];
    simpl in *; rewrite H in E; [discriminate|reflexivity].
Qed.

Lemma split_not_nil (sep s : string) : split sep s <> [].
Proof.
  funelim (split sep s); try discriminate.
  destruct (split (String p ps) t); discriminate.
Qed.

Lemma last_item_ok {A : Type} (l : list A) :
  l <> [] -> exists x, last_item l = Ok x.
Proof.
  induction l as [|x [|y l] IH]; intros H; [contradiction| |].
  - now exists x.
  - apply IH. discriminate.
Qed.

Lemma upper_not_blank (c : ascii) : is_upper c = true -> Ascii.eqb " " c = false.
Proof.
  intros H. destruct (Ascii.eqb_spec " " c) as [<-|]; [discriminate|reflexivity].
Qed.

Lemma digit_not_blank (c : ascii) : is_digit c = true -> Ascii.eqb " " c = false.
Proof.
  intros H. destruct (Ascii.eqb_spec " " c) as [<-|]; [discriminate|reflexivity].
Qed.

Lemma spec_pattern_inv (segment m : string) :
  re_search spec_pattern segment = Some m ->
  exists a b d1 d2 d3 d4 d5,
    m = String a (String b (String " " (String d1 (String d2 (String d3
          (String d4 (String d5 "")))))))
    /\ is_upper a = true /\ is_upper b = true
    /\ is_digit d1 = true /\ is_digit d2 = true /\ is_digit d3 = true
    /\ is_digit d4 = true /\ is_digit d5 = true
    /\ re_search usa_pattern segment = Some m.
Proof.
  intros H. unfold spec_pattern in H.
  destruct segment as [|a s]; cbn [re_search atom_test] in H; [discriminate|].
  destruct (is_upper a) eqn:Ua; [|discriminate].
  destruct s as [|b s]; cbn [re_search atom_test] in H; [discriminate|].
  destruct (is_upper b) eqn:Ub; [|discriminate].
  destruct s as [|w s]; cbn [re_search atom_test] in H; [discriminate|].
  destruct (Ascii.eqb " " w) eqn:W; [|discriminate].
  apply Ascii.eqb_eq in W. subst w.
  destruct s as [|d1 s]; cbn [re_search atom_test] in H; [discriminate|].
  destruct (is_digit d1) eqn:D1; [|discriminate].
  destruct s as [|d2 s]; cbn [re_search atom_test] in H; [discriminate|].
  destruct (is_digit d2) eqn:D2; [|discriminate].
  destruct s as [|d3 s]; cbn [re_search atom_test] in H; [discriminate|].
  destruct (is_digit d3) eqn:D3; [|discriminate].
  destruct s as [|d4 s]; cbn [re_search atom_test] in H; [discriminate|].
  destruct (is_digit d4) eqn:D4; [|discriminate].
  destruct s as [|d5 s]; cbn [re_search atom_test] in H; [discriminate|].
  destruct (is_digit d5) eqn:D5; [|discriminate].
  cbn [re_search option_map] in H. injection H as <-.
  exists a, b, d1, d2, d3, d4, d5.
  repeat split; try assumption.
  unfold usa_pattern. cbn [re_search atom_test].
  rewrite Ua, Ub, D1, D2, D3, D4, D5. reflexivity.
Qed.

Lemma split_state_zip (a b d1 d2 d3 d4 d5 : ascii) :
  is_upper a = true -> is_upper b = true ->
  is_digit d1 = true -> is_digit d2 = true -> is_digit d3 = true ->
  is_digit d4 = true -> is_digit d5 = true ->
  split " " (String a (String b (String " " (String d1 (String d2 (String d3
               (String d4 (String d5 ""))))))))
  = [String a (String b "");
     String d1 (String d2 (String d3 (String d4 (String d5 ""))))].
Proof.
  intros Ua Ub D1 D2 D3 D4 D5.
  rewrite (split_other_head _ _ _ (upper_not_blank _ Ua)).
  rewrite (split_other_head _ _ _ (upper_not_blank _ Ub)).
  rewrite split_sep_head.
  rewrite (split_other_head _ _ _ (digit_not_blank _ D1)).
  rewrite (split_other_head _ _ _ (digit_not_blank _ D2)).
  rewrite (split_other_head _ _ _ (digit_not_blank _ D3)).
  rewrite (split_other_head _ _ _ (digit_not_blank _ D4)).
  rewrite (split_other_head _ _ _ (digit_not_blank _ D5)).
  now simp split.
Qed.

(** C7, as the code has it. For every address with a last element, whose
    last [", "]-separated segment is [segment]: if [segment] starts with
    two uppercase letters, one space and five digits, the state is the two
    letters, the postcode the five digits and the country is USA; if
    [segment] does not start with two uppercase letters, one whitespace
    character and five digits, state, postcode and country are all
    absent. *)
Theorem geo_columns_of_last_segment (address : list string) (line segment : string) :
  last_item address = Ok line ->
  last_item (split ", " line) = Ok segment ->
  (forall m, re_search spec_pattern segment = Some m ->
             geo_columns address
             = Ok (Some (substring 0 2 m), Some (substring 3 5 m), Some "USA"))
  /\ (re_search usa_pattern segment = None ->
      geo_columns address = Ok (None, None, None)).
Proof.
  intros Hline Hseg. unfold geo_columns, extract_usa.
  rewrite Hline. cbn [bind]. rewrite Hseg. cbn [bind]. split.
  - intros m Hm.
    destruct (spec_pattern_inv _ _ Hm)
      as (a & b & d1 & d2 & d3 & d4 & d5 & -> & Ua & Ub & D1 & D2 & D3 & D4 & D5 & Hre).
    rewrite Hre. unfold F_split, getItem, option_map.
    rewrite split_state_zip by assumption. reflexivity.
  - intros ->. reflexivity.
Qed.

Lemma geo_columns_of_last_segment_witness :
  geo_columns ["123 Main St"; "Los Angeles, CA 90210"]
  = Ok (Some "CA", Some "90210", Some "USA")
  /\ geo_columns ["10 Downing St"; "London, SW1A 2AA"] = Ok (None, None, None).
Proof.
  split.
  - exact (proj1 (geo_columns_of_last_segment
                    ["123 Main St"; "Los Angeles, CA 90210"]
                    "Los Angeles, CA 90210" "CA 90210" eq_refl eq_refl)
                 "CA 90210" eq_refl).
  - exact (proj2 (geo_columns_of_last_segment
                    ["10 Downing St"; "London, SW1A 2AA"]
                    "London, SW1A 2AA" "SW1A 2AA" eq_refl eq_refl)
                 eq_refl).
Defined.

(** Whatever the address, the country is USA exactly when a state came
    out, and never anything else. *)
Lemma geo_columns_country (address : list string)
      (state postcode country : option string) :
  geo_columns address = Ok (state, postcode, country) ->
  (country = Some "USA" <-> state <> None)
  /\ (country = None <-> state = None).
Proof.
  unfold geo_columns. destruct (extract_usa address) as [szu|e];
    cbn [bind]; [|discriminate].
  intros [= <- _ <-].
  destruct (getItem (F_split szu " ") 0); split; split;
    congruence.
Qed.

(** C7 as stated fails twice: on the address without elements the
    extraction raises instead of giving absent values, and a segment whose
    separator is a tab, which does not match "two uppercase letters, one
    space, five digits", still gets a state and a country. *)
Lemma geo_columns_not_absent :
  geo_columns [] <> Ok (None, None, None)
  /\ re_search spec_pattern ("CA" ++ tab ++ "90210")%string = None
  /\ geo_columns ["Los Angeles, CA" ++ tab ++ "90210"]%string
     <> Ok (None, None, None).
Proof. repeat split; discriminate. Qed.

(** C10. On the address without elements [extract_usa] raises IndexError
    and so do the derived columns; on every address with an element it
    returns, and when it returns no match, state, postcode and country are
    all absent. *)
Theorem extract_usa_total_on_nonempty (address : list string) :
  (address = [] ->
   extract_usa address = Raise (IndexError "list index out of range")
   /\ geo_columns address = Raise (IndexError "list index out of range"))
  /\ (address <> [] ->
      exists state_and_zip_usa,
        extract_usa address = Ok state_and_zip_usa
        /\ (state_and_zip_usa = None ->
            geo_columns address = Ok (None, None, None))).
Proof.
  split.
  - intros ->. split; reflexivity.
  - intros Hne. unfold geo_columns, extract_usa.
    destruct (last_item_ok address Hne) as [line ->]. cbn [bind].
    destruct (last_item_ok _ (split_not_nil ", " line)) as [segment ->]. cbn [bind].
    eexists. split; [reflexivity|]. intros ->. reflexivity.
Qed.

Lemma extract_usa_total_on_nonempty_witness :
  extract_usa [] = Raise (IndexError "list index out of range")
  /\ exists state_and_zip_usa,
       extract_usa ["10 Downing St"; "London, SW1A 2AA"] = Ok state_and_zip_usa.
Proof.
  split.
  - exact (proj1 (proj1 (extract_usa_total_on_nonempty []) eq_refl)).
  - destruct (proj2 (extract_usa_total_on_nonempty
                       ["10 Downing St"; "London, SW1A 2AA"]))
      as (r & Hr & _); [discriminate|].
    exists r. exact Hr.
Defined.

End PlacesFacts.

Example extract_usa_ex :
  Places.geo_columns ["123 Main St"; "Los Angeles, CA 90210"]
  = Ok (Some "CA", Some "90210", Some "USA").
Proof. reflexivity. Qed.

Example extract_usa_ex_none :
  Places.geo_columns ["10 Downing St"; "London, SW1A 2AA"]
  = Ok (None, None, None).
Proof. reflexivity. Qed.

Example extract_usa_ex_tab :
  Places.geo_columns ["Los Angeles, CA" ++ tab ++ "90210"]%string
  = Ok (Some ("CA" ++ tab ++ "90210")%string, None, Some "USA").
Proof. reflexivity. Qed.

Example population_by_zip_ex :
  Places.population_by_zip [("90210", 100); ("90210", 50); ("10001", 30)]%Z
  = [("90210", 150); ("10001", 30)]%Z.
Proof. reflexivity. Qed.

Example extract_usa_ex_empty :
  Places.geo_columns [] = Raise (IndexError "list index out of range").
Proof. reflexivity. Qed.

(* ===================================================================== *)
(** * Facts about the reviews enrichment *)
(* ===================================================================== *)

Section ReviewsFacts.
Import Reviews.

Variable utc_offset : Z -> Z.

Lemma F_hour_range (ts : option Z) (h : Z) :
  F_hour utc_offset ts = Some h -> (0 <= h < 24)%Z.
Proof.
  destruct ts as [t|]; simpl; [|discriminate].
  intros [= <-]. apply Z.mod_pos_bound. lia.
Qed.


End ReviewsFacts.


(* ===================================================================== *)
(** * Facts about the data lake *)
(* ===================================================================== *)

Section LakeFacts.
Import Lake.

Lemma in_inner_join (reviews_df : list Reviews.row) (places_df : list Places.row)
      (r : Reviews.row) (p : Places.row) :
  In (r, p) (inner_join reviews_df places_df) <->
  In r reviews_df /\ In p places_df
  /\ key_eq (Reviews.gPlusPlaceId r) (Places.gPlusPlaceId p) = true.
Proof.
  unfold inner_join. rewrite in_flat_map. split.
  - intros (r' & Hr' & Hin). apply in_map_iff in Hin as (p' & [= -> ->] & Hp).
    apply filter_In in Hp as [Hp Hk]. auto.
  - intros (Hr & Hp & Hk). exists r. split; [assumption|].
    apply in_map. apply filter_In. auto.
Qed.

Lemma in_explode (lake : list (Reviews.row * Places.row)) (row : Lake.row) :
  In row (explode lake) ->
  In (review row, place row) lake
  /\ exists cats, Reviews.categories (review row) = Some cats
                  /\ In (category row) cats.
Proof.
  unfold explode. rewrite in_flat_map. intros ([r p] & Hrp & Hin). simpl in Hin.
  destruct (Reviews.categories r) as [cats|] eqn:Ec; [|contradiction].
  apply in_map_iff in Hin as (c & <- & Hc). simpl. split; [assumption|].
  exists cats. auto.
Qed.

Lemma in_exploded (reviews_df : list Reviews.row) (places_df : list Places.row)
      (row : Lake.row) :
  In row (exploded reviews_df places_df) ->
  In (review row) reviews_df
  /\ In (place row) places_df
  /\ Places.country (place row) = Some "USA"
  /\ exists key, gPlusPlaceId row = Some key
                 /\ Places.gPlusPlaceId (place row) = Some key.
Proof.
  intros H. apply in_explode in H as [H _].
  apply in_inner_join in H as (Hr & Hp & Hk).
  apply filter_In in Hr as [Hr _]. apply filter_In in Hp as [Hp Hc].
  repeat split; try assumption.
  - destruct (Places.country (place row)) as [c|]; [|discriminate].
    apply String.eqb_eq in Hc. now subst.
  - unfold gPlusPlaceId.
    destruct (Reviews.gPlusPlaceId (review row)) as [k|]; [|discriminate].
    destruct (Places.gPlusPlaceId (place row)) as [k'|]; [|discriminate].
    apply String.eqb_eq in Hk. subst. eauto.
Qed.

(** What a run that raises nothing has passed and written. *)
Lemma create_data_lake_ok (reviews_df : list Reviews.row)
      (places_df : list Places.row) (out : lakes) :
  create_data_lake reviews_df places_df = Ok out ->
  List.length (joined reviews_df places_df)
  <= List.length (with_categories reviews_df)
  /\ distinct_categories (drop_rare (exploded reviews_df places_df))
     < distinct_categories (exploded reviews_df places_df)
  /\ reviews_lake out = drop_rare (exploded reviews_df places_df)
  /\ temp_lake out = map select_staging (reviews_lake out)
  /\ reviews_lake out <> [].
Proof.
  unfold create_data_lake, exploded, joined.
  destruct (Nat.ltb_spec (List.length (with_categories reviews_df))
              (List.length (inner_join (with_categories reviews_df)
                                       (usa_places places_df))));
    [discriminate|].
  match goal with
  | |- context [if ?a <=? ?b then _ else _] => destruct (Nat.leb_spec a b)
  end; [discriminate|].
  match goal with
  | |- context [if ?c then _ else _] => destruct c eqn:Ec
  end; [discriminate|].
  intros [= <-]. cbn [reviews_lake temp_lake] in *.
  repeat split; try assumption.
  intros E. rewrite E in Ec. discriminate.
Qed.

Lemma inner_join_length (reviews_df : list Reviews.row) (places_df : list Places.row) :
  List.length (inner_join reviews_df places_df)
  = list_sum (map (matching_places places_df) reviews_df).
Proof.
  unfold inner_join. induction reviews_df as [|r rs IH]; [reflexivity|].
  simpl. rewrite length_app, length_map, IH. reflexivity.
Qed.

Lemma list_sum_ge_length {A : Type} (f : A -> nat) (l : list A) :
  (forall x, In x l -> 1 <= f x) -> List.length l <= list_sum (map f l).
Proof.
  induction l as [|x l IH]; intros H; simpl; [lia|].
  pose proof (H x (or_introl eq_refl)).
  assert (List.length l <= list_sum (map f l)) by (apply IH; intros; apply H; now right).
  lia.
Qed.

Lemma list_sum_gt_length {A : Type} (f : A -> nat) (l : list A) :
  (forall x, In x l -> 1 <= f x) ->
  (exists x, In x l /\ 2 <= f x) ->
  List.length l < list_sum (map f l).
Proof.
  induction l as [|x l IH]; intros H (y & Hy & H2); [contradiction|].
  simpl. pose proof (H x (or_introl eq_refl)).
  assert (Hl : forall z, In z l -> 1 <= f z) by (intros; apply H; now right).
  destruct Hy as [->|Hy].
  - pose proof (list_sum_ge_length f l Hl). lia.
  - assert (List.length l < list_sum (map f l)) by (apply IH; eauto). lia.
Qed.

(** C4, as the code has it. [create_data_lake] raises "Join resulted in too
    many rows" if and only if the inner join of the reviews that have
    categories with the USA places, counted before the explosion, has more
    rows than those reviews. When every such review is joined with at least
    one place, a place key that is duplicated and referenced by a review
    raises the error. *)
Theorem join_check_raises (reviews_df : list Reviews.row) (places_df : list Places.row) :
  (create_data_lake reviews_df places_df = Raise too_many_rows <->
   List.length (with_categories reviews_df)
   < List.length (joined reviews_df places_df))
  /\ ((forall r, In r (with_categories reviews_df) ->
                 1 <= matching_places (usa_places places_df) r) ->
      (exists r, In r (with_categories reviews_df)
                 /\ 2 <= matching_places (usa_places places_df) r) ->
      create_data_lake reviews_df places_df = Raise too_many_rows).
Proof.
  assert (Hiff : create_data_lake reviews_df places_df = Raise too_many_rows <->
                 List.length (with_categories reviews_df)
                 < List.length (joined reviews_df places_df)).
  { unfold create_data_lake, joined.
    destruct (Nat.ltb_spec (List.length (with_categories reviews_df))
                (List.length (inner_join (with_categories reviews_df)
                                         (usa_places places_df)))) as [Hlt|Hge].
    - tauto.
    - split; [|lia]. intros Hraise. exfalso. revert Hraise.
      repeat match goal with
             | |- context [if ?c then _ else _] => destruct c
             end; discriminate. }
  split; [exact Hiff|].
  intros Hall Hdup. apply Hiff. unfold joined. rewrite inner_join_length.
  now apply list_sum_gt_length.
Qed.

(** The filter on [num_reviews_for_cat] counts every row of the category,
    since the join leaves no row without [gPlusPlaceId]. *)
Lemma num_reviews_for_cat_count (lake : list Lake.row) (r : Lake.row) :
  (forall r', In r' lake -> gPlusPlaceId r' <> None) ->
  num_reviews_for_cat lake r
  = count_occ string_dec (map category lake) (category r).
Proof.
  unfold num_reviews_for_cat. induction lake as [|r' lake IH]; intros H;
    [reflexivity|].
  assert (IH' := IH (fun x Hx => H x (or_intror Hx))).
  pose proof (H r' (or_introl eq_refl)) as Hk.
  simpl. destruct (String.eqb_spec (category r') (category r)) as [E|E].
  - simpl. destruct (gPlusPlaceId r'); [|contradiction].
    simpl. rewrite IH'. destruct (string_dec (category r') (category r));
      [reflexivity|contradiction].
  - rewrite IH'. destruct (string_dec (category r') (category r));
      [contradiction|reflexivity].
Qed.

(** C5. After the explosion, [create_data_lake] keeps exactly the rows whose
    category occurs in more than 10 rows of the exploded lake: these rows,
    in their order, are what a run that returns has written to
    [reviews_lake], and [temp_lake] holds their projection. Once the join
    check has passed, it raises "Categories were incorrectly filtered" if
    and only if the number of distinct categories after this filter is not
    strictly less than before it; and when it is less and some row is
    kept, the run returns and has written the kept rows. *)
Theorem rare_categories_dropped (reviews_df : list Reviews.row)
        (places_df : list Places.row) :
  let lake := exploded reviews_df places_df in
  let kept := filter (fun r => 10 <? count_occ string_dec (map category lake)
                                               (category r))
                     lake in
  (forall out, create_data_lake reviews_df places_df = Ok out ->
               reviews_lake out = kept
               /\ temp_lake out = map select_staging kept)
  /\ (List.length (joined reviews_df places_df)
      <= List.length (with_categories reviews_df) ->
      (create_data_lake reviews_df places_df = Raise filtered_incorrectly <->
       ~ distinct_categories kept < distinct_categories lake)
      /\ (distinct_categories kept < distinct_categories lake ->
          kept <> [] ->
          create_data_lake reviews_df places_df
          = Ok {| reviews_lake := kept;
                  temp_lake := map select_staging kept |})).
Proof.
  intros lake kept.
  assert (Hkept : drop_rare lake = kept).
  { unfold drop_rare, kept. apply filter_ext_in. intros r Hr.
    rewrite num_reviews_for_cat_count; [reflexivity|].
    intros r' Hr'. apply in_exploded in Hr' as (_ & _ & _ & key & -> & _).
    discriminate. }
  split.
  - intros out Hok.
    apply create_data_lake_ok in Hok as (_ & _ & Hlake & Htemp & _).
    fold lake in Hlake. rewrite Hkept in Hlake.
    split; [exact Hlake|]. now rewrite Htemp, Hlake.
  - intros Hle. rewrite <- Hkept. clear Hkept. subst kept lake.
    unfold create_data_lake, exploded, joined in *.
    destruct (Nat.ltb_spec (List.length (with_categories reviews_df))
                (List.length (inner_join (with_categories reviews_df)
                                         (usa_places places_df))));
      [lia|].
    match goal with
    | |- context [if ?a <=? ?b then _ else _] => destruct (Nat.leb_spec a b)
    end.
    + split; [split; [lia|reflexivity]|]. intros Hlt. lia.
    + split.
      * split; [|lia]. intros Hraise. exfalso. revert Hraise.
        match goal with
        | |- context [if ?c then _ else _] => destruct c
        end; discriminate.
      * intros _ Hne. cbn [reviews_lake temp_lake]. rewrite length_map.
        match goal with
        | |- context [List.length ?l =? 0] =>
            destruct l eqn:El; [contradiction|reflexivity]
        end.
Qed.

End LakeFacts.

(** C4 as stated fails: a place key that is listed twice and referenced by
    two reviews does not raise the join error when as many reviews find no
    place at all. *)
Lemma duplicated_key_not_detected :
  map (Lake.matching_places (Lake.usa_places duplicated_places))
      (Lake.with_categories offset_reviews) = [2; 2; 0; 0]
  /\ Lake.create_data_lake offset_reviews duplicated_places
     <> Raise Lake.too_many_rows.
Proof. split; [reflexivity|]. vm_compute. discriminate. Qed.

Lemma join_check_raises_witness :
  Lake.create_data_lake doubled_reviews duplicated_places
  = Raise Lake.too_many_rows.
Proof.
  apply (proj2 (join_check_raises doubled_reviews duplicated_places)).
  - intros r [<-|[<-|[]]]; vm_compute; lia.
  - eexists. split; [left; reflexivity|]. vm_compute. lia.
Defined.

Lemma rare_categories_dropped_witness :
  Lake.create_data_lake one_category [usa_place "p1"]
  = Raise Lake.filtered_incorrectly
  /\ Lake.create_data_lake cafe_reviews [usa_place "p1"]
     = Ok {| Lake.reviews_lake := repeat cafe_row 11;
             Lake.temp_lake := map Lake.select_staging (repeat cafe_row 11) |}
  /\ In "Bar" (map Lake.category (Lake.exploded cafe_reviews [usa_place "p1"]))
  /\ ~ In "Bar" (map Lake.category (repeat cafe_row 11)).
Proof.
  split; [|split; [|split]].
  - apply (proj2 (proj1 (proj2 (rare_categories_dropped one_category
                                  [usa_place "p1"])
                           ltac:(vm_compute; lia)))).
    vm_compute. lia.
  - apply (proj2 (proj2 (rare_categories_dropped cafe_reviews [usa_place "p1"])
                    ltac:(vm_compute; lia))).
    + vm_compute. lia.
    + vm_compute. discriminate.
  - apply in_map_iff. exists bar_lake_row. split; [reflexivity|].
    vm_compute. do 11 right. now left.
  - vm_compute. intuition discriminate.
Defined.

(* ===================================================================== *)
(** * The average rating of a user *)
(* ===================================================================== *)

Section UserAverage.
Import Reviews.

Variable utc_offset : Z -> Z.

Lemma same_group_sym (a b : option string) : same_group a b = same_group b a.
Proof.
  destruct a, b; simpl; try reflexivity. apply String.eqb_sym.
Qed.

Lemma same_group_trans (a b c : option string) :
  same_group a b = true -> same_group b c = true -> same_group a c = true.
Proof.
  destruct a, b, c; simpl; try discriminate; try reflexivity.
  rewrite !String.eqb_eq. congruence.
Qed.

Lemma same_group_window (a b c : option string) :
  same_group a b = true -> same_group c a = same_group c b.
Proof.
  intros Hab. destruct (same_group c a) eqn:Eca, (same_group c b) eqn:Ecb;
    try reflexivity.
  - rewrite (same_group_trans c a b Eca Hab) in Ecb. discriminate.
  - rewrite same_group_sym in Hab.
    rewrite (same_group_trans c b a Ecb Hab) in Eca. discriminate.
Qed.

Lemma F_avg_is_mean (xs : list (option Q)) :
  F_avg xs = arithmetic_mean (non_null xs).
Proof. unfold F_avg, arithmetic_mean. now destruct (non_null xs). Qed.

Lemma in_process_reviews (reviews_df : list raw) (r : row) :
  In r (process_reviews utc_offset reviews_df) ->
  userAvgRating r
  = arithmetic_mean (ratings_of_user reviews_df (gPlusUserId r)).
Proof.
  unfold process_reviews. intros H.
  apply in_map_iff in H as (r0 & <- & _). simpl.
  now rewrite F_avg_is_mean.
Qed.

(** C6. On every row of the enriched reviews, and so on every row of the
    lake built from them, [userAvgRating] is the arithmetic mean of all
    the ratings that the row's user has in the whole reviews frame,
    whatever the join and the category filter keep; two rows of the same
    user carry the same value. *)
Theorem userAvgRating_is_mean_of_user (reviews_df : list raw) (r : row) :
  In r (process_reviews utc_offset reviews_df) ->
  userAvgRating r
  = arithmetic_mean (ratings_of_user reviews_df (gPlusUserId r))
  /\ (forall r', In r' (process_reviews utc_offset reviews_df) ->
                 same_group (gPlusUserId r') (gPlusUserId r) = true ->
                 userAvgRating r' = userAvgRating r)
  /\ (forall places_df out row,
         Lake.create_data_lake (process_reviews utc_offset reviews_df) places_df
         = Ok out ->
         In row (Lake.reviews_lake out) ->
         userAvgRating (Lake.review row)
         = arithmetic_mean
             (ratings_of_user reviews_df (gPlusUserId (Lake.review row)))).
Proof.
  intros Hr. split; [now apply in_process_reviews|]. split.
  - intros r' Hr' Hsame.
    rewrite (in_process_reviews _ _ Hr), (in_process_reviews _ _ Hr').
    unfold ratings_of_user. f_equal. f_equal. f_equal.
    apply filter_ext. intros x. now apply same_group_window.
  - intros places_df out row Hok Hrow.
    apply create_data_lake_ok in Hok as (_ & _ & Hlake & _).
    rewrite Hlake in Hrow. apply filter_In in Hrow as [Hrow _].
    apply in_exploded in Hrow as [Hin _].
    now apply in_process_reviews.
Qed.

End UserAverage.

Lemma userAvgRating_is_mean_of_user_witness :
  In bar_row (Reviews.process_reviews utc cafes_and_a_bar)
  /\ Reviews.userAvgRating bar_row = Some (45 / 12)%Q.
Proof.
  assert (Hin : In bar_row (Reviews.process_reviews utc cafes_and_a_bar)).
  { apply in_map, in_or_app. right. left. reflexivity. }
  split; [exact Hin|].
  rewrite (proj1 (userAvgRating_is_mean_of_user utc cafes_and_a_bar bar_row Hin)).
  reflexivity.
Defined.

(* ===================================================================== *)
(** * Facts about the warehouse synchronisation *)
(* ===================================================================== *)

Section WarehouseFacts.
Import Warehouse.

Context {session : Type} (db : driver session).
Variables s3_bucket CATEGORY : string.

Lemma statements_sent_app (log1 log2 : list event) :
  statements_sent (log1 ++ log2) = statements_sent log1 ++ statements_sent log2.
Proof.
  induction log1 as [|[line|query raised|raised] log1 IH]; simpl;
    rewrite ?IH; reflexivity.
Qed.

Lemma failures_logged_app (log1 log2 : list event) :
  failures_logged log1 -> failures_logged log2 -> failures_logged (log1 ++ log2).
Proof.
  remember (List.length log1) as n eqn:Hn. revert log1 Hn.
  induction n as [n IH] using lt_wf_ind. intros log1 Hn H1 H2.
  destruct log1 as [|e log1]; [exact H2|].
  assert (Hstep : forall l, List.length l < n -> failures_logged l ->
                            failures_logged (l ++ log2)).
  { intros l Hl Hlog. exact (IH _ Hl l eq_refl Hlog H2). }
  simpl in Hn.
  destruct e as [line|query [err|]|[err|]]; simpl in *;
    try (apply Hstep; [lia|assumption]);
    (destruct log1 as [|[line'|?q ?r|?r] log1]; try contradiction;
     destruct H1 as [-> H1]; simpl; split; [reflexivity|];
     apply Hstep; [simpl in *; lia|assumption]).
Qed.

Lemma runs_through_print (line : string) : runs_through (session := session) (print line) [].
Proof. intros s. exists s, [Printed line]. repeat split. Qed.

Lemma runs_through_ret : runs_through (session := session) (ret tt) [].
Proof. intros s. exists s, []. repeat split. Qed.

Lemma runs_through_seq (m1 m2 : io unit) (q1 q2 : list statement) :
  runs_through (session := session) m1 q1 -> runs_through (session := session) m2 q2 ->
  runs_through (session := session) (seq m1 (fun _ => m2)) (q1 ++ q2).
Proof.
  intros H1 H2 s. destruct (H1 s) as (s1 & log1 & E1 & Q1 & L1).
  destruct (H2 s1) as (s2 & log2 & E2 & Q2 & L2).
  exists s2, (log1 ++ log2). unfold seq. rewrite E1, E2.
  repeat split.
  - rewrite statements_sent_app. congruence.
  - now apply failures_logged_app.
Qed.

(** One statement under its [try]: whatever [execute] and [commit] do. *)
Lemma runs_through_attempt (query : statement) :
  runs_through (session := session)
    (try_except (seq (cur_execute db query) (fun _ => conn_commit db))
                (fun err => print (str err)))
    [query].
Proof.
  intros s. unfold try_except, seq, cur_execute, conn_commit, print.
  destruct (execute db query s) as [s1 [err|]].
  - exists s1, [Executed query (Some err); Printed (str err)]. repeat split.
  - destruct (commit db s1) as [s2 [err|]].
    + exists s2, [Executed query None; Committed (Some err); Printed (str err)].
      repeat split.
    + exists s2, [Executed query None; Committed None]. repeat split.
Qed.

Lemma runs_through_for_each (queries : list statement) :
  runs_through (session := session)
    (for_each queries
       (fun query =>
          try_except (seq (cur_execute db query) (fun _ => conn_commit db))
                     (fun err => print (str err))))
    queries.
Proof.
  induction queries as [|query queries IH]; simpl.
  - apply runs_through_ret.
  - apply (runs_through_seq _ _ [query] queries);
      [apply runs_through_attempt | exact IH].
Qed.

(** C9. Whatever each [execute] and [commit] does, [load_staging_table]
    and [load_final_tables] raise nothing, send every statement of their
    sequences in the order of the source (drop, create, copy, filter; then
    all drops, all creates, all inserts), and print every exception right
    after the call that raised it. *)
Theorem statement_failures_do_not_stop_the_sequence (arn : string) (s : session) :
  (exists s' log,
      load_staging_table db s3_bucket CATEGORY arn s = (Ok tt, s', log)
      /\ statements_sent log
         = [staging_table_drop; staging_table_create;
            staging_table_copy (s3_bucket ++ "/temp_lake")%string arn;
            staging_table_filter CATEGORY]
      /\ failures_logged log)
  /\ (exists s' log,
         load_final_tables db s = (Ok tt, s', log)
         /\ statements_sent log
            = drop_table_queries ++ create_table_queries ++ insert_table_queries
         /\ failures_logged log).
Proof.
  split.
  - revert s.
    change (runs_through (session := session) (load_staging_table db s3_bucket CATEGORY arn)
              ([] ++ [staging_table_drop] ++ [] ++ [staging_table_create] ++ []
                  ++ [staging_table_copy (s3_bucket ++ "/temp_lake")%string arn]
                  ++ [] ++ [staging_table_filter CATEGORY])).
    unfold load_staging_table.
    repeat first [ apply runs_through_attempt
                 | apply runs_through_print
                 | apply runs_through_seq ].
  - revert s.
    change (runs_through (session := session) (load_final_tables db)
              (drop_table_queries ++ create_table_queries ++ insert_table_queries)).
    unfold load_final_tables.
    repeat first [ apply runs_through_for_each | apply runs_through_seq ].
Qed.

End WarehouseFacts.

(** ** The fill check on a warehouse with an empty table *)

(** On a warehouse at rest the fill check passes every relation that
    exists, whatever its number of rows: the answer to the count query is
    always one row. *)
Lemma check_data_quality_ignores_counts (rows_in : string -> option nat)
      (tables : list string) (pending : list (list Z)) :
  (forall table, In table tables -> rows_in table <> None) ->
  exists pending' log,
    Warehouse.check_data_quality (Warehouse.at_rest rows_in) tables pending
    = (Ok tt, pending', log).
Proof.
  revert pending. induction tables as [|table tables IH]; intros pending H.
  - now exists pending, [].
  - destruct (rows_in table) as [n|] eqn:En;
      [|exfalso; apply (H table (or_introl eq_refl)); exact En].
    destruct (IH [] (fun t Ht => H t (or_intror Ht))) as (p' & log & E).
    unfold Warehouse.check_data_quality in *.
    set (body := fun table : string => _) in *.
    assert (Hbody : body table pending
                    = (Ok tt, [],
                       [Warehouse.Executed (Warehouse.sql_check_filled table) None;
                        Warehouse.Printed ("Data quality check passed, " ++ table
                                           ++ " is filled")%string])).
    { subst body. cbv beta.
      unfold Warehouse.seq, Warehouse.cur_execute, Warehouse.cur_fetchall.
      cbn [Warehouse.execute Warehouse.fetchall Warehouse.at_rest].
      rewrite En. reflexivity. }
    cbn [Warehouse.for_each]. unfold Warehouse.seq at 1. rewrite Hbody.
    rewrite E. eauto.
Qed.

(** C1 fails on the code: with [reviews] empty, [check_data_quality] raises
    nothing and prints that [reviews] is filled. *)
Theorem fill_check_passes_empty_table :
  empty_reviews "reviews" = Some 0
  /\ exists log,
       Warehouse.check_data_quality (Warehouse.at_rest empty_reviews)
                                    Warehouse.tables []
       = (Ok tt, [], log)
       /\ In (Warehouse.Printed "Data quality check passed, reviews is filled") log.
Proof.
  split; [reflexivity|]. eexists. split; [reflexivity|]. simpl. tauto.
Qed.

(** ** The places enrichment on a separator that is not a space *)

(** C3 fails on the code: [\s] lets a tab separate state and postcode, the
    split on a space does not, and the row is kept with country USA, no
    postcode, and a state that is not a two-letter code. *)
Theorem country_usa_without_postcode :
  exists row,
    Places.process_places [tab_place] [] = Ok [row]
    /\ Places.country row = Some "USA"
    /\ Places.postcode row = None
    /\ Places.state row = Some ("CA" ++ tab ++ "90210")%string.
Proof. eexists. repeat split. Qed.

(* ===================================================================== *)
(** * What the text normaliser leaves in a line *)
(* ===================================================================== *)

Section NormaliserFacts.
Import Text.
Local Open Scope string_scope.

Ltac push_pass :=
  first [ rewrite replace_all_inert by reflexivity
        | rewrite replace_all_token ].

Ltac head_clean Hnone :=
  repeat (apply head_after_pass; [reflexivity|]);
  eapply Hnone; simpl; tauto.

(** The six passes as one pass, for the facts of this section. *)
Lemma fix_value_one_pass (value : string) :
  fix_value value = spec_rewrite token_table value.
Proof.
  remember (String.length value) as n eqn:Hn. revert value Hn.
  induction n as [n IH] using lt_wf_ind. intros [|c t] Hn; [reflexivity|].
  simp spec_rewrite.
  destruct (inspect (token_at token_table (String c t)))
    as [[[rep rest]|] E]; simpl.
  - assert (Hlen : String.length rest < n).
    { apply token_at_shorter in E. simpl in *. lia. }
    rewrite <- (IH _ Hlen rest eq_refl).
    destruct (token_at_some _ _ _ _ E) as (tok & Hin & ->).
    unfold token_table, u_dquote, dquote in Hin. simpl in Hin.
    unfold fix_value, u_dquote, dquote.
    repeat destruct Hin as [[= <- <-]|Hin]; try contradiction;
      repeat push_pass; reflexivity.
  - pose proof (token_at_none _ _ E) as Hnone.
    assert (Ht : String.length t < n) by (simpl in Hn; lia).
    rewrite <- (IH _ Ht t eq_refl).
    unfold fix_value, u_dquote, dquote.
    unfold token_table, u_dquote, dquote in Hnone.
    rewrite (replace_all_nomatch "F" "alse") by head_clean Hnone.
    rewrite (replace_all_nomatch "T" "rue") by head_clean Hnone.
    rewrite (replace_all_nomatch "N" "one") by head_clean Hnone.
    rewrite (replace_all_nomatch "u" "'") by head_clean Hnone.
    rewrite (replace_all_nomatch "u" (String "034" "")) by head_clean Hnone.
    rewrite (replace_all_nomatch "\" "x") by head_clean Hnone.
    reflexivity.
Qed.

Lemma spec_rewrite_token (table : list (string * string)) (c : ascii)
      (t rep rest : string) :
  token_at table (String c t) = Some (rep, rest) ->
  spec_rewrite table (String c t) = rep ++ spec_rewrite table rest.
Proof.
  intros H. simp spec_rewrite.
  destruct (inspect (token_at table (String c t))) as [[[rep' rest']|] E];
    simpl; congruence.
Qed.

Lemma spec_rewrite_copy (table : list (string * string)) (c : ascii) (t : string) :
  token_at table (String c t) = None ->
  spec_rewrite table (String c t) = String c (spec_rewrite table t).
Proof.
  intros H. simp spec_rewrite.
  destruct (inspect (token_at table (String c t))) as [[[rep' rest']|] E];
    simpl; congruence.
Qed.

Lemma resists_no_match (table : list (string * string)) (t s : string) :
  resists (map snd table) t = true ->
  strip_prefix t s = None ->
  strip_prefix t (spec_rewrite table s) = None.
Proof.
  revert s. induction t as [|a t IH]; intros s Hres Hs; [discriminate|].
  cbn [resists] in Hres. apply andb_prop in Hres as [Hhere Hlater].
  destruct s as [|c s]; [now simp spec_rewrite|].
  destruct (token_at table (String c s)) as [[rep rest]|] eqn:E.
  - rewrite (spec_rewrite_token _ _ _ _ _ E).
    apply clash_no_match.
    destruct (token_at_some _ _ _ _ E) as (tok & Hin & _).
    rewrite forallb_forall in Hhere. apply Hhere.
    apply in_map_iff. now exists (tok, rep).
  - rewrite (spec_rewrite_copy _ _ _ E). simpl in *.
    destruct (Ascii.eqb a c); [now apply IH | reflexivity].
Qed.

Lemma contains_inert (a : ascii) (q w y : string) :
  inert (String a q) w = true ->
  contains (String a q) (w ++ y) = contains (String a q) y.
Proof.
  induction w as [|c w IH]; [reflexivity|].
  intros H. apply andb_prop in H as [Hc Hw].
  change (String c w ++ y) with (String c (w ++ y)).
  cbn [contains].
  change (String c (w ++ y)) with (String c w ++ y).
  rewrite (clash_no_match _ _ y Hc). now apply IH.
Qed.

(** A token whose matches no replacement can start, carry on or hold is
    gone after the rewrite. *)
Lemma token_gone (table : list (string * string)) (a : ascii) (q rep0 : string) :
  In (String a q, rep0) table ->
  resists (map snd table) q = true ->
  forallb (inert (String a q)) (map snd table) = true ->
  forall s, contains (String a q) (spec_rewrite table s) = false.
Proof.
  intros Hin Hres Hinert s.
  remember (String.length s) as n eqn:Hn. revert s Hn.
  induction n as [n IH] using lt_wf_ind. intros [|c t] Hn.
  - now simp spec_rewrite.
  - destruct (token_at table (String c t)) as [[rep rest]|] eqn:E.
    + rewrite (spec_rewrite_token _ _ _ _ _ E).
      destruct (token_at_some _ _ _ _ E) as (tok & Htok & _).
      rewrite contains_inert.
      * apply (IH (String.length rest)); [|reflexivity].
        apply token_at_shorter in E. simpl in *. lia.
      * rewrite forallb_forall in Hinert. apply Hinert.
        apply in_map_iff. now exists (tok, rep).
    + rewrite (spec_rewrite_copy _ _ _ E).
      pose proof (token_at_none _ _ E _ _ _ Hin) as Hhead.
      cbn [contains].
      assert (Hout : strip_prefix (String a q)
                       (String c (spec_rewrite table t)) = None).
      { simpl in *. destruct (Ascii.eqb a c); [|reflexivity].
        now apply resists_no_match. }
      rewrite Hout. apply (IH (String.length t)); [|reflexivity].
      simpl in Hn. lia.
Qed.

(** X1. No line that [to_spark_friendly_json] writes holds [False], [True],
    [None] or [\x] any more, whatever the line was. *)
Theorem normalised_line_has_no_python_literal (text_df : list string) :
  Forall (fun value => contains "False" value = false
                       /\ contains "True" value = false
                       /\ contains "None" value = false
                       /\ contains "\x" value = false)
         (to_spark_friendly_json text_df).
Proof.
  unfold to_spark_friendly_json. apply Forall_forall. intros out Hout.
  apply in_map_iff in Hout as (value & <- & _).
  rewrite fix_value_one_pass.
  repeat split.
  - apply (token_gone token_table "F" "alse" "false");
      [simpl; tauto | reflexivity | reflexivity].
  - apply (token_gone token_table "T" "rue" "true");
      [simpl; tauto | reflexivity | reflexivity].
  - apply (token_gone token_table "N" "one" "null");
      [simpl; tauto | reflexivity | reflexivity].
  - apply (token_gone token_table "\" "x" "\u00");
      [simpl; tauto | reflexivity | reflexivity].
Qed.

End NormaliserFacts.

Section NormaliserFixedPoints.
Import Text.
Local Open Scope string_scope.

Lemma token_free_spec (table : list (string * string)) (s : string) :
  token_free table s = true <->
  forall tok rep, In (tok, rep) table -> contains tok s = false.
Proof.
  unfold token_free. rewrite forallb_forall. split.
  - intros H tok rep Hin. specialize (H _ Hin). simpl in H.
    now destruct (contains tok s).
  - intros H [tok rep] Hin. simpl. now rewrite (H tok rep Hin).
Qed.

Lemma contains_cons (q : string) (c : ascii) (t : string) :
  contains q (String c t) = false <->
  strip_prefix q (String c t) = None /\ contains q t = false.
Proof.
  cbn [contains]. destruct (strip_prefix q (String c t)); split;
    try discriminate; try tauto.
  intros [[=] _].
Qed.

Lemma token_at_none_intro (table : list (string * string)) (s : string) :
  (forall tok rep, In (tok, rep) table -> strip_prefix tok s = None) ->
  token_at table s = None.
Proof.
  induction table as [|[tok rep] table IH]; intros H; [reflexivity|].
  assert (Hrest : token_at table s = None).
  { apply IH. intros tok' rep' Hin. apply (H tok' rep'). now right. }
  cbn [token_at]. destruct tok as [|a tok]; [exact Hrest|].
  now rewrite (H (String a tok) rep (or_introl eq_refl)).
Qed.

Lemma token_free_unchanged (table : list (string * string)) (s : string) :
  token_free table s = true -> spec_rewrite table s = s.
Proof.
  rewrite token_free_spec.
  induction s as [|c t IH]; intros H; [now simp spec_rewrite|].
  rewrite spec_rewrite_copy.
  - f_equal. apply IH. intros tok rep Hin.
    now apply (contains_cons tok c t), (H tok rep).
  - apply token_at_none_intro. intros tok rep Hin.
    now apply (contains_cons tok c t), (H tok rep).
Qed.

(** X2. [fix_value] gives a line back unchanged exactly when none of the
    six tokens occurs in it. *)
Theorem fix_value_fixed_points (value : string) :
  fix_value value = value <-> token_free token_table value = true.
Proof.
  rewrite fix_value_one_pass. split; [|apply token_free_unchanged].
  induction value as [|c t IH]; [reflexivity|].
  destruct (token_at token_table (String c t)) as [[rep rest]|] eqn:E.
  - rewrite (spec_rewrite_token _ _ _ _ _ E).
    destruct (token_at_some _ _ _ _ E) as (tok & Hin & Hs).
    rewrite Hs. intros Heq. exfalso.
    unfold token_table, u_dquote, dquote in Hin. simpl in Hin.
    repeat destruct Hin as [[= <- <-]|Hin]; try contradiction;
      simpl in Heq; discriminate.
  - rewrite (spec_rewrite_copy _ _ _ E). intros [= Heq].
    apply token_free_spec. intros tok rep Hin. apply contains_cons. split.
    + pose proof (token_at_none _ _ E) as Hnone.
      unfold token_table, u_dquote, dquote in Hin. simpl in Hin.
      repeat destruct Hin as [[= <- <-]|Hin]; try contradiction;
        (eapply Hnone; simpl; unfold u_dquote, dquote; tauto).
    + revert tok rep Hin. apply token_free_spec. now apply IH.
Qed.

End NormaliserFixedPoints.

(* ===================================================================== *)
(** * Where the state and the postcode are read *)
(* ===================================================================== *)

Section SegmentFacts.
Import Text Places.
Local Open Scope string_scope.

Lemma split_match (p : ascii) (ps s rest : string) :
  strip_prefix (String p ps) s = Some rest ->
  split (String p ps) s = "" :: split (String p ps) rest.
Proof.
  intros H. destruct s as [|c t]; [discriminate|]. simp split.
  destruct (inspect (strip_prefix (String p ps) (String c t))) as [[r|] E];
    simpl; congruence.
Qed.

Lemma split_nomatch (p : ascii) (ps : string) (c : ascii) (t : string) :
  strip_prefix (String p ps) (String c t) = None ->
  split (String p ps) (String c t)
  = match split (String p ps) t with
    | [] => [String c ""]
    | field :: fields => String c field :: fields
    end.
Proof.
  intros H. simp split.
  destruct (inspect (strip_prefix (String p ps) (String c t))) as [[r|] E];
    simpl; congruence.
Qed.

Lemma append_assoc (a b c : string) : (a ++ b) ++ c = a ++ (b ++ c).
Proof. induction a as [|x a IH]; simpl; [reflexivity|now rewrite IH]. Qed.

Lemma append_nil_r (a : string) : a ++ "" = a.
Proof. induction a as [|x a IH]; simpl; [reflexivity|now rewrite IH]. Qed.

(** Joining the fields of a split with the separator gives the string back. *)
Lemma split_join (p : ascii) (ps s : string) :
  concat_ws (String p ps) (split (String p ps) s) = s.
Proof.
  remember (String.length s) as n eqn:Hn. revert s Hn.
  induction n as [n IH] using lt_wf_ind. intros [|c t] Hn.
  - now simp split.
  - destruct (strip_prefix (String p ps) (String c t)) as [rest|] eqn:E.
    + rewrite (split_match _ _ _ _ E).
      pose proof (strip_prefix_length _ _ _ E) as Hlen.
      assert (Hrest : concat_ws (String p ps) (split (String p ps) rest) = rest).
      { apply (IH (String.length rest)); [simpl in *; lia|reflexivity]. }
      apply strip_prefix_inv in E. rewrite E.
      destruct (split (String p ps) rest) as [|f fs] eqn:Es;
        [now destruct (split_not_nil (String p ps) rest)|].
      change (concat_ws (String p ps) ("" :: f :: fs))
        with ("" ++ String p ps ++ concat_ws (String p ps) (f :: fs)).
      rewrite Hrest. reflexivity.
    + rewrite (split_nomatch _ _ _ _ E).
      assert (Ht : concat_ws (String p ps) (split (String p ps) t) = t).
      { apply (IH (String.length t)); [simpl in *; lia|reflexivity]. }
      destruct (split (String p ps) t) as [|f [|g fs]] eqn:Es.
      * now destruct (split_not_nil (String p ps) t).
      * cbn [concat_ws] in *. now rewrite Ht.
      * cbn [concat_ws] in *. rewrite <- Ht. reflexivity.
Qed.

Lemma strip_prefix_longer (q u r x : string) :
  strip_prefix q u = Some r -> strip_prefix q (u ++ x) = Some (r ++ x).
Proof.
  revert u. induction q as [|a q IH]; intros u H; simpl in *.
  - now injection H as <-.
  - destruct u as [|b u]; [discriminate|]. simpl.
    destruct (Ascii.eqb a b); [now apply IH|discriminate].
Qed.

(** No field of a split holds the separator. *)
Lemma split_fields_clean (p : ascii) (ps s : string) :
  Forall (fun field => contains (String p ps) field = false)
         (split (String p ps) s).
Proof.
  remember (String.length s) as n eqn:Hn. revert s Hn.
  induction n as [n IH] using lt_wf_ind. intros [|c t] Hn.
  - simp split. now repeat constructor.
  - destruct (strip_prefix (String p ps) (String c t)) as [rest|] eqn:E.
    + rewrite (split_match _ _ _ _ E). constructor; [reflexivity|].
      apply (IH (String.length rest)); [|reflexivity].
      apply strip_prefix_length in E. simpl in *. lia.
    + rewrite (split_nomatch _ _ _ _ E).
      assert (Hclean : Forall (fun field => contains (String p ps) field = false)
                              (split (String p ps) t)).
      { apply (IH (String.length t)); [simpl in *; lia|reflexivity]. }
      pose proof (split_join p ps t) as Hjoin.
      destruct (split (String p ps) t) as [|f fs] eqn:Es;
        [now destruct (split_not_nil (String p ps) t)|].
      apply Forall_cons_iff in Hclean as [Hf Hfs]. constructor; [|exact Hfs].
      apply contains_cons. split; [|exact Hf].
      destruct (strip_prefix (String p ps) (String c f)) as [r|] eqn:Ef;
        [|reflexivity].
      assert (Hx : exists x, t = f ++ x).
      { destruct fs as [|g fs]; cbn [concat_ws] in Hjoin.
        - exists "". now rewrite append_nil_r.
        - eexists. symmetry. exact Hjoin. }
      destruct Hx as [x ->].
      apply (strip_prefix_longer _ _ _ x) in Ef. simpl in Ef, E. congruence.
Qed.

Lemma last_item_snoc {A : Type} (l : list A) (x : A) :
  last_item l = Ok x -> exists init, l = (init ++ [x])%list.
Proof.
  induction l as [|y [|z l] IH]; intros H; [discriminate| |].
  - injection H as ->. now exists [].
  - destruct (IH H) as [init ->]. now exists (y :: init).
Qed.

Lemma concat_ws_snoc (sep : string) (init : list string) (x : string) :
  init <> [] ->
  concat_ws sep (init ++ [x])%list = (concat_ws sep init ++ sep) ++ x.
Proof.
  induction init as [|f [|g init] IH]; intros H; [contradiction| |].
  - simpl. now rewrite append_assoc.
  - change (concat_ws sep ((f :: g :: init) ++ [x])%list)
      with (f ++ sep ++ concat_ws sep ((g :: init) ++ [x])%list).
    rewrite IH by discriminate. cbn [concat_ws].
    now rewrite !append_assoc.
Qed.

Lemma re_search_prefix (pattern : list atom) (s m : string) :
  re_search pattern s = Some m ->
  String.length m = List.length pattern /\ exists rest, s = m ++ rest.
Proof.
  revert s m. induction pattern as [|a pattern IH]; intros s m H.
  - injection H as <-. split; [reflexivity|now exists s].
  - destruct s as [|c t]; [discriminate|]. cbn [re_search] in H.
    destruct (atom_test a c); [|discriminate].
    destruct (re_search pattern t) as [m'|] eqn:E; [|discriminate].
    injection H as <-. destruct (IH _ _ E) as (Hlen & rest & ->).
    split; [simpl; now rewrite Hlen|now exists rest].
Qed.

(** X3. What [extract_usa] returns is the first eight characters of what
    follows the last [", "] of the last address line, or of the whole line
    when it has no [", "]. *)
Theorem extract_usa_reads_after_last_separator (address : list string) (m : string) :
  extract_usa address = Ok (Some m) ->
  exists line before segment rest,
    last_item address = Ok line
    /\ line = before ++ segment
    /\ (before = "" \/ exists before', before = before' ++ ", ")
    /\ contains ", " segment = false
    /\ segment = m ++ rest
    /\ String.length m = 8.
Proof.
  unfold extract_usa. intros H.
  destruct (last_item address) as [line|e] eqn:Eline; [|discriminate].
  cbn [bind] in H.
  destruct (last_item (split ", " line)) as [segment|e] eqn:Eseg;
    [|discriminate].
  cbn [bind] in H.
  assert (Hm : re_search usa_pattern segment = Some m) by congruence.
  destruct (re_search_prefix usa_pattern segment m Hm) as (Hlen & rest & Hrest).
  exists line. destruct (last_item_snoc _ _ Eseg) as [init Hinit].
  pose proof (split_join "," " " line) as Hjoin.
  pose proof (split_fields_clean "," " " line) as Hclean.
  rewrite Hinit in Hjoin, Hclean.
  apply Forall_app in Hclean as [_ Hclean].
  apply Forall_cons_iff in Hclean as [Hseg _]. subst segment.
  destruct init as [|f init].
  - exists "", (m ++ rest), rest. simpl in Hjoin. repeat split; auto.
  - rewrite concat_ws_snoc in Hjoin by discriminate.
    exists (concat_ws ", " (f :: init) ++ ", "), (m ++ rest), rest.
    repeat split; eauto.
Qed.

End SegmentFacts.

Lemma extract_usa_reads_after_last_separator_witness :
  exists line before segment rest,
    last_item ["123 Main St"; "Los Angeles, CA 90210-1234"] = Ok line
    /\ line = (before ++ segment)%string
    /\ (before = "" \/ exists before', before = (before' ++ ", ")%string)
    /\ contains ", " segment = false
    /\ segment = ("CA 90210" ++ rest)%string
    /\ String.length "CA 90210" = 8.
Proof.
  exact (extract_usa_reads_after_last_separator
           ["123 Main St"; "Los Angeles, CA 90210-1234"] "CA 90210" eq_refl).
Defined.

(* ===================================================================== *)
(** * The rows of the enriched places *)
(* ===================================================================== *)

Section PlacesRows.
Import Text Places.

Lemma filter_key_absent (z : string) (l : list string) :
  ~ In z l -> filter (fun k => String.eqb k z) l = [].
Proof.
  induction l as [|k l IH]; intros H; [reflexivity|].
  simpl. destruct (String.eqb_spec k z) as [->|_].
  - exfalso. apply H. now left.
  - apply IH. intros Hin. apply H. now right.
Qed.

Lemma filter_key_nodup (z : string) (l : list string) :
  NoDup l ->
  filter (fun k => String.eqb k z) l = if in_dec string_dec z l then [z] else [].
Proof.
  induction 1 as [|k l Hk Hl IH]; [reflexivity|].
  simpl. destruct (String.eqb_spec k z) as [->|Hne].
  - rewrite (filter_key_absent _ _ Hk).
    destruct (string_dec z z); [reflexivity|contradiction].
  - rewrite IH. destruct (string_dec k z); [contradiction|].
    now destruct (in_dec string_dec z l).
Qed.

Lemma filter_population_by_zip (pop_df : list (string * Z)) (zip : string) :
  filter (fun r => String.eqb (fst r) zip) (population_by_zip pop_df)
  = match census_total pop_df zip with
    | Some total => [(zip, total)]
    | None => []
    end.
Proof.
  unfold population_by_zip, census_total.
  set (total := fun z => fold_right Z.add 0%Z
                 (map snd (filter (fun r => String.eqb (fst r) z) pop_df))).
  assert (Hmap : forall l,
             filter (fun r : string * Z => String.eqb (fst r) zip)
                    (map (fun z => (z, total z)) l)
             = map (fun z => (z, total z)) (filter (fun k => String.eqb k zip) l)).
  { induction l as [|k l IH]; [reflexivity|]. simpl.
    destruct (String.eqb k zip); simpl; now rewrite IH. }
  rewrite Hmap, (filter_key_nodup _ _ (NoDup_nodup string_dec (map fst pop_df))).
  destruct (in_dec string_dec zip (nodup string_dec (map fst pop_df))) as [Hin|Hout].
  - apply nodup_In, in_map_iff in Hin as ([k v] & Hk & Hin). simpl in Hk. subst k.
    assert (Hf : In (zip, v) (filter (fun r => String.eqb (fst r) zip) pop_df)).
    { apply filter_In. split; [exact Hin|]. simpl. apply String.eqb_refl. }
    subst total. cbn [map].
    destruct (filter (fun r => String.eqb (fst r) zip) pop_df);
      [contradiction|reflexivity].
  - assert (Hnone : filter (fun r => String.eqb (fst r) zip) pop_df = []).
    { destruct (filter (fun r => String.eqb (fst r) zip) pop_df) as [|[k v] l] eqn:E;
        [reflexivity|]. exfalso. apply Hout. apply nodup_In.
      assert (Hin : In (k, v) (filter (fun r => String.eqb (fst r) zip) pop_df))
        by (rewrite E; now left).
      apply filter_In in Hin as [Hin Hk]. simpl in Hk.
      apply String.eqb_eq in Hk. subst k.
      apply in_map_iff. now exists (zip, v). }
    now rewrite Hnone.
Qed.

(** The left join finds one population at most, so it keeps each place
    once. *)
Lemma join_population_single (pop_df : list (string * Z)) (postcode : option string) :
  join_population (population_by_zip pop_df) postcode
  = [match postcode with
     | None => None
     | Some zip => census_total pop_df zip
     end].
Proof.
  unfold join_population. destruct postcode as [zip|]; [|reflexivity].
  rewrite filter_population_by_zip.
  now destruct (census_total pop_df zip).
Qed.

Lemma process_places_rows (places_df : list raw) (pop_df : list (string * Z))
      (rows : list row) :
  process_places places_df pop_df = Ok rows ->
  Forall2 (row_of pop_df) places_df rows.
Proof.
  unfold process_places. revert rows.
  induction places_df as [|p places_df IH]; intros rows H.
  - injection H as <-. constructor.
  - cbn [enrich_all] in H. unfold enrich in H.
    destruct (geo_columns (raw_address p)) as [[[st pc] co]|e] eqn:Egeo;
      [|discriminate].
    cbn [bind] in H. rewrite join_population_single in H. cbn [map bind] in H.
    destruct (enrich_all (population_by_zip pop_df) places_df) as [rest|e] eqn:Erest;
      [|discriminate].
    cbn [bind] in H. injection H as <-. simpl.
    constructor; [|now apply IH].
    unfold row_of. simpl. now rewrite Egeo.
Qed.

(** X4. When [process_places] succeeds it writes one row for each place, in
    the order of the places: the left join with the population table
    neither drops nor repeats a place. Identifier and name are those of
    the place, the address is its lines joined by commas, the price is the
    length of its price string. *)
Theorem process_places_keeps_every_place (places_df : list raw)
        (pop_df : list (string * Z)) (rows : list row) :
  process_places places_df pop_df = Ok rows ->
  List.length rows = List.length places_df
  /\ Forall2 (fun p r => gPlusPlaceId r = raw_gPlusPlaceId p
                         /\ name r = raw_name p
                         /\ address r = concat_ws "," (raw_address p)
                         /\ price r = F_length (raw_price p))
             places_df rows.
Proof.
  intros H. apply process_places_rows in H. split.
  - symmetry. exact (Forall2_length H).
  - induction H as [|p r ps rs Hrow _ IH]; constructor; [|exact IH].
    unfold row_of in Hrow. tauto.
Qed.

(** X5. The population of every row written is the sum of all census rows
    of its postcode; it is absent when the row has no postcode or the
    census has no row for it. *)
Theorem population_is_census_total (places_df : list raw)
        (pop_df : list (string * Z)) (rows : list row) (r : row) :
  process_places places_df pop_df = Ok rows ->
  In r rows ->
  population r = match postcode r with
                 | None => None
                 | Some zip => census_total pop_df zip
                 end.
Proof.
  intros H Hin. apply process_places_rows in H.
  induction H as [|p r' ps rs Hrow _ IH]; [contradiction|].
  destruct Hin as [->|Hin]; [|now apply IH].
  unfold row_of in Hrow. tauto.
Qed.

End PlacesRows.

(* ===================================================================== *)
(** * Addresses on which the UDF raises *)
(* ===================================================================== *)

Section NullableAddresses.
Import NullablePlaces.

Lemma last_item_map {A B : Type} (f : A -> B) (l : list A) :
  last_item (map f l)
  = match last_item l with
    | Ok x => Ok (f x)
    | Raise e => Raise e
    end.
Proof.
  induction l as [|x [|y l] IH]; [reflexivity|reflexivity|].
  exact IH.
Qed.

Lemma last_item_app_one {A : Type} (init : list A) (x : A) :
  last_item (init ++ [x]) = Ok x.
Proof.
  induction init as [|y init IH]; [reflexivity|].
  cbn [app]. destruct (init ++ [x])%list eqn:E; [now destruct init|].
  exact IH.
Qed.

Lemma non_null_some {A : Type} (l : list A) : non_null (map Some l) = l.
Proof. induction l as [|x l IH]; [reflexivity|]. cbn. now rewrite IH. Qed.

Lemma extract_usa_of_strings (address : list string) :
  extract_usa (Some (map Some address)) = Places.extract_usa address.
Proof.
  unfold extract_usa, Places.extract_usa. rewrite last_item_map.
  now destruct (last_item address).
Qed.

Lemma enrich_of_strings (pop : list (string * Z)) (p : Places.raw) :
  enrich pop (of_strings p) = Places.enrich pop p.
Proof.
  unfold enrich, Places.enrich, geo_columns, Places.geo_columns, of_strings.
  cbn [raw_address raw_gPlusPlaceId raw_name raw_price].
  rewrite extract_usa_of_strings. unfold F_concat_ws.
  now rewrite non_null_some.
Qed.

Lemma process_places_of_strings (places : list Places.raw)
      (pop_df : list (string * Z)) :
  process_places (map of_strings places) pop_df
  = Places.process_places places pop_df.
Proof.
  unfold process_places, Places.process_places.
  induction places as [|p places IH]; [reflexivity|].
  cbn [map enrich_all Places.enrich_all].
  now rewrite enrich_of_strings, IH.
Qed.

(** The three addresses on which the UDF raises, each with its exception. *)
Lemma extract_usa_raises (address : option (list (option string))) (e : exn) :
  extract_usa address = Raise e <->
  (address = None /\ e = not_subscriptable)
  \/ (address = Some [] /\ e = IndexError "list index out of range")
  \/ (exists lines, address = Some (lines ++ [None])%list /\ e = no_split).
Proof.
  unfold extract_usa. destruct address as [lines|].
  - destruct (last_item lines) as [[line|]|e'] eqn:Elast; cbn [bind].
    + destruct (last_item_ok _ (split_not_nil ", " line)) as [segment ->].
      cbn [bind]. split; [discriminate|].
      intros [[H _]|[[H _]|(init & H & _)]]; [discriminate| |].
      * injection H as ->. discriminate.
      * injection H as ->. rewrite last_item_app_one in Elast. discriminate.
    + apply last_item_snoc in Elast as [init ->]. split.
      * intros [= <-]. right. right. now exists init.
      * intros [[H _]|[[H _]|(init' & _ & ->)]]; [discriminate| |reflexivity].
        injection H as H. now destruct init.
    + destruct lines as [|l lines].
      * injection Elast as <-. split.
        -- intros [= <-]. right. left. now split.
        -- intros [[H _]|[[_ ->]|(init & H & _)]]; [discriminate|reflexivity|].
           injection H as H. now destruct init.
      * destruct (last_item_ok (l :: lines)) as [x Hx]; [discriminate|].
        congruence.
  - split.
    + intros [= <-]. now left.
    + intros [[_ ->]|[[H _]|(init & H & _)]]; [reflexivity|discriminate..].
Qed.

Lemma enrich_raises (pop : list (string * Z)) (p : raw) (e : exn) :
  enrich pop p = Raise e <-> extract_usa (raw_address p) = Raise e.
Proof.
  unfold enrich, geo_columns.
  destruct (extract_usa (raw_address p)) as [m|e']; cbn [bind].
  - split; discriminate.
  - split; intros [= ->]; reflexivity.
Qed.

Lemma enrich_all_raise_inv (pop : list (string * Z)) (places_df : list raw)
      (e : exn) :
  enrich_all pop places_df = Raise e ->
  exists p, In p places_df /\ extract_usa (raw_address p) = Raise e.
Proof.
  induction places_df as [|p places_df IH]; cbn [enrich_all]; [discriminate|].
  destruct (enrich pop p) as [rows|e'] eqn:Ep; cbn [bind].
  - destruct (enrich_all pop places_df) as [rest|e'']; cbn [bind];
      [discriminate|].
    intros [= ->]. destruct (IH eq_refl) as (q & Hq & Hraise).
    exists q. split; [now right|exact Hraise].
  - intros [= ->]. exists p. split; [now left|]. now apply enrich_raises in Ep.
Qed.

Lemma enrich_all_raise_intro (pop : list (string * Z)) (places_df : list raw)
      (p : raw) (e : exn) :
  In p places_df -> extract_usa (raw_address p) = Raise e ->
  exists e', enrich_all pop places_df = Raise e'.
Proof.
  induction places_df as [|q places_df IH]; intros Hin Hraise; [contradiction|].
  cbn [enrich_all].
  destruct (enrich pop q) as [rows|e'] eqn:Eq; cbn [bind]; [|now exists e'].
  destruct Hin as [->|Hin].
  - apply (enrich_raises pop) in Hraise. congruence.
  - destruct (IH Hin Hraise) as [e' ->]. now exists e'.
Qed.

(** The rows written carry the identifiers of the places, in order. *)
Lemma process_places_ids (places_df : list raw) (pop_df : list (string * Z))
      (rows : list Places.row) :
  process_places places_df pop_df = Ok rows ->
  map Places.gPlusPlaceId rows = map raw_gPlusPlaceId places_df.
Proof.
  unfold process_places. revert rows.
  induction places_df as [|p places_df IH]; intros rows H.
  - injection H as <-. reflexivity.
  - cbn [enrich_all] in H. unfold enrich in H.
    destruct (geo_columns (raw_address p)) as [[[st pc] co]|e]; cbn [bind] in H;
      [|discriminate].
    destruct (enrich_all (Places.population_by_zip pop_df) places_df)
      as [rest|e]; cbn [bind] in H; [|discriminate].
    rewrite join_population_single in H. injection H as <-.
    cbn [map app Places.gPlusPlaceId]. f_equal. now apply IH.
Qed.

(** X6. [process_places] raises exactly when the UDF raises on the address
    of some place: a null address (TypeError), an address without lines
    (IndexError) or an address whose last line is null (AttributeError).
    One such place fails the whole frame, and what is raised is the
    exception of such a place. On places whose addresses are arrays of
    strings the steps are those of [Places.process_places]. *)
Theorem process_places_raises (places_df : list raw)
        (pop_df : list (string * Z)) :
  (forall e, process_places places_df pop_df = Raise e ->
             exists p, In p places_df
                       /\ ((raw_address p = None /\ e = not_subscriptable)
                           \/ (raw_address p = Some []
                               /\ e = IndexError "list index out of range")
                           \/ (exists lines,
                                  raw_address p = Some (lines ++ [None])%list
                                  /\ e = no_split)))
  /\ (forall p, In p places_df ->
                raw_address p = None \/ raw_address p = Some []
                \/ (exists lines, raw_address p = Some (lines ++ [None])%list) ->
                exists e, process_places places_df pop_df = Raise e)
  /\ (forall places,
         process_places (map of_strings places) pop_df
         = Places.process_places places pop_df).
Proof.
  split; [|split].
  - intros e H. apply enrich_all_raise_inv in H as (p & Hp & Hraise).
    exists p. split; [exact Hp|]. now apply extract_usa_raises.
  - intros p Hp Hbad. unfold process_places.
    destruct Hbad as [H|[H|(lines & H)]].
    + apply (enrich_all_raise_intro _ _ p not_subscriptable Hp).
      apply extract_usa_raises. now left.
    + apply (enrich_all_raise_intro _ _ p
               (IndexError "list index out of range") Hp).
      apply extract_usa_raises. right. now left.
    + apply (enrich_all_raise_intro _ _ p no_split Hp).
      apply extract_usa_raises. right. right. now exists lines.
  - intros places. apply process_places_of_strings.
Qed.

End NullableAddresses.


Lemma population_is_census_total_witness :
  Places.process_places [la_place] census = Ok [la_row]
  /\ Places.population la_row = Some 150%Z.
Proof.
  split; [reflexivity|].
  exact (population_is_census_total [la_place] census [la_row] la_row
           eq_refl (or_introl eq_refl)).
Defined.

(* ===================================================================== *)
(** * The shape of state, postcode and country *)
(* ===================================================================== *)

Section GeoShape.
Import Text Places.

Lemma usa_pattern_inv (segment m : string) :
  re_search usa_pattern segment = Some m ->
  exists a b w d1 d2 d3 d4 d5,
    m = String a (String b (String w (String d1 (String d2 (String d3
          (String d4 (String d5 "")))))))
    /\ is_upper a = true /\ is_upper b = true /\ is_space w = true
    /\ is_digit d1 = true /\ is_digit d2 = true /\ is_digit d3 = true
    /\ is_digit d4 = true /\ is_digit d5 = true.
Proof.
  intros H. unfold usa_pattern in H.
  destruct segment as [|a s]; cbn [re_search atom_test] in H; [discriminate|].
  destruct (is_upper a) eqn:Ua; [|discriminate].
  destruct s as [|b s]; cbn [re_search atom_test] in H; [discriminate|].
  destruct (is_upper b) eqn:Ub; [|discriminate].
  destruct s as [|w s]; cbn [re_search atom_test] in H; [discriminate|].
  destruct (is_space w) eqn:W; [|discriminate].
  destruct s as [|d1 s]; cbn [re_search atom_test] in H; [discriminate|].
  destruct (is_digit d1) eqn:D1; [|discriminate].
  destruct s as [|d2 s]; cbn [re_search atom_test] in H; [discriminate|].
  destruct (is_digit d2) eqn:D2; [|discriminate].
  destruct s as [|d3 s]; cbn [re_search atom_test] in H; [discriminate|].
  destruct (is_digit d3) eqn:D3; [|discriminate].
  destruct s as [|d4 s]; cbn [re_search atom_test] in H; [discriminate|].
  destruct (is_digit d4) eqn:D4; [|discriminate].
  destruct s as [|d5 s]; cbn [re_search atom_test] in H; [discriminate|].
  destruct (is_digit d5) eqn:D5; [|discriminate].
  cbn [re_search option_map] in H. injection H as <-.
  exists a, b, w, d1, d2, d3, d4, d5. repeat split; assumption.
Qed.

Lemma split_unbroken (a b w d1 d2 d3 d4 d5 : ascii) :
  is_upper a = true -> is_upper b = true -> Ascii.eqb " " w = false ->
  is_digit d1 = true -> is_digit d2 = true -> is_digit d3 = true ->
  is_digit d4 = true -> is_digit d5 = true ->
  split " " (String a (String b (String w (String d1 (String d2 (String d3
               (String d4 (String d5 ""))))))))
  = [String a (String b (String w (String d1 (String d2 (String d3
               (String d4 (String d5 "")))))))].
Proof.
  intros Ua Ub W D1 D2 D3 D4 D5.
  rewrite (split_other_head _ _ _ (upper_not_blank _ Ua)).
  rewrite (split_other_head _ _ _ (upper_not_blank _ Ub)).
  rewrite (split_other_head _ _ _ W).
  rewrite (split_other_head _ _ _ (digit_not_blank _ D1)).
  rewrite (split_other_head _ _ _ (digit_not_blank _ D2)).
  rewrite (split_other_head _ _ _ (digit_not_blank _ D3)).
  rewrite (split_other_head _ _ _ (digit_not_blank _ D4)).
  rewrite (split_other_head _ _ _ (digit_not_blank _ D5)).
  now simp split.
Qed.

(** X7. Every row that [process_places] writes either has no state, no
    postcode and no country, or has the country USA and a state and
    postcode cut from a match [a b w d1 d2 d3 d4 d5] of two uppercase
    letters, a whitespace character and five digits: when [w] is a space
    the state is the two letters and the postcode the five digits;
    otherwise the state is the whole match and the postcode is absent.
    The country is never anything but USA. *)
Theorem geo_columns_shape (places_df : list raw) (pop_df : list (string * Z))
        (rows : list row) (r : row) :
  process_places places_df pop_df = Ok rows ->
  In r rows ->
  (state r = None /\ postcode r = None /\ country r = None)
  \/ (country r = Some "USA"
      /\ exists a b w d1 d2 d3 d4 d5,
           is_upper a = true /\ is_upper b = true /\ is_space w = true
           /\ is_digit d1 = true /\ is_digit d2 = true /\ is_digit d3 = true
           /\ is_digit d4 = true /\ is_digit d5 = true
           /\ if Ascii.eqb " " w
              then state r = Some (String a (String b ""))
                   /\ postcode r
                      = Some (String d1 (String d2 (String d3 (String d4
                                (String d5 "")))))
              else state r
                   = Some (String a (String b (String w (String d1 (String d2
                             (String d3 (String d4 (String d5 ""))))))))
                   /\ postcode r = None).
Proof.
  intros H Hin. apply process_places_rows in H.
  assert (Hrow : exists p, geo_columns (raw_address p)
                           = Ok (state r, postcode r, country r)).
  { induction H as [|p r' ps rs Hrow _ IH]; [contradiction|].
    destruct Hin as [->|Hin]; [|now apply IH].
    exists p. unfold row_of in Hrow. tauto. }
  destruct Hrow as [p Hgeo]. unfold geo_columns in Hgeo.
  destruct (extract_usa (raw_address p)) as [[m|]|e] eqn:Eex;
    cbn [bind] in Hgeo; [| |discriminate].
  - right.
    assert (Hm : exists segment, re_search usa_pattern segment = Some m).
    { unfold extract_usa in Eex.
      destruct (last_item (raw_address p)) as [line|]; [|discriminate].
      cbn [bind] in Eex.
      destruct (last_item (split ", " line)) as [segment|]; [|discriminate].
      cbn [bind] in Eex. exists segment. congruence. }
    destruct Hm as [segment Hm].
    destruct (usa_pattern_inv _ _ Hm)
      as (a & b & w & d1 & d2 & d3 & d4 & d5 & -> & Ua & Ub & W
          & D1 & D2 & D3 & D4 & D5).
    unfold F_split, getItem, option_map in Hgeo.
    destruct (Ascii.eqb " " w) eqn:Ew.
    + apply Ascii.eqb_eq in Ew. subst w.
      rewrite split_state_zip in Hgeo by assumption.
      cbn [nth_error] in Hgeo. injection Hgeo as <- <- <-.
      split; [reflexivity|].
      exists a, b, " "%char, d1, d2, d3, d4, d5.
      rewrite Ascii.eqb_refl. repeat split; assumption.
    + rewrite split_unbroken in Hgeo by assumption.
      cbn [nth_error] in Hgeo. injection Hgeo as <- <- <-.
      split; [reflexivity|].
      exists a, b, w, d1, d2, d3, d4, d5.
      rewrite Ew. repeat split; assumption.
  - left. cbn in Hgeo. injection Hgeo as <- <- <-. repeat split.
Qed.

End GeoShape.

Lemma geo_columns_shape_witness :
  Places.process_places [la_place] census = Ok [la_row]
  /\ Places.country la_row = Some "USA".
Proof.
  split; [reflexivity|].
  destruct (geo_columns_shape [la_place] census [la_row] la_row
              eq_refl (or_introl eq_refl))
    as [(Hs & _)|(Hc & _)].
  - discriminate Hs.
  - exact Hc.
Defined.

Lemma process_places_keeps_every_place_witness :
  Places.process_places [la_place; la_place] census = Ok [la_row; la_row]
  /\ List.length [la_row; la_row] = 2.
Proof.
  split; [reflexivity|].
  exact (proj1 (process_places_keeps_every_place
                  [la_place; la_place] census [la_row; la_row] eq_refl)).
Defined.

(* ===================================================================== *)
(** * Reviews without a time *)
(* ===================================================================== *)

Section ReviewColumns.
Import Reviews.

Variable utc_offset : Z -> Z.


Lemma non_null_in {A : Type} (xs : list (option A)) (x : A) :
  In x (non_null xs) <-> In (Some x) xs.
Proof.
  induction xs as [|[y|] xs IH]; simpl.
  - tauto.
  - rewrite IH. split; intros [H|H]; auto; left; congruence.
  - rewrite IH. split; [auto|]. intros [H|H]; [discriminate|exact H].
Qed.

End ReviewColumns.


(* ===================================================================== *)
(** * The outcomes of the lake builder *)
(* ===================================================================== *)

Section LakeOutcomes.
Import Lake.

Lemma matching_places_unique (places_df : list Places.row) (r : Reviews.row) :
  NoDup (non_null (map Places.gPlusPlaceId places_df)) ->
  matching_places places_df r <= 1.
Proof.
  unfold matching_places.
  induction places_df as [|p ps IH]; intros Hnd; [simpl; lia|].
  cbn [map non_null filter] in *.
  destruct (Places.gPlusPlaceId p) as [k|] eqn:Ek.
  - apply NoDup_cons_iff in Hnd as [Hk Hnd].
    destruct (key_eq (Reviews.gPlusPlaceId r) (Some k)) eqn:Eq.
    + assert (Hnone : filter (fun p' => key_eq (Reviews.gPlusPlaceId r)
                                                (Places.gPlusPlaceId p')) ps = []).
      { destruct (filter _ ps) as [|q l] eqn:Ef; [reflexivity|]. exfalso.
        assert (Hq : In q (filter (fun p' => key_eq (Reviews.gPlusPlaceId r)
                                       (Places.gPlusPlaceId p')) ps))
          by (rewrite Ef; now left).
        apply filter_In in Hq as [Hq Hkq]. apply Hk.
        apply non_null_in. apply in_map_iff. exists q. split; [|exact Hq].
        destruct (Reviews.gPlusPlaceId r) as [kr|]; [|discriminate].
        destruct (Places.gPlusPlaceId q) as [kq|]; [|discriminate].
        simpl in Eq, Hkq. apply String.eqb_eq in Eq, Hkq. congruence. }
      rewrite Hnone. simpl. lia.
    + now apply IH.
  - destruct (Reviews.gPlusPlaceId r); simpl; now apply IH.
Qed.

Lemma list_sum_le_length {A : Type} (f : A -> nat) (l : list A) :
  (forall x, In x l -> f x <= 1) -> list_sum (map f l) <= List.length l.
Proof.
  induction l as [|x l IH]; intros H; simpl; [lia|].
  pose proof (H x (or_introl eq_refl)).
  assert (list_sum (map f l) <= List.length l)
    by (apply IH; intros; apply H; now right).
  lia.
Qed.

(** X10. When no two USA places have the same [gPlusPlaceId],
    [create_data_lake] never raises "Join resulted in too many rows",
    whatever the reviews are. *)
Theorem unique_places_pass_join_check (reviews_df : list Reviews.row)
        (places_df : list Places.row) :
  NoDup (non_null (map Places.gPlusPlaceId (usa_places places_df))) ->
  List.length (joined reviews_df places_df)
  <= List.length (with_categories reviews_df)
  /\ create_data_lake reviews_df places_df <> Raise too_many_rows.
Proof.
  intros Hnd.
  assert (Hle : List.length (joined reviews_df places_df)
                <= List.length (with_categories reviews_df)).
  { unfold joined. rewrite inner_join_length. apply list_sum_le_length.
    intros r _. now apply matching_places_unique. }
  split; [exact Hle|].
  unfold create_data_lake, joined in *.
  destruct (Nat.ltb_spec (List.length (with_categories reviews_df))
              (List.length (inner_join (with_categories reviews_df)
                                       (usa_places places_df)))); [lia|].
  repeat match goal with
         | |- context [if ?c then _ else _] => destruct c
         end; discriminate.
Qed.

Lemma drop_rare_exploded (reviews_df : list Reviews.row)
      (places_df : list Places.row) :
  drop_rare (exploded reviews_df places_df)
  = filter (fun r => 10 <? rows_of_category (exploded reviews_df places_df) r)
           (exploded reviews_df places_df).
Proof.
  unfold drop_rare, rows_of_category. apply filter_ext_in. intros r Hr.
  rewrite num_reviews_for_cat_count; [reflexivity|].
  intros r' Hr'. apply in_exploded in Hr' as (_ & _ & _ & key & -> & _).
  discriminate.
Qed.

Lemma has_rare_spec (lake : list row) :
  has_rare lake = true <->
  exists r, In r lake /\ rows_of_category lake r <= 10.
Proof.
  unfold has_rare. rewrite existsb_exists.
  split; intros (r & Hr & H); exists r; split; auto;
    now apply Nat.leb_le.
Qed.

Lemma has_frequent_spec (lake : list row) :
  has_frequent lake = true <->
  exists r, In r lake /\ 10 < rows_of_category lake r.
Proof.
  unfold has_frequent. rewrite existsb_exists.
  split; intros (r & Hr & H); exists r; split; auto;
    now apply Nat.ltb_lt.
Qed.

Lemma frequent_rows_nil (lake : list row) :
  filter (fun r => 10 <? rows_of_category lake r) lake = [] <->
  has_frequent lake = false.
Proof.
  split.
  - intros H. destruct (has_frequent lake) eqn:E; [|reflexivity].
    apply has_frequent_spec in E as (r & Hr & Hc).
    assert (Hin : In r (filter (fun r => 10 <? rows_of_category lake r) lake)).
    { apply filter_In. split; [exact Hr|]. now apply Nat.ltb_lt. }
    rewrite H in Hin. contradiction.
  - intros H. destruct (filter _ lake) as [|r l] eqn:E; [reflexivity|].
    assert (Hin : In r (filter (fun r => 10 <? rows_of_category lake r) lake))
      by (rewrite E; now left).
    apply filter_In in Hin as [Hr Hc]. apply Nat.ltb_lt in Hc.
    assert (has_frequent lake = true) by (apply has_frequent_spec; eauto).
    congruence.
Qed.

Lemma frequent_rows_all (lake : list row) :
  has_rare lake = false ->
  filter (fun r => 10 <? rows_of_category lake r) lake = lake.
Proof.
  intros H. apply forallb_filter_id. apply forallb_forall. intros r Hr.
  apply Nat.ltb_lt. destruct (Nat.le_gt_cases (rows_of_category lake r) 10) as [Hle|Hgt];
    [|exact Hgt].
  assert (has_rare lake = true) by (apply has_rare_spec; eauto). congruence.
Qed.

Lemma fewer_categories_iff (lake : list row) :
  distinct_categories (filter (fun r => 10 <? rows_of_category lake r) lake)
  < distinct_categories lake
  <-> has_rare lake = true.
Proof.
  unfold distinct_categories. split.
  - intros Hlt. destruct (has_rare lake) eqn:E; [reflexivity|].
    rewrite (frequent_rows_all _ E) in Hlt. lia.
  - intros H. apply has_rare_spec in H as (r & Hr & Hc).
    set (kept := filter (fun r => 10 <? rows_of_category lake r) lake).
    assert (Hincl : incl (category r :: nodup string_dec (map category kept))
                         (nodup string_dec (map category lake))).
    { intros c [<-|Hc']; apply nodup_In.
      - now apply in_map.
      - apply nodup_In, in_map_iff in Hc' as (r' & <- & Hr').
        apply in_map. now apply filter_In in Hr' as [Hr' _]. }
    assert (Hnd : NoDup (category r :: nodup string_dec (map category kept))).
    { constructor; [|apply NoDup_nodup]. intros Hin.
      apply nodup_In, in_map_iff in Hin as (r' & Heq & Hr').
      apply filter_In in Hr' as [_ Hgt]. apply Nat.ltb_lt in Hgt.
      unfold rows_of_category in *. rewrite Heq in Hgt. lia. }
    pose proof (NoDup_incl_length Hnd Hincl) as Hlen. simpl in Hlen. lia.
Qed.

(** The three checks of a run whose join check passes, by the rare and the
    frequent categories of the exploded lake. *)
Lemma create_data_lake_cases (reviews_df : list Reviews.row)
      (places_df : list Places.row) :
  List.length (joined reviews_df places_df)
  <= List.length (with_categories reviews_df) ->
  create_data_lake reviews_df places_df
  = if negb (has_rare (exploded reviews_df places_df))
    then Raise filtered_incorrectly
    else if negb (has_frequent (exploded reviews_df places_df))
         then Raise not_populated
         else Ok {| reviews_lake := drop_rare (exploded reviews_df places_df);
                    temp_lake := map select_staging
                                     (drop_rare (exploded reviews_df places_df)) |}.
Proof.
  intros Hle.
  pose proof (fewer_categories_iff (exploded reviews_df places_df)) as Hfew.
  pose proof (frequent_rows_nil (exploded reviews_df places_df)) as Hnil.
  rewrite <- drop_rare_exploded in Hfew, Hnil.
  unfold create_data_lake. fold (joined reviews_df places_df).
  fold (exploded reviews_df places_df).
  destruct (Nat.ltb_spec (List.length (with_categories reviews_df))
              (List.length (joined reviews_df places_df))); [lia|].
  destruct (Nat.leb_spec
              (distinct_categories (exploded reviews_df places_df))
              (distinct_categories (drop_rare (exploded reviews_df places_df))))
    as [Hge|Hlt].
  - destruct (has_rare (exploded reviews_df places_df)); [|reflexivity].
    assert (distinct_categories (drop_rare (exploded reviews_df places_df))
            < distinct_categories (exploded reviews_df places_df))
      by now apply Hfew.
    lia.
  - rewrite (proj1 Hfew Hlt). cbn [negb reviews_lake temp_lake].
    rewrite length_map, orb_diag.
    destruct (has_frequent (exploded reviews_df places_df)) eqn:Ef.
    + destruct (drop_rare (exploded reviews_df places_df)) eqn:Ed;
        [|reflexivity].
      assert (true = false) by now apply Hnil. discriminate.
    + rewrite (proj2 Hnil eq_refl). reflexivity.
Qed.

(** X11. Once the join check has passed, the outcome of [create_data_lake]
    is decided by the categories of the exploded lake: it raises
    "Categories were incorrectly filtered" exactly when no row has a
    category of 10 rows or fewer (also when the lake has no row at all);
    it raises "Data lakes were not populated" exactly when the lake has
    rows and every category has 10 rows or fewer; it succeeds exactly when
    there is both a category of at most 10 rows and one of more. *)
Theorem lake_outcome_by_categories (reviews_df : list Reviews.row)
        (places_df : list Places.row) :
  List.length (joined reviews_df places_df)
  <= List.length (with_categories reviews_df) ->
  let lake := exploded reviews_df places_df in
  (create_data_lake reviews_df places_df = Raise filtered_incorrectly
   <-> forall r, In r lake -> 10 < rows_of_category lake r)
  /\ (create_data_lake reviews_df places_df = Raise not_populated
      <-> lake <> [] /\ forall r, In r lake -> rows_of_category lake r <= 10)
  /\ ((exists out, create_data_lake reviews_df places_df = Ok out)
      <-> (exists r, In r lake /\ rows_of_category lake r <= 10)
          /\ (exists r, In r lake /\ 10 < rows_of_category lake r)).
Proof.
  intros Hle lake. rewrite (create_data_lake_cases _ _ Hle). fold lake.
  pose proof (has_rare_spec lake) as Hrare.
  pose proof (has_frequent_spec lake) as Hfreq.
  destruct (has_rare lake) eqn:Er; cbn [negb].
  - destruct (proj1 Hrare eq_refl) as (r0 & Hr0 & Hc0).
    destruct (has_frequent lake) eqn:Ef; cbn [negb].
    + destruct (proj1 Hfreq eq_refl) as (r1 & Hr1 & Hc1).
      split; [|split].
      * split; [discriminate|]. intros H. specialize (H r0 Hr0). lia.
      * split; [discriminate|]. intros [_ H]. specialize (H r1 Hr1). lia.
      * split; [intros _; split; eauto | intros _; eauto].
    + split; [|split].
      * split; [discriminate|]. intros H. specialize (H r0 Hr0). lia.
      * split; [|reflexivity]. intros _. split.
        -- intros E. rewrite E in Hr0. contradiction.
        -- intros r Hr.
           destruct (Nat.le_gt_cases (rows_of_category lake r) 10); [assumption|].
           assert (false = true) by (apply Hfreq; eauto). discriminate.
      * split; [intros [out [=]]|].
        intros [_ H]. apply Hfreq in H. discriminate.
  - split; [|split].
    + split; [|reflexivity]. intros _ r Hr.
      destruct (Nat.le_gt_cases (rows_of_category lake r) 10); [|assumption].
      assert (false = true) by (apply Hrare; eauto). discriminate.
    + split; [discriminate|]. intros [Hne H].
      destruct lake as [|r l] eqn:El; [contradiction|].
      assert (false = true).
      { apply Hrare. exists r. split; [now left|]. apply H. now left. }
      discriminate.
    + split; [intros [out [=]]|].
      intros [H _]. apply Hrare in H. discriminate.
Qed.

End LakeOutcomes.

Lemma unique_places_pass_join_check_witness :
  List.length (Lake.joined doubled_reviews [usa_place "p1"])
  <= List.length (Lake.with_categories doubled_reviews)
  /\ Lake.create_data_lake doubled_reviews [usa_place "p1"]
     <> Raise Lake.too_many_rows.
Proof.
  apply (unique_places_pass_join_check doubled_reviews [usa_place "p1"]).
  vm_compute. repeat constructor. intros [].
Defined.

Lemma lake_outcome_by_categories_witness :
  exists out, Lake.create_data_lake cafe_reviews [usa_place "p1"] = Ok out.
Proof.
  assert (Hle : List.length (Lake.joined cafe_reviews [usa_place "p1"])
                <= List.length (Lake.with_categories cafe_reviews))
    by (vm_compute; lia).
  apply (proj2 (proj2 (proj2 (lake_outcome_by_categories
                                cafe_reviews [usa_place "p1"] Hle)))).
  split.
  - exists {| Lake.review := Reviews.enrich utc cafes_and_a_bar
                               (review_of "p1" "u1" "Bar" 1);
              Lake.place := usa_place "p1";
              Lake.category := "Bar" |}.
    split; [vm_compute; tauto | vm_compute; lia].
  - exists {| Lake.review := Reviews.enrich utc cafes_and_a_bar
                               (review_of "p1" "u1" "Cafe" 4);
              Lake.place := usa_place "p1";
              Lake.category := "Cafe" |}.
    split; [vm_compute; tauto | vm_compute; lia].
Defined.

(* ===================================================================== *)
(** * What the lake builder writes *)
(* ===================================================================== *)

Section LakeRows.
Import Lake.

Lemma count_occ_kept (lake : list row) (keep : string -> bool) (c : string) :
  keep c = true ->
  count_occ string_dec (map category (filter (fun r => keep (category r)) lake)) c
  = count_occ string_dec (map category lake) c.
Proof.
  intros Hc. induction lake as [|r lake IH]; [reflexivity|].
  cbn [filter map]. destruct (keep (category r)) eqn:Ek.
  - cbn [map count_occ]. now rewrite IH.
  - cbn [count_occ]. destruct (string_dec (category r) c) as [E|_];
      [congruence|exact IH].
Qed.

(** X12. Every row that [create_data_lake] writes joins a review that has
    categories with a USA place of the same non-null [gPlusPlaceId], carries
    one of the categories of that review, and belongs to a category that
    has more than 10 rows in the written lake itself; [temp_lake] is the
    15-column projection of [reviews_lake], row by row. *)
Theorem written_rows (reviews_df : list Reviews.row)
        (places_df : list Places.row) (out : lakes) (r : row) :
  create_data_lake reviews_df places_df = Ok out ->
  In r (reviews_lake out) ->
  In (review r) reviews_df
  /\ In (place r) places_df
  /\ Places.country (place r) = Some "USA"
  /\ (exists key, Reviews.gPlusPlaceId (review r) = Some key
                  /\ Places.gPlusPlaceId (place r) = Some key)
  /\ (exists cats, Reviews.categories (review r) = Some cats
                   /\ In (category r) cats)
  /\ 10 < rows_of_category (reviews_lake out) r
  /\ temp_lake out = map select_staging (reviews_lake out).
Proof.
  intros Hok Hr.
  apply create_data_lake_ok in Hok as (_ & _ & Hlake & Htemp & _).
  rewrite Hlake, drop_rare_exploded in Hr |- *.
  apply filter_In in Hr as [Hr Hgt]. apply Nat.ltb_lt in Hgt.
  pose proof (in_exploded _ _ _ Hr) as (Hrev & Hpl & Hus & Hkey).
  pose proof (in_explode _ _ Hr) as [_ Hcats].
  repeat split; try assumption.
  - unfold rows_of_category in *.
    rewrite (count_occ_kept (exploded reviews_df places_df)
               (fun c => 10 <? count_occ string_dec
                                 (map category (exploded reviews_df places_df)) c)).
    + exact Hgt.
    + now apply Nat.ltb_lt.
  - rewrite Htemp, Hlake, drop_rare_exploded. reflexivity.
Qed.

End LakeRows.

Lemma written_rows_witness :
  Lake.create_data_lake cafe_reviews [usa_place "p1"] = Ok cafe_lake
  /\ 10 < rows_of_category (Lake.reviews_lake cafe_lake) cafe_row.
Proof.
  assert (E : Lake.create_data_lake cafe_reviews [usa_place "p1"] = Ok cafe_lake)
    by reflexivity.
  split; [exact E|].
  exact (proj1 (proj2 (proj2 (proj2 (proj2 (proj2
           (written_rows cafe_reviews [usa_place "p1"] cafe_lake cafe_row
                         E (or_introl eq_refl)))))))).
Defined.

(* ===================================================================== *)
(** * From the raw frames to the staging rows *)
(* ===================================================================== *)

Section SparkStage.

Variable utc_offset : Z -> Z.

Lemma in_process_places (places_raw : list Places.raw) (pop_df : list (string * Z))
      (rows : list Places.row) (row : Places.row) :
  Places.process_places places_raw pop_df = Ok rows ->
  In row rows ->
  exists p, In p places_raw /\ row_of pop_df p row.
Proof.
  intros H Hin. apply process_places_rows in H.
  induction H as [|p r ps rs Hrow _ IH]; [contradiction|].
  destruct Hin as [->|Hin].
  - exists p. split; [now left|exact Hrow].
  - destruct (IH Hin) as (q & Hq & Hrow'). exists q. split; [now right|exact Hrow'].
Qed.

(** X13. Every row of [temp_lake] that the Spark part of [main] writes
    joins one raw place and one raw review with the same [gPlusPlaceId]:
    name and price tier are those of the place, country is USA and the
    state is present; user, rating and category are those of the review;
    and [userAvgRating] is the mean of all the ratings of that user in the
    raw reviews, whether or not their rows reached the lake. *)
Theorem staging_rows_provenance (places_raw : list Places.raw)
        (pop_df : list (string * Z)) (reviews_raw : list Reviews.raw)
        (out : Lake.lakes) (s : Lake.staging_row) :
  spark_stage utc_offset places_raw pop_df reviews_raw = Ok out ->
  In s (Lake.temp_lake out) ->
  (exists p, In p places_raw
             /\ Places.raw_gPlusPlaceId p = Lake.st_gPlusPlaceId s
             /\ Lake.st_name s = Places.raw_name p
             /\ Lake.st_price s = F_length (Places.raw_price p)
             /\ Lake.st_address s = Text.concat_ws "," (Places.raw_address p))
  /\ (exists r cats, In r reviews_raw
                     /\ Reviews.raw_gPlusPlaceId r = Lake.st_gPlusPlaceId s
                     /\ Reviews.raw_gPlusUserId r = Lake.st_gPlusUserId s
                     /\ Reviews.raw_rating r = Lake.st_rating s
                     /\ Reviews.raw_categories r = Some cats
                     /\ In (Lake.st_category s) cats)
  /\ Lake.st_gPlusPlaceId s <> None
  /\ Lake.st_country s = Some "USA"
  /\ Lake.st_state s <> None
  /\ Lake.st_userAvgRating s
     = Reviews.arithmetic_mean
         (Reviews.ratings_of_user reviews_raw (Lake.st_gPlusUserId s)).
Proof.
  unfold spark_stage. intros H Hs.
  destruct (Places.process_places places_raw pop_df) as [places_df|e] eqn:Epl;
    [|discriminate].
  cbn [bind] in H.
  apply create_data_lake_ok in H as (_ & _ & Hlake & Htemp & _).
  rewrite Htemp in Hs. apply in_map_iff in Hs as (row & <- & Hrow).
  rewrite Hlake in Hrow. apply filter_In in Hrow as [Hrow _].
  pose proof (in_exploded _ _ _ Hrow) as (Hrev & Hpl & Hus & key & Hk & Hkp).
  pose proof (in_explode _ _ Hrow) as (_ & cats & Hcats & Hcat).
  destruct (in_process_places _ _ _ _ Epl Hpl)
    as (p & Hp & Hid & Hname & Haddr & Hprice & Hgeo & _).
  pose proof (in_process_reviews utc_offset _ _ Hrev) as Havg.
  unfold Reviews.process_reviews in Hrev.
  apply in_map_iff in Hrev as (r & Hr & Hrin).
  cbn [Lake.select_staging Lake.st_gPlusPlaceId Lake.st_name Lake.st_price
       Lake.st_address Lake.st_gPlusUserId Lake.st_rating Lake.st_category
       Lake.st_country Lake.st_state Lake.st_userAvgRating].
  unfold Lake.gPlusPlaceId in *.
  split; [|split; [|split; [|split; [|split]]]].
  - exists p. repeat split; try assumption. congruence.
  - exists r, cats. rewrite <- Hr in Hcats |- *. cbn in Hcats |- *.
    repeat split; assumption.
  - congruence.
  - exact Hus.
  - destruct (geo_columns_country _ _ _ _ Hgeo) as [Husa _].
    now apply Husa.
  - exact Havg.
Qed.

Lemma usa_places_keys (rows : list Places.row) :
  NoDup (non_null (map Places.gPlusPlaceId rows)) ->
  NoDup (non_null (map Places.gPlusPlaceId (Lake.usa_places rows))).
Proof.
  unfold Lake.usa_places.
  induction rows as [|r rows IH]; intros H; [constructor|].
  cbn [map non_null filter] in *.
  destruct (Places.gPlusPlaceId r) as [k|] eqn:Ek.
  - apply NoDup_cons_iff in H as [Hk H].
    destruct (match Places.country r with
              | Some c => String.eqb c "USA"
              | None => false
              end); [|now apply IH].
    cbn [map non_null]. rewrite Ek. constructor; [|now apply IH].
    intros Hin. apply Hk. apply non_null_in in Hin. apply non_null_in.
    apply in_map_iff in Hin as (q & Hq & Hin). apply filter_In in Hin as [Hin _].
    apply in_map_iff. now exists q.
  - destruct (match Places.country r with
              | Some c => String.eqb c "USA"
              | None => false
              end); [|now apply IH].
    cbn [map non_null]. rewrite Ek. now apply IH.
Qed.

Lemma create_data_lake_raises (reviews_df : list Reviews.row)
      (places_df : list Places.row) (e : exn) :
  Lake.create_data_lake reviews_df places_df = Raise e ->
  e = Lake.too_many_rows \/ e = Lake.filtered_incorrectly
  \/ e = Lake.not_populated.
Proof.
  unfold Lake.create_data_lake.
  repeat match goal with
         | |- context [if ?c then _ else _] => destruct c
         end; intros [= <-]; auto.
Qed.

Lemma spark_stage_of_strings (places : list Places.raw)
      (pop_df : list (string * Z)) (reviews_raw : list Reviews.raw) :
  NullablePlaces.spark_stage utc_offset (map NullablePlaces.of_strings places)
                             pop_df reviews_raw
  = spark_stage utc_offset places pop_df reviews_raw.
Proof.
  unfold NullablePlaces.spark_stage, spark_stage.
  now rewrite process_places_of_strings.
Qed.

(** X14. The Spark part of [main] raises either an exception of the UDF on
    the address of some place or one of the three errors of
    [create_data_lake]. When the UDF raises on the address of some place,
    the run raises an exception of the UDF, whatever the reviews are: no
    lake check is reached. When the places have pairwise different
    identifiers it never raises "Join resulted in too many rows". On
    places whose addresses are arrays of strings the run is that of
    [spark_stage]. *)
Theorem spark_stage_errors (places_raw : list NullablePlaces.raw)
        (pop_df : list (string * Z)) (reviews_raw : list Reviews.raw) :
  (forall e,
      NullablePlaces.spark_stage utc_offset places_raw pop_df reviews_raw
      = Raise e ->
      (exists p, In p places_raw
                 /\ NullablePlaces.extract_usa (NullablePlaces.raw_address p)
                    = Raise e)
      \/ e = Lake.too_many_rows \/ e = Lake.filtered_incorrectly
      \/ e = Lake.not_populated)
  /\ (forall p e,
         In p places_raw ->
         NullablePlaces.extract_usa (NullablePlaces.raw_address p) = Raise e ->
         exists p' e',
           In p' places_raw
           /\ NullablePlaces.extract_usa (NullablePlaces.raw_address p')
              = Raise e'
           /\ NullablePlaces.spark_stage utc_offset places_raw pop_df reviews_raw
              = Raise e')
  /\ (NoDup (non_null (map NullablePlaces.raw_gPlusPlaceId places_raw)) ->
      NullablePlaces.spark_stage utc_offset places_raw pop_df reviews_raw
      <> Raise Lake.too_many_rows)
  /\ (forall places,
         NullablePlaces.spark_stage utc_offset
           (map NullablePlaces.of_strings places) pop_df reviews_raw
         = spark_stage utc_offset places pop_df reviews_raw).
Proof.
  unfold NullablePlaces.spark_stage at 1 2 3. split; [|split; [|split]].
  - intros e.
    destruct (NullablePlaces.process_places places_raw pop_df)
      as [places_df|e'] eqn:Epl; cbn [bind].
    + intros H. right. exact (create_data_lake_raises _ _ _ H).
    + intros [= ->]. left. exact (enrich_all_raise_inv _ _ _ Epl).
  - intros p e Hp Hraise.
    destruct (enrich_all_raise_intro (Places.population_by_zip pop_df)
                places_raw p e Hp Hraise) as [e' He'].
    destruct (enrich_all_raise_inv _ _ _ He') as (p' & Hp' & Hraise').
    exists p', e'. split; [exact Hp'|]. split; [exact Hraise'|].
    unfold NullablePlaces.process_places. now rewrite He'.
  - intros Hnd.
    destruct (NullablePlaces.process_places places_raw pop_df)
      as [places_df|e] eqn:Epl; cbn [bind].
    + apply process_places_ids in Epl. rewrite <- Epl in Hnd.
      apply usa_places_keys in Hnd.
      assert (Hle : List.length (Lake.joined
                                   (Reviews.process_reviews utc_offset reviews_raw)
                                   places_df)
                    <= List.length (Lake.with_categories
                                      (Reviews.process_reviews utc_offset reviews_raw))).
      { unfold Lake.joined. rewrite inner_join_length. apply list_sum_le_length.
        intros r _. now apply matching_places_unique. }
      rewrite (create_data_lake_cases _ _ Hle).
      repeat match goal with
             | |- context [if ?c then _ else _] => destruct c
             end; discriminate.
    + apply enrich_all_raise_inv in Epl as (p & _ & Hraise).
      apply extract_usa_raises in Hraise
        as [[_ ->]|[[_ ->]|(lines & _ & ->)]]; discriminate.
  - intros places. apply spark_stage_of_strings.
Qed.

End SparkStage.

Lemma staging_rows_provenance_witness :
  spark_stage utc [la_place] census cafes_and_a_bar = Ok la_lake
  /\ Lake.st_userAvgRating (Lake.select_staging la_lake_row) = Some (45 / 12)%Q.
Proof.
  assert (E : spark_stage utc [la_place] census cafes_and_a_bar = Ok la_lake)
    by reflexivity.
  split; [exact E|].
  exact (proj2 (proj2 (proj2 (proj2 (proj2
           (staging_rows_provenance utc [la_place] census cafes_and_a_bar
              la_lake (Lake.select_staging la_lake_row)
              E (or_introl eq_refl))))))).
Defined.

(* ===================================================================== *)
(** * The fill check and the whole synchronisation *)
(* ===================================================================== *)

Section SyncFacts.
Import Warehouse.

Context {session : Type} (db : driver session).
Variables s3_bucket CATEGORY : string.

(** X15. With a cursor that answers every count query it accepts by at
    least one row, [check_data_quality] never raises its own "Table ... is
    empty" error: either it queries every table in order, prints for each
    that it is filled, and returns, or it stops on an exception that
    [execute] raised. *)
Theorem fill_check_only_fails_on_execute (tables : list string) (s : session) :
  (forall table s0 s1,
      execute db (sql_check_filled table) s0 = (s1, None) ->
      snd (fetchall db s1) <> []) ->
  exists r s' log,
    check_data_quality db tables s = (r, s', log)
    /\ match r with
       | Ok _ =>
           statements_sent log = map sql_check_filled tables
           /\ forall table, In table tables ->
                In (Printed ("Data quality check passed, " ++ table
                             ++ " is filled")%string) log
       | Raise err => exists query, In (Executed query (Some err)) log
       end.
Proof.
  intros Hrows. revert s. unfold check_data_quality.
  induction tables as [|table tables IH]; intros s.
  - exists (Ok tt), s, []. repeat split. intros t [].
  - cbn [for_each]. unfold seq at 1.
    unfold seq at 1. unfold cur_execute at 1.
    destruct (execute db (sql_check_filled table) s) as [s1 [err|]] eqn:Eex.
    + exists (Raise err), s1, [Executed (sql_check_filled table) (Some err)].
      split; [reflexivity|]. eexists. now left.
    + unfold seq at 1. unfold cur_fetchall at 1.
      pose proof (Hrows _ _ _ Eex) as Hne.
      destruct (fetchall db s1) as [s2 rows] eqn:Ef. cbn [snd] in Hne.
      destruct rows as [|row rows]; [contradiction|].
      cbn [List.length Nat.eqb]. unfold print at 1.
      destruct (IH s2) as (r & s' & log & Erun & Hr). rewrite Erun.
      exists r, s', ([Executed (sql_check_filled table) None]
                     ++ ([] ++ [Printed ("Data quality check passed, " ++ table
                                         ++ " is filled")%string]) ++ log).
      split; [reflexivity|].
      destruct r as [[]|err].
      * destruct Hr as [Hsent Hprinted]. split.
        -- cbn. now rewrite Hsent.
        -- intros t [<-|Ht]; [cbn; auto|].
           cbn. right. right. now apply Hprinted.
      * destruct Hr as [query Hq]. exists query. cbn. auto.
Qed.

Lemma load_staging_table_runs (arn : string) :
  runs_through (session := session)
    (load_staging_table db s3_bucket CATEGORY arn)
    [staging_table_drop; staging_table_create;
     staging_table_copy (s3_bucket ++ "/temp_lake")%string arn;
     staging_table_filter CATEGORY].
Proof.
  change (runs_through (session := session)
            (load_staging_table db s3_bucket CATEGORY arn)
            ([] ++ [staging_table_drop] ++ [] ++ [staging_table_create] ++ []
                ++ [staging_table_copy (s3_bucket ++ "/temp_lake")%string arn]
                ++ [] ++ [staging_table_filter CATEGORY])).
  unfold load_staging_table.
  repeat first [ apply runs_through_attempt
               | apply runs_through_print
               | apply runs_through_seq ].
Qed.

Lemma load_final_tables_runs :
  runs_through (session := session) (load_final_tables db)
    (drop_table_queries ++ create_table_queries ++ insert_table_queries).
Proof.
  unfold load_final_tables.
  repeat first [ apply runs_through_for_each | apply runs_through_seq ].
Qed.

(** The count queries of a fill check are sent in the order of the tables,
    up to the table at which it raises. *)
Lemma check_data_quality_sends_prefix (tables : list string) (s : session) :
  exists r s' log k,
    check_data_quality db tables s = (r, s', log)
    /\ statements_sent log = map sql_check_filled (firstn k tables)
    /\ (r = Ok tt -> k = List.length tables).
Proof.
  revert s. unfold check_data_quality.
  induction tables as [|table tables IH]; intros s.
  - exists (Ok tt), s, [], 0. repeat split.
  - cbn [for_each]. unfold seq at 1.
    unfold seq at 1. unfold cur_execute at 1.
    destruct (execute db (sql_check_filled table) s) as [s1 [err|]] eqn:Eex.
    + exists (Raise err), s1, [Executed (sql_check_filled table) (Some err)], 1.
      repeat split. discriminate.
    + unfold seq at 1. unfold cur_fetchall at 1.
      destruct (fetchall db s1) as [s2 rows] eqn:Ef.
      destruct rows as [|row rows]; cbn [List.length Nat.eqb].
      * unfold raise at 1. eexists _, s2, _, 1. split; [reflexivity|].
        split; [reflexivity|discriminate].
      * unfold print at 1.
        destruct (IH s2) as (r & s' & log & k & Erun & Hsent & Hk).
        rewrite Erun. eexists r, s', _, (S k). split; [reflexivity|].
        split; [cbn; now rewrite Hsent|]. intros Hr. cbn. now rewrite Hk.
Qed.

(** X16. The warehouse part of [main] always sends the four staging
    statements and the twelve statements of the final tables, whatever
    fails among them; then the count queries, in the order of the table
    list, up to the one at which the fill check raises. The staging table
    is dropped at the end only if the fill check returned: when it raises,
    the run ends with that exception and the drop is never sent. *)
Theorem sync_statement_order (arn : string) (s : session) :
  exists r s' log k,
    sync db s3_bucket CATEGORY arn s = (r, s', log)
    /\ statements_sent log
       = [staging_table_drop; staging_table_create;
          staging_table_copy (s3_bucket ++ "/temp_lake")%string arn;
          staging_table_filter CATEGORY]
         ++ drop_table_queries ++ create_table_queries ++ insert_table_queries
         ++ map sql_check_filled (firstn k tables)
         ++ match r with
            | Ok _ => [staging_table_drop]
            | Raise _ => []
            end
    /\ (r = Ok tt -> k = 4).
Proof.
  unfold sync. unfold seq at 1. unfold print at 1.
  unfold seq at 1.
  destruct (load_staging_table_runs arn s) as (s1 & log1 & E1 & Q1 & _).
  rewrite E1. unfold seq at 1.
  destruct (load_final_tables_runs s1) as (s2 & log2 & E2 & Q2 & _).
  rewrite E2. unfold seq at 1.
  destruct (check_data_quality_sends_prefix tables s2)
    as (r & s3 & log3 & k & E3 & Q3 & Hk).
  rewrite E3. destruct r as [[]|err].
  - destruct (runs_through_attempt db staging_table_drop s3)
      as (s4 & log4 & E4 & Q4 & _).
    unfold drop_staging_table. rewrite E4.
    exists (Ok tt), s4, ([Printed "Connected to Redshift"]
                         ++ log1 ++ log2 ++ log3 ++ log4), k.
    split; [reflexivity|]. split; [|exact Hk].
    rewrite !statements_sent_app, Q1, Q2, Q3, Q4. cbn [statements_sent].
    rewrite <- !app_assoc. reflexivity.
  - exists (Raise err), s3, ([Printed "Connected to Redshift"]
                             ++ log1 ++ log2 ++ log3), k.
    split; [reflexivity|]. split; [|discriminate].
    rewrite !statements_sent_app, Q1, Q2, Q3. cbn [statements_sent].
    rewrite <- !app_assoc, app_nil_r. reflexivity.
Qed.

End SyncFacts.

Lemma fill_check_only_fails_on_execute_witness :
  exists r s' log,
    Warehouse.check_data_quality (Warehouse.at_rest empty_reviews)
                                 Warehouse.tables [] = (r, s', log)
    /\ match r with
       | Ok _ =>
           Warehouse.statements_sent log
           = map Warehouse.sql_check_filled Warehouse.tables
           /\ forall table, In table Warehouse.tables ->
                In (Warehouse.Printed ("Data quality check passed, " ++ table
                                       ++ " is filled")%string) log
       | Raise err => exists query,
                        In (Warehouse.Executed query (Some err)) log
       end.
Proof.
  apply (fill_check_only_fails_on_execute (Warehouse.at_rest empty_reviews)).
  intros table s0 s1. cbn [Warehouse.execute Warehouse.fetchall Warehouse.at_rest].
  destruct (empty_reviews table); intros [= <-]; discriminate.
Defined.

(* ===================================================================== *)
(** * Facts about the calls to the cloud *)
(* ===================================================================== *)

Section CloudFacts.
Import Cloud.

Context {cloud : Type} (aws : call -> cloud -> cloud * res value).
Variable int : string -> res Z.
Variable cfg : config.

Lemma calls_app (log1 log2 : list event) :
  calls (log1 ++ log2) = calls log1 ++ calls log2.
Proof.
  induction log1 as [|[args|c answer|n] log1 IH]; simpl; rewrite ?IH; reflexivity.
Qed.

Lemma slept_app (log1 log2 : list event) :
  slept (log1 ++ log2) = slept log1 + slept log2.
Proof.
  induction log1 as [|[args|c answer|n] log1 IH]; simpl; rewrite ?IH; lia.
Qed.

Lemma states_printed_app (log1 log2 : list event) :
  states_printed (log1 ++ log2) = states_printed log1 ++ states_printed log2.
Proof.
  induction log1 as [|e log1 IH]; [reflexivity|].
  cbn [app states_printed]. destruct (state_shown e); rewrite IH; reflexivity.
Qed.

Lemma cluster_status_log (s s' : cloud) (r : res value) (log : list event) :
  cluster_status aws cfg s = (r, s', log) ->
  exists answer, log = [Call (describe_clusters (DWH_CLUSTER_IDENTIFIER cfg)) answer].
Proof.
  unfold cluster_status, seq, request, lift.
  destruct (aws (describe_clusters (DWH_CLUSTER_IDENTIFIER cfg)) s) as [s1 [answer|e]].
  - destruct (item answer "Clusters") as [clusters|e]; cbn.
    + destruct (index clusters 0) as [cluster|e]; cbn.
      * destruct (item cluster "ClusterStatus"); cbn; intros [= _ _ <-]; eauto.
      * intros [= _ _ <-]; eauto.
    + intros [= _ _ <-]; eauto.
  - intros [= _ _ <-]; eauto.
Qed.

Lemma wait_step (fuel : nat) (status : value) (s : cloud) :
  is_available status = false ->
  wait_until_available aws cfg (S fuel) status s
  = match cluster_status aws cfg s with
    | (Val status', s1, log1) =>
        match wait_until_available aws cfg fuel status' s1 with
        | (r, s2, log2) =>
            (r, s2, [Sleep 60] ++ log1 ++ [Print (waiting status')] ++ log2)
        end
    | (Exc e, s1, log1) => (Exc e, s1, [Sleep 60] ++ log1)
    end.
Proof.
  intros H. cbn [wait_until_available]. rewrite H.
  unfold seq at 1. unfold sleep at 1. unfold seq at 1.
  destruct (cluster_status aws cfg s) as [[[status'|e] s1] log1]; [|reflexivity].
  unfold seq at 1. unfold print at 1.
  destruct (wait_until_available aws cfg fuel status' s1) as [[r s2] log2].
  reflexivity.
Qed.

Lemma wait_done (fuel : nat) (status : value) (s : cloud) :
  is_available status = true ->
  wait_until_available aws cfg fuel status s = (Val (Some tt), s, []).
Proof. intros H. destruct fuel; cbn [wait_until_available]; now rewrite H. Qed.

(** X17. The polling loop of [launch_redshift_cluster] ends when the
    cluster is reported available within [n + 1] polls, and [n + 1] rounds
    are enough for it; it has then slept 60 seconds for each state it
    printed, none of these states but the last is [available], and it has
    made one call for each. *)
Theorem polling_ends_when_available (n : nat) (status : value) (s : cloud) :
  is_available status = false ->
  available_within aws cfg n s ->
  exists s' log seen final,
    wait_until_available aws cfg (S n) status s = (Val (Some tt), s', log)
    /\ states_printed log = seen ++ [final]
    /\ is_available final = true
    /\ Forall (fun st => is_available st = false) seen
    /\ slept log = 60 * List.length (states_printed log)
    /\ List.length (calls log) = List.length (states_printed log)
    /\ List.length (states_printed log) <= S n.
Proof.
  revert status s. induction n as [|n IH]; intros status s Hstatus Hav;
    rewrite (wait_step _ _ _ Hstatus); cbn [available_within] in Hav;
    destruct (cluster_status aws cfg s) as [[[status'|e] s1] log1] eqn:Ecs;
    try contradiction;
    destruct (cluster_status_log _ _ _ _ Ecs) as [answer ->].
  - destruct Hav as [Hav|[]]. rewrite (wait_done _ _ _ Hav).
    exists s1, ([Sleep 60] ++ [Call (describe_clusters (DWH_CLUSTER_IDENTIFIER cfg)) answer]
                ++ [Print (waiting status')] ++ []), [], status'.
    repeat split; auto.
  - destruct (is_available status') eqn:Est.
    + rewrite (wait_done _ _ _ Est).
      exists s1, ([Sleep 60] ++ [Call (describe_clusters (DWH_CLUSTER_IDENTIFIER cfg)) answer]
                  ++ [Print (waiting status')] ++ []), [], status'.
      repeat split; auto. cbn. lia.
    + destruct Hav as [Hav|Hav]; [congruence|].
      destruct (IH status' s1 Est Hav)
        as (s' & log & seen & final & -> & Hseen & Hfinal & Hall & Hslept & Hcalls & Hlen).
      exists s', ([Sleep 60] ++ [Call (describe_clusters (DWH_CLUSTER_IDENTIFIER cfg)) answer]
                  ++ [Print (waiting status')] ++ log), (status' :: seen), final.
      split; [reflexivity|].
      change (states_printed ([Sleep 60] ++ [Call (describe_clusters
                (DWH_CLUSTER_IDENTIFIER cfg)) answer]
                ++ [Print (waiting status')] ++ log))
        with (status' :: states_printed log).
      change (slept ([Sleep 60] ++ [Call (describe_clusters
                (DWH_CLUSTER_IDENTIFIER cfg)) answer]
                ++ [Print (waiting status')] ++ log))
        with (60 + slept log).
      change (calls ([Sleep 60] ++ [Call (describe_clusters
                (DWH_CLUSTER_IDENTIFIER cfg)) answer]
                ++ [Print (waiting status')] ++ log))
        with (describe_clusters (DWH_CLUSTER_IDENTIFIER cfg) :: calls log).
      rewrite Hseen in *. cbn [List.length] in *.
      repeat split; auto; lia.
Qed.

(** A run of the loop that does not use up its rounds is the same with any
    greater number of rounds. *)
Lemma wait_more_fuel (fuel fuel' : nat) (status : value) (s s' : cloud)
      (r : res (option unit)) (log : list event) :
  wait_until_available aws cfg fuel status s = (r, s', log) ->
  r <> Val None ->
  fuel <= fuel' ->
  wait_until_available aws cfg fuel' status s = (r, s', log).
Proof.
  revert fuel' status s s' r log.
  induction fuel as [|fuel IH]; intros fuel' status s s' r log Hrun Hr Hle.
  - cbn [wait_until_available] in Hrun.
    destruct (is_available status) eqn:Est.
    + rewrite (wait_done _ _ _ Est). exact Hrun.
    + unfold ret in Hrun. injection Hrun as <- _ _. contradiction.
  - destruct (is_available status) eqn:Est.
    + rewrite (wait_done (S fuel) _ _ Est) in Hrun.
      rewrite (wait_done fuel' _ _ Est). exact Hrun.
    + destruct fuel' as [|fuel']; [lia|].
      rewrite (wait_step fuel _ _ Est) in Hrun.
      rewrite (wait_step fuel' _ _ Est).
      destruct (cluster_status aws cfg s) as [[[status'|e] s1] log1];
        [|exact Hrun].
      destruct (wait_until_available aws cfg fuel status' s1)
        as [[r2 s2] log2] eqn:E2.
      injection Hrun as <- <- <-.
      rewrite (IH fuel' status' s1 s2 r2 log2 E2 Hr); [reflexivity|lia].
Qed.

Lemma seq_stable {A B : Type} (m : io A) (k k' : A -> io B) (s s' : cloud)
      (r : res B) (log : list event) :
  seq m k s = (r, s', log) ->
  (forall a s1 log1 r2 s2 log2,
      m s = (Val a, s1, log1) -> k a s1 = (r2, s2, log2) -> r2 = r ->
      k' a s1 = (r2, s2, log2)) ->
  seq m k' s = (r, s', log).
Proof.
  unfold seq. intros Hrun Hk.
  destruct (m s) as [[[a|e] s1] log1]; [|exact Hrun].
  destruct (k a s1) as [[r2 s2] log2] eqn:Ek.
  injection Hrun as <- <- <-.
  now rewrite (Hk a s1 log1 r2 s2 log2 eq_refl Ek eq_refl).
Qed.

Lemma wait_seq_stable {B : Type} (fuel fuel' : nat) (status : value)
      (k : option unit -> io (option B)) (s s' : cloud)
      (r : res (option B)) (log : list event) :
  seq (wait_until_available aws cfg fuel status) k s = (r, s', log) ->
  k None = ret None ->
  r <> Val None ->
  fuel <= fuel' ->
  seq (wait_until_available aws cfg fuel' status) k s = (r, s', log).
Proof.
  unfold seq. intros Hrun Hk Hr Hle.
  destruct (wait_until_available aws cfg fuel status s)
    as [[[[[]|]|e] sw] logw] eqn:Ew.
  - now rewrite (wait_more_fuel _ fuel' _ _ _ _ _ Ew ltac:(discriminate) Hle).
  - rewrite Hk in Hrun. unfold ret in Hrun. injection Hrun as <- _ _.
    contradiction.
  - now rewrite (wait_more_fuel _ fuel' _ _ _ _ _ Ew ltac:(discriminate) Hle).
Qed.

(** A run of [launch_redshift_cluster] that does not use up the rounds
    allowed to its polling loop is the same run with any greater number
    of rounds. *)
Lemma launch_does_not_depend_on_rounds (fuel fuel' : nat) (s s' : cloud)
        (r : res (option (value * value))) (log : list event) :
  launch_redshift_cluster aws int cfg fuel s = (r, s', log) ->
  r <> Val None ->
  fuel <= fuel' ->
  launch_redshift_cluster aws int cfg fuel' s = (r, s', log).
Proof.
  intros Hrun Hr Hle. unfold launch_redshift_cluster in *.
  repeat (eapply seq_stable; [eassumption|];
          clear Hrun; intros ? ? ? ? ? ? _ Hrun ->).
  eapply wait_seq_stable; [exact Hrun|reflexivity|exact Hr|exact Hle].
Qed.

Lemma quiet_ret {A : Type} (a : A) : quiet (ret (cloud := cloud) a).
Proof. intros s. now split. Qed.

Lemma quiet_lift {A : Type} (r : res A) : quiet (lift (cloud := cloud) r).
Proof. intros s. now split. Qed.

Lemma quiet_request (c : call) : quiet (request aws c).
Proof. intros s. unfold request. destruct (aws c s). now split. Qed.

Lemma quiet_print (args : list printed) :
  state_shown (Print args) = None -> quiet (print (cloud := cloud) args).
Proof. intros H s. cbn [print snd states_printed slept]. now rewrite H. Qed.

Lemma quiet_seq {A B : Type} (m : io (cloud := cloud) A) (k : A -> io B) :
  quiet m -> (forall a, quiet (k a)) -> quiet (seq m k).
Proof.
  intros Hm Hk s. unfold seq. specialize (Hm s).
  destruct (m s) as [[[a|e] s1] log1]; [|exact Hm].
  specialize (Hk a s1). destruct (k a s1) as [[r s2] log2].
  cbn [snd] in *. rewrite states_printed_app, slept_app.
  destruct Hm as [-> ->], Hk as [-> ->]. now split.
Qed.

Lemma quiet_try (body : io (cloud := cloud) unit) (handler : error -> io unit) :
  quiet body -> (forall e, quiet (handler e)) -> quiet (try_except body handler).
Proof.
  intros Hm Hk s. unfold try_except. specialize (Hm s).
  destruct (body s) as [[[[]|e] s1] log1]; [exact Hm|].
  specialize (Hk e s1). destruct (handler e s1) as [[r s2] log2].
  cbn [snd] in *. rewrite states_printed_app, slept_app.
  destruct Hm as [-> ->], Hk as [-> ->]. now split.
Qed.

Lemma quiet_cluster_status : quiet (cluster_status aws cfg).
Proof.
  unfold cluster_status.
  repeat first [ apply quiet_seq | apply quiet_request | apply quiet_lift
               | match goal with |- forall _, _ => intro end ].
Qed.

Lemma state_shown_one (x : printed) : state_shown (Print [x]) = None.
Proof. now destruct x as [[]|]. Qed.

Ltac show_quiet :=
  repeat first [ apply quiet_cluster_status
               | apply quiet_seq | apply quiet_try | apply quiet_request
               | apply quiet_lift | apply quiet_ret
               | apply quiet_print; first [reflexivity | apply state_shown_one]
               | match goal with |- forall _, _ => intro end ].

Lemma seq_inv {A B : Type} (m : io A) (k : A -> io B) (s s' : cloud)
      (b : B) (log : list event) :
  seq m k s = (Val b, s', log) ->
  exists a s1 log1 log2,
    m s = (Val a, s1, log1) /\ k a s1 = (Val b, s', log2) /\ log = log1 ++ log2.
Proof.
  unfold seq. destruct (m s) as [[[a|e] s1] log1]; [|discriminate].
  destruct (k a s1) as [[r s2] log2] eqn:Ek.
  intros [= -> <- <-]. now exists a, s1, log1, log2.
Qed.

Lemma quiet_run {A : Type} (m : io (cloud := cloud) A) (s s' : cloud) (r : res A) (log : list event) :
  quiet m -> m s = (r, s', log) -> states_printed log = [] /\ slept log = 0.
Proof. intros H E. specialize (H s). now rewrite E in H. Qed.

Lemma round_states (c : call) (answer : res value) (status : value)
      (log : list event) :
  states_printed (Sleep 60 :: Call c answer :: Print (waiting status) :: log)
  = status :: states_printed log.
Proof. reflexivity. Qed.

Lemma round_slept (c : call) (answer : res value) (status : value)
      (log : list event) :
  slept (Sleep 60 :: Call c answer :: Print (waiting status) :: log)
  = 60 + slept log.
Proof. reflexivity. Qed.

(** The states the loop prints, with the one it starts from, when it
    ends. *)
Lemma wait_accounting (fuel : nat) (status : value) (s s' : cloud)
      (log : list event) :
  wait_until_available aws cfg fuel status s = (Val (Some tt), s', log) ->
  exists seen final,
    status :: states_printed log = seen ++ [final]
    /\ is_available final = true
    /\ Forall (fun st => is_available st = false) seen
    /\ slept log = 60 * List.length (states_printed log).
Proof.
  revert status s s' log.
  induction fuel as [|fuel IH]; intros status s s' log Hrun;
    destruct (is_available status) eqn:Est.
  - rewrite (wait_done _ _ _ Est) in Hrun. injection Hrun as _ <-.
    now exists [], status.
  - cbn [wait_until_available] in Hrun. rewrite Est in Hrun. discriminate.
  - rewrite (wait_done _ _ _ Est) in Hrun. injection Hrun as _ <-.
    now exists [], status.
  - rewrite (wait_step _ _ _ Est) in Hrun.
    destruct (cluster_status aws cfg s) as [[[status'|e] s1] log1] eqn:Ecs;
      [|discriminate].
    destruct (cluster_status_log _ _ _ _ Ecs) as [answer ->].
    destruct (wait_until_available aws cfg fuel status' s1)
      as [[r2 s2] log2] eqn:E2.
    injection Hrun as -> _ <-.
    destruct (IH _ _ _ _ E2) as (seen & final & Hseen & Hfinal & Hall & Hslept).
    exists (status :: seen), final.
    rewrite round_states, round_slept.
    split; [now rewrite Hseen|]. split; [exact Hfinal|].
    split; [now constructor|]. rewrite Hslept. cbn [List.length]. lia.
Qed.

Lemma request_inv (c : call) (s s' : cloud) (v : value) (log : list event) :
  request aws c s = (Val v, s', log) -> log = [Call c (Val v)].
Proof.
  unfold request. destruct (aws c s) as [s1 answer]. now intros [= -> _ <-].
Qed.

Lemma lift_inv {A : Type} (r : res A) (s s' : cloud) (a : A) (log : list event) :
  lift r s = (Val a, s', log) -> r = Val a.
Proof. unfold lift. now intros [= -> _ _]. Qed.

Ltac next_quiet H :=
  let Hm := fresh "Hm" in
  let Hq := fresh "Hq" in
  let Hz := fresh "Hz" in
  apply seq_inv in H as (? & ? & ? & ? & Hm & H & ->);
  match type of Hm with
  | ?m _ = _ =>
      let Hqm := fresh "Hqm" in
      assert (Hqm : quiet m) by show_quiet;
      pose proof (quiet_run m _ _ _ _ Hqm Hm) as [Hq Hz]; clear Hqm
  end.

Ltac drop_quiet :=
  repeat match goal with
         | H : states_printed ?l = [] |- context [states_printed ?l] => rewrite H
         | H : slept ?l = 0 |- context [slept ?l] => rewrite H
         end.

(** X18. When [launch_redshift_cluster] returns an endpoint and a role, the
    last cluster state it printed is [available] and no state printed
    before is; it has slept 60 seconds for each of those; and the pair it
    returns is read from one answer to [describe_clusters]: the address of
    the endpoint of its first cluster and the ARN of the first IAM role of
    that cluster. *)
Theorem launch_returns_the_described_cluster (fuel : nat) (s s' : cloud)
        (DWH_ENDPOINT DWH_ROLE_ARN : value) (log : list event) :
  launch_redshift_cluster aws int cfg fuel s
  = (Val (Some (DWH_ENDPOINT, DWH_ROLE_ARN)), s', log) ->
  (exists answer clusters cluster endpoint roles role,
      In (Call (describe_clusters (DWH_CLUSTER_IDENTIFIER cfg)) (Val answer)) log
      /\ item answer "Clusters" = Val clusters
      /\ index clusters 0 = Val cluster
      /\ item cluster "Endpoint" = Val endpoint
      /\ item endpoint "Address" = Val DWH_ENDPOINT
      /\ item cluster "IamRoles" = Val roles
      /\ index roles 0 = Val role
      /\ item role "IamRoleArn" = Val DWH_ROLE_ARN)
  /\ exists seen final,
       states_printed log = seen ++ [final]
       /\ is_available final = true
       /\ Forall (fun st => is_available st = false) seen
       /\ slept log = 60 * List.length seen.
Proof.
  intros H. unfold launch_redshift_cluster in H.
  do 12 next_quiet H.
  apply seq_inv in H as (? & ? & ? & ? & Hprint & H & ->).
  apply seq_inv in H as (available & ? & logw & ? & Hwait & H & ->).
  destruct available as [[]|]; [|discriminate].
  next_quiet H.
  apply seq_inv in H as (answer & ? & ? & ? & Hreq & H & ->).
  apply request_inv in Hreq as ->.
  apply seq_inv in H as (clusters & ? & ? & ? & Hclusters & H & ->).
  apply seq_inv in H as (cluster & ? & ? & ? & Hcluster & H & ->).
  apply seq_inv in H as (endpoint & ? & ? & ? & Hendpoint & H & ->).
  apply seq_inv in H as (address & ? & ? & ? & Haddress & H & ->).
  apply seq_inv in H as (roles & ? & ? & ? & Hroles & H & ->).
  apply seq_inv in H as (role & ? & ? & ? & Hrole & H & ->).
  apply seq_inv in H as (arn & ? & ? & ? & Harn & H & ->).
  pose proof (quiet_run _ _ _ _ _ (quiet_lift _) Hclusters) as [? ?].
  pose proof (quiet_run _ _ _ _ _ (quiet_lift _) Hcluster) as [? ?].
  pose proof (quiet_run _ _ _ _ _ (quiet_lift _) Hendpoint) as [? ?].
  pose proof (quiet_run _ _ _ _ _ (quiet_lift _) Haddress) as [? ?].
  pose proof (quiet_run _ _ _ _ _ (quiet_lift _) Hroles) as [? ?].
  pose proof (quiet_run _ _ _ _ _ (quiet_lift _) Hrole) as [? ?].
  pose proof (quiet_run _ _ _ _ _ (quiet_lift _) Harn) as [? ?].
  apply lift_inv in Hclusters, Hcluster, Hendpoint, Haddress, Hroles, Hrole, Harn.
  do 2 next_quiet H.
  unfold ret in H. injection H as -> -> _ <-.
  unfold print in Hprint. injection Hprint as _ _ <-.
  split.
  - exists answer, clusters, cluster, endpoint, roles, role.
    repeat split; try assumption.
    repeat first [ apply in_or_app; left; now left | apply in_or_app; right ].
  - destruct (wait_accounting _ _ _ _ _ Hwait)
      as (seen & final & Hseen & Hfinal & Hall & Hslept).
    exists seen, final.
    rewrite !states_printed_app, !slept_app. drop_quiet.
    cbn [app states_printed slept state_shown String.eqb Ascii.eqb
         Bool.eqb waiting plus].
    rewrite !app_nil_r.
    pose proof (f_equal (@List.length value) Hseen) as Hlen.
    rewrite length_app in Hlen. cbn [List.length] in Hlen.
    rewrite Hseen, Hslept.
    repeat split; try assumption. lia.
Qed.

Lemma seq_val {A B : Type} (m : io A) (k : A -> io B) (s s1 : cloud) (a : A)
      (log1 : list event) :
  m s = (Val a, s1, log1) ->
  seq m k s = match k a s1 with (r, s2, log2) => (r, s2, log1 ++ log2) end.
Proof. unfold seq. now intros ->. Qed.

Lemma seq_val_run {A B : Type} (m : io A) (k : A -> io B) (s s1 : cloud) (a : A)
      (log1 : list event) :
  m s = (Val a, s1, log1) ->
  exists r s2 log2, k a s1 = (r, s2, log2) /\ seq m k s = (r, s2, log1 ++ log2).
Proof.
  intros Hm. rewrite (seq_val m k s s1 a log1 Hm).
  destruct (k a s1) as [[r s2] log2]. now exists r, s2, log2.
Qed.

Lemma seq_exc {A B : Type} (m : io A) (k : A -> io B) (s s1 : cloud) (e : error)
      (log1 : list event) :
  m s = (Exc e, s1, log1) -> seq m k s = (Exc e, s1, log1).
Proof. unfold seq. now intros ->. Qed.

Lemma request_run (c : call) (s : cloud) :
  request aws c s = (snd (aws c s), fst (aws c s), [Call c (snd (aws c s))]).
Proof. unfold request. now destruct (aws c s). Qed.

(** X19. [launch_redshift_cluster] always goes on to attach the policy
    after [create_role], printing the exception when [create_role] raised
    one; an exception of [attach_role_policy] is not caught: the run ends
    with it, and nothing is called or printed after it. *)
Theorem role_creation_may_fail_attachment_may_not (fuel : nat) (s : cloud) :
  exists r s' answer1 answer2 rest,
    launch_redshift_cluster aws int cfg fuel s
    = (r, s',
       ([Print [Text (Str "Creating a new IAM Role")];
         Call (create_role (DWH_IAM_ROLE_NAME cfg)) answer1]
        ++ match answer1 with
           | Exc e => [Print [Raised e]]
           | Val _ => []
           end)
       ++ [Print [Text (Str "Attaching AmazonS3ReadOnlyAccess Policy")];
           Call (attach_role_policy (DWH_IAM_ROLE_NAME cfg)
                   "arn:aws:iam::aws:policy/AmazonS3ReadOnlyAccess") answer2]
       ++ rest)
    /\ (forall e, answer2 = Exc e -> r = Exc e /\ rest = []).
Proof.
  unfold launch_redshift_cluster.
  set (first_try := try_except _ _).
  assert (Htry : first_try s
                 = (Val tt, fst (aws (create_role (DWH_IAM_ROLE_NAME cfg)) s),
                    [Print [Text (Str "Creating a new IAM Role")];
                     Call (create_role (DWH_IAM_ROLE_NAME cfg))
                          (snd (aws (create_role (DWH_IAM_ROLE_NAME cfg)) s))]
                    ++ match snd (aws (create_role (DWH_IAM_ROLE_NAME cfg)) s) with
                       | Exc e => [Print [Raised e]]
                       | Val _ => []
                       end)).
  { subst first_try. unfold try_except, seq at 1, print at 1, seq at 1.
    rewrite request_run.
    destruct (aws (create_role (DWH_IAM_ROLE_NAME cfg)) s) as [s1 [v|e]];
      reflexivity. }
  rewrite (seq_val _ _ _ _ _ _ Htry).
  set (s1 := fst (aws (create_role (DWH_IAM_ROLE_NAME cfg)) s)).
  rewrite (seq_val (print [Text (Str "Attaching AmazonS3ReadOnlyAccess Policy")])
             _ s1 s1 tt _ eq_refl).
  pose proof (request_run (attach_role_policy (DWH_IAM_ROLE_NAME cfg)
                "arn:aws:iam::aws:policy/AmazonS3ReadOnlyAccess") s1) as Hreq.
  destruct (aws (attach_role_policy (DWH_IAM_ROLE_NAME cfg)
                   "arn:aws:iam::aws:policy/AmazonS3ReadOnlyAccess") s1)
    as [s2 [v|e]]; cbn [fst snd] in Hreq.
  - match goal with
    | |- context [seq (request aws ?c) ?k s1] =>
        destruct (seq_val_run (request aws c) k s1 s2 v _ Hreq)
          as (r & s' & rest & _ & ->)
    end.
    exists r, s', (snd (aws (create_role (DWH_IAM_ROLE_NAME cfg)) s)), (Val v), rest.
    split; [reflexivity|]. discriminate.
  - rewrite (seq_exc _ _ _ _ _ _ Hreq).
    exists (Exc e), s2, (snd (aws (create_role (DWH_IAM_ROLE_NAME cfg)) s)),
           (Exc e), [].
    split; [reflexivity|]. now intros e' [= ->].
Qed.

Lemma delete_file_run (file : value) (s : cloud) :
  delete_file aws cfg file s
  = match item file "Key" with
    | Val key =>
        (match snd (aws (delete_object (S3_BUCKET cfg) key) s) with
         | Val _ => Val tt
         | Exc e => Exc e
         end,
         fst (aws (delete_object (S3_BUCKET cfg) key) s),
         [Print [Text (Str "Deleting"); Text key];
          Call (delete_object (S3_BUCKET cfg) key)
               (snd (aws (delete_object (S3_BUCKET cfg) key) s))])
    | Exc e => (Exc e, s, [])
    end.
Proof.
  unfold delete_file, seq, lift, print. destruct (item file "Key") as [key|e];
    [|reflexivity].
  rewrite request_run.
  now destruct (aws (delete_object (S3_BUCKET cfg) key) s) as [s1 [v|e]].
Qed.

(** The deletions of one loop: the keys of the files, in their order, up
    to the file at which the loop raises. *)
Lemma delete_files_run (files : list value) (s : cloud) :
  exists r s' log n keys,
    for_each files (delete_file aws cfg) s = (r, s', log)
    /\ calls log = map (delete_object (S3_BUCKET cfg)) keys
    /\ Forall2 (fun file key => item file "Key" = Val key) (firstn n files) keys
    /\ (r = Val tt -> n = List.length files).
Proof.
  revert s. induction files as [|file files IH]; intros s.
  - exists (Val tt), s, [], 0, []. repeat split. constructor.
  - cbn [for_each]. unfold seq. rewrite delete_file_run.
    destruct (item file "Key") as [key|e] eqn:Ekey.
    + destruct (aws (delete_object (S3_BUCKET cfg) key) s) as [s1 [v|e]];
        cbn [fst snd].
      * destruct (IH s1) as (r & s' & log & n & keys & -> & Hcalls & Hkeys & Hn).
        exists r, s', ([Print [Text (Str "Deleting"); Text key];
                        Call (delete_object (S3_BUCKET cfg) key) (Val v)] ++ log),
               (S n), (key :: keys).
        split; [reflexivity|]. split; [cbn; now rewrite Hcalls|].
        split; [now constructor|]. intros Hr. cbn. now rewrite Hn.
      * exists (Exc e), s1, [Print [Text (Str "Deleting"); Text key];
                             Call (delete_object (S3_BUCKET cfg) key) (Exc e)],
               1, [key].
        repeat split; [now repeat constructor|discriminate].
    + exists (Exc e), s, [], 0, []. repeat split; [constructor|discriminate].
Qed.

(** X20. [clear_temp_data] first lists [temp_lake/], then deletes keys that
    this listing gave, in its order, and only when all of them are deleted
    does it list [fixed/] and delete what that listing gave. It returns
    only after both listings. When the first answer has no [Contents]
    entry, it raises the error of that lookup and neither deletes anything
    nor lists [fixed/]. *)
Theorem clear_temp_data_order (s : cloud) :
  exists r s' log answer keys tail,
    clear_temp_data aws cfg s = (r, s', log)
    /\ hd_error log = Some (Call (list_objects_v2 (S3_BUCKET cfg) "temp_lake/") answer)
    /\ calls log
       = list_objects_v2 (S3_BUCKET cfg) "temp_lake/"
         :: map (delete_object (S3_BUCKET cfg)) keys ++ tail
    /\ (tail = []
        \/ exists keys', tail = list_objects_v2 (S3_BUCKET cfg) "fixed/"
                                :: map (delete_object (S3_BUCKET cfg)) keys')
    /\ (r = Val tt -> tail <> [])
    /\ (forall listing contents files,
           answer = Val listing -> item listing "Contents" = Val contents ->
           elements contents = Val files ->
           exists n, Forall2 (fun file key => item file "Key" = Val key)
                             (firstn n files) keys
                     /\ (tail <> [] -> n = List.length files))
    /\ (forall listing e,
           answer = Val listing -> item listing "Contents" = Exc e ->
           r = Exc e /\ keys = [] /\ tail = []).
Proof.
  unfold clear_temp_data.
  pose proof (request_run (list_objects_v2 (S3_BUCKET cfg) "temp_lake/") s) as Hreq.
  destruct (aws (list_objects_v2 (S3_BUCKET cfg) "temp_lake/") s)
    as [s1 [listing|e]]; cbn [fst snd] in Hreq.
  2:{ rewrite (seq_exc _ _ _ _ _ _ Hreq).
      exists (Exc e), s1, [Call (list_objects_v2 (S3_BUCKET cfg) "temp_lake/") (Exc e)],
             (Exc e), [], [].
      split; [reflexivity|]. split; [reflexivity|]. split; [reflexivity|].
      split; [now left|]. split; [discriminate|]. split.
      - intros l c f Ha. discriminate Ha.
      - intros l e' Ha. discriminate Ha. }
  rewrite (seq_val _ _ _ _ _ _ Hreq).
  destruct (item listing "Contents") as [contents|e] eqn:Econtents.
  2:{ rewrite (seq_exc (lift (Exc e)) _ s1 s1 e [] eq_refl).
      exists (Exc e), s1,
             ([Call (list_objects_v2 (S3_BUCKET cfg) "temp_lake/") (Val listing)] ++ []),
             (Val listing), [], [].
      split; [reflexivity|]. split; [reflexivity|]. split; [reflexivity|].
      split; [now left|]. split; [discriminate|]. split.
      - intros l c f Ha Hc. injection Ha as <-. congruence.
      - intros l e' Ha Hc. injection Ha as <-.
        split; [congruence|]. now split. }
  rewrite (seq_val (lift (Val contents)) _ s1 s1 contents [] eq_refl).
  destruct (elements contents) as [files|e] eqn:Efiles.
  2:{ rewrite (seq_exc (lift (Exc e)) _ s1 s1 e [] eq_refl).
      exists (Exc e), s1,
             ([Call (list_objects_v2 (S3_BUCKET cfg) "temp_lake/") (Val listing)]
              ++ [] ++ []),
             (Val listing), [], [].
      split; [reflexivity|]. split; [reflexivity|]. split; [reflexivity|].
      split; [now left|]. split; [discriminate|]. split.
      - intros l c f Ha Hc Hf. injection Ha as <-.
        rewrite Econtents in Hc. injection Hc as <-. congruence.
      - intros l e' Ha Hc. injection Ha as <-. congruence. }
  rewrite (seq_val (lift (Val files)) _ s1 s1 files [] eq_refl).
  destruct (delete_files_run files s1)
    as (r1 & s2 & log1 & n & keys & Hdel & Hcalls & Hkeys & Hn).
  destruct r1 as [[]|e].
  2:{ rewrite (seq_exc _ _ _ _ _ _ Hdel).
      exists (Exc e), s2,
             ([Call (list_objects_v2 (S3_BUCKET cfg) "temp_lake/") (Val listing)]
              ++ [] ++ [] ++ log1), (Val listing), keys, [].
      split; [reflexivity|]. split; [reflexivity|].
      split; [cbn; now rewrite Hcalls, app_nil_r|].
      split; [now left|]. split; [discriminate|]. split.
      - intros l c f Ha Hc Hf. injection Ha as <-.
        rewrite Econtents in Hc. injection Hc as <-.
        rewrite Efiles in Hf. injection Hf as <-.
        exists n. split; [exact Hkeys|]. intros Hne. now contradiction Hne.
      - intros l e' Ha Hc. injection Ha as <-. congruence. }
  match goal with
  | |- context [seq (for_each files ?body) ?k s1] =>
      destruct (seq_val_run (for_each files body) k s1 s2 tt log1 Hdel)
        as (r & s' & log2 & Esecond & ->)
  end.
  assert (Hsecond : exists keys',
             calls log2 = list_objects_v2 (S3_BUCKET cfg) "fixed/"
                          :: map (delete_object (S3_BUCKET cfg)) keys').
  { revert Esecond.
    pose proof (request_run (list_objects_v2 (S3_BUCKET cfg) "fixed/") s2) as Hreq2.
    destruct (aws (list_objects_v2 (S3_BUCKET cfg) "fixed/") s2)
      as [s3 [listing2|e]]; cbn [fst snd] in Hreq2.
    2:{ rewrite (seq_exc _ _ _ _ _ _ Hreq2). intros [= _ _ <-]. now exists []. }
    rewrite (seq_val _ _ _ _ _ _ Hreq2).
    destruct (item listing2 "Contents") as [contents2|e].
    2:{ rewrite (seq_exc (lift (Exc e)) _ s3 s3 e [] eq_refl).
        intros [= _ _ <-]. now exists []. }
    rewrite (seq_val (lift (Val contents2)) _ s3 s3 contents2 [] eq_refl).
    destruct (elements contents2) as [files2|e].
    2:{ rewrite (seq_exc (lift (Exc e)) _ s3 s3 e [] eq_refl).
        intros [= _ _ <-]. now exists []. }
    rewrite (seq_val (lift (Val files2)) _ s3 s3 files2 [] eq_refl).
    destruct (delete_files_run files2 s3)
      as (r2 & s4 & log3 & n2 & keys2 & -> & Hcalls2 & _).
    intros [= _ _ <-]. exists keys2. cbn. now rewrite Hcalls2. }
  destruct Hsecond as [keys' Hcalls'].
  exists r, s',
         ([Call (list_objects_v2 (S3_BUCKET cfg) "temp_lake/") (Val listing)]
          ++ [] ++ [] ++ log1 ++ log2), (Val listing), keys,
         (list_objects_v2 (S3_BUCKET cfg) "fixed/"
          :: map (delete_object (S3_BUCKET cfg)) keys').
  split; [reflexivity|]. split; [reflexivity|].
  split; [cbn; now rewrite calls_app, Hcalls, Hcalls'|].
  split; [right; now exists keys'|]. split; [discriminate|]. split.
  - intros l c f Ha Hc Hf. injection Ha as <-.
    rewrite Econtents in Hc. injection Hc as <-.
    rewrite Efiles in Hf. injection Hf as <-.
    exists n. split; [exact Hkeys|]. intros _. exact (Hn eq_refl).
  - intros l e' Ha Hc. injection Ha as <-. congruence.
Qed.

End CloudFacts.

Lemma polling_ends_when_available_witness :
  exists s' log seen final,
    Cloud.wait_until_available slow_cloud options 3 (Cloud.Str "creating") 1
    = (Cloud.Val (Some tt), s', log)
    /\ Cloud.states_printed log = seen ++ [final]
    /\ Cloud.is_available final = true
    /\ Forall (fun st => Cloud.is_available st = false) seen
    /\ Cloud.slept log = 60 * List.length (Cloud.states_printed log)
    /\ List.length (Cloud.calls log) = List.length (Cloud.states_printed log)
    /\ List.length (Cloud.states_printed log) <= 3.
Proof.
  exact (polling_ends_when_available slow_cloud options 2 (Cloud.Str "creating") 1
           eq_refl (or_intror (or_introl eq_refl))).
Defined.

Lemma launch_returns_the_described_cluster_witness :
  (exists answer clusters cluster endpoint roles role,
      In (Cloud.Call (Cloud.describe_clusters "dwhCluster") (Cloud.Val answer))
         slow_launch_log
      /\ Cloud.item answer "Clusters" = Cloud.Val clusters
      /\ Cloud.index clusters 0 = Cloud.Val cluster
      /\ Cloud.item cluster "Endpoint" = Cloud.Val endpoint
      /\ Cloud.item endpoint "Address" = Cloud.Val (Cloud.Str "dwh.eu-west-1.example")
      /\ Cloud.item cluster "IamRoles" = Cloud.Val roles
      /\ Cloud.index roles 0 = Cloud.Val role
      /\ Cloud.item role "IamRoleArn" = Cloud.Val (Cloud.Str "arn:aws:iam::1:role/dwh"))
  /\ exists seen final,
       Cloud.states_printed slow_launch_log = seen ++ [final]
       /\ Cloud.is_available final = true
       /\ Forall (fun st => Cloud.is_available st = false) seen
       /\ Cloud.slept slow_launch_log = 60 * List.length seen.
Proof.
  exact (launch_returns_the_described_cluster slow_cloud int_of_options options 5 0 4
           (Cloud.Str "dwh.eu-west-1.example") (Cloud.Str "arn:aws:iam::1:role/dwh")
           slow_launch_log eq_refl).
Defined.

Lemma process_places_raises_witness :
  NullablePlaces.process_places
    [NullablePlaces.of_strings la_place; null_line_place; null_address_place]
    census
  = Raise NullablePlaces.no_split
  /\ exists e,
       NullablePlaces.process_places
         [NullablePlaces.of_strings la_place; null_address_place] census
       = Raise e.
Proof.
  split; [reflexivity|].
  exact (proj1 (proj2 (process_places_raises
                         [NullablePlaces.of_strings la_place; null_address_place]
                         census))
           null_address_place (or_intror (or_introl eq_refl))
           (or_introl eq_refl)).
Defined.

Lemma spark_stage_errors_witness :
  exists p e,
    In p [NullablePlaces.of_strings la_place; null_address_place]
    /\ NullablePlaces.extract_usa (NullablePlaces.raw_address p) = Raise e
    /\ NullablePlaces.spark_stage utc
         [NullablePlaces.of_strings la_place; null_address_place] census
         cafes_and_a_bar
       = Raise e.
Proof.
  exact (proj1 (proj2 (spark_stage_errors utc
                         [NullablePlaces.of_strings la_place; null_address_place]
                         census cafes_and_a_bar))
           null_address_place NullablePlaces.not_subscriptable
           (or_intror (or_introl eq_refl)) eq_refl).
Defined.
